(** * Relational GNN layers of [modules/layers.py]: a shallow embedding

    The five layers of the source ([REGCNLayer], [WGCNLayer], [GCNLayer],
    [CompGCNLayer], [RGCNLayer]) are embedded as functions over lists, one
    Rocq module per class and one definition per method.

    - A 1-D float tensor is a [list R], a 2-D one the list of its rows (the
      number of columns of a tensor without rows is not represented).  Float
      arithmetic is idealised to the reals (no rounding, no overflow); the
      normalised GCN layer alone works over reals extended with the
      non-finite values, because its source tests for them.
    - A [LongTensor] is a [list Z]; Python's negative indices wrap.
    - A Python exception is the [Raise] branch of [res]; [None] is the
      [None] of an option.
    - The functions of torch, scipy and torch_geometric that the source
      calls ([unique], [scatter_], [scatter_add_], indexing and indexed
      assignment, broadcasting, [csr_matrix], [add_self_loops], [degree],
      [nn.Linear], the activations) follow the documentation of these
      libraries.
    - torch does not define the result of an indexed assignment
      [t[idx] = vals] in which [idx] repeats an index: which of the values
      stays depends on the order in which the assignments are carried out.
      That order is an argument of every [forward] that has such an
      assignment (an [oracle], one [schedule] per indexed assignment), as
      the draws of the random generator are.
    - The draws of torch's random generator are an explicit stream that the
      randomised activation consumes.
    - The initial values of the parameters, random in the source, are
      arguments of the constructors. *)

From Stdlib Require Import String.
From Stdlib Require Import List ZArith Reals Lra Lia Bool Permutation Sorted.
Import ListNotations.

Open Scope Z_scope.
Open Scope R_scope.

(** ** Python results *)

Inductive exn : Type :=
| TypeError | IndexError | AttributeError | RuntimeError | ValueError.

Inductive res (A : Type) : Type :=
| Ok (a : A)
| Raise (e : exn).

Arguments Ok {A} a.
Arguments Raise {A} e.

Definition bind {A B : Type} (m : res A) (k : A -> res B) : res B :=
  match m with
  | Ok a => k a
  | Raise e => Raise e
  end.

Notation "x <- m ;; k" := (bind m (fun x => k))
  (at level 61, m at next level, right associativity).
Notation "' p <- m ;; k" := (bind m (fun x => let p := x in k))
  (at level 61, p pattern, m at next level, right associativity).

Fixpoint mapM {A B : Type} (f : A -> res B) (l : list A) : res (list B) :=
  match l with
  | [] => Ok []
  | a :: l' => b <- f a ;; bs <- mapM f l' ;; Ok (b :: bs)
  end.

(** ** Tensors *)

Abbreviation vec := (list R) (only parsing).
Abbreviation matrix := (list (list R)) (only parsing).

Definition zeros (n : nat) : vec := repeat 0 n.
Definition mzeros (rows cols : nat) : matrix := repeat (zeros cols) rows.

Definition ncols {A : Type} (m : list (list A)) : nat := length (hd [] m).

Fixpoint map2 {A B C : Type} (f : A -> B -> C) (a : list A) (b : list B) : list C :=
  match a, b with
  | x :: a', y :: b' => f x y :: map2 f a' b'
  | _, _ => []
  end.

Fixpoint set_nth {A : Type} (n : nat) (v : A) (l : list A) : list A :=
  match l, n with
  | [], _ => []
  | _ :: l', O => v :: l'
  | x :: l', S n' => x :: set_nth n' v l'
  end.

(** Elementwise binary operation with torch's broadcasting of a dimension
    of size one; other shape mismatches raise.  Two tensors without rows
    have no widths to compare. *)
Definition vbin (op : R -> R -> R) (a b : vec) : res vec :=
  if (length a =? length b)%nat then Ok (map2 op a b)
  else if (length b =? 1)%nat then Ok (map (fun x => op x (hd 0 b)) a)
  else if (length a =? 1)%nat then Ok (map (op (hd 0 a)) b)
  else Raise RuntimeError.

Definition mbin (op : R -> R -> R) (a b : matrix) : res matrix :=
  if (length a =? length b)%nat then mapM (fun p => vbin op (fst p) (snd p)) (combine a b)
  else if (length b =? 1)%nat then mapM (fun r => vbin op r (hd [] b)) a
  else if (length a =? 1)%nat then mapM (fun r => vbin op (hd [] a) r) b
  else Raise RuntimeError.

(** [t[i]] for an integer [i]: negative indices count from the end. *)
Definition wrap_index (n : nat) (i : Z) : res nat :=
  if ((0 <=? i) && (i <? Z.of_nat n))%Z then Ok (Z.to_nat i)
  else if ((- Z.of_nat n <=? i) && (i <? 0))%Z then Ok (Z.to_nat (Z.of_nat n + i))
  else Raise IndexError.

Definition getitem {A : Type} (t : list A) (i : Z) : res A :=
  k <- wrap_index (length t) i ;;
  match nth_error t k with
  | Some x => Ok x
  | None => Raise IndexError
  end.

(** [t[idx]] for an index tensor [idx]: one row per index. *)
Definition index_select {A : Type} (t : list A) (idx : list Z) : res (list A) :=
  mapM (getitem t) idx.

(** The order in which an indexed assignment [t[idx] = vals] carries out
    its assignments [t[idx[j]] = vals[j]].  torch leaves it open, and the
    result depends on it when [idx] repeats an index.  A [schedule] gives
    the assignment at every position [j] of [idx] the time at which it is
    carried out; assignments with the same time are carried out in the
    order of their positions. *)
Definition schedule : Type := nat -> nat.

(** All the assignments in the order of [idx]. *)
Definition in_order : schedule := fun _ => 0%nat.

(** The schedules of the indexed assignments of one call, numbered in the
    order of the source. *)
Definition oracle : Type := nat -> schedule.

Definition all_in_order : oracle := fun _ => in_order.

(** The assignment at the first position after all the others. *)
Definition first_at_last : schedule :=
  fun j => match j with O => 1%nat | S _ => 0%nat end.

Fixpoint insert_write {A : Type} (s : schedule) (w : nat * A) (l : list (nat * A))
  : list (nat * A) :=
  match l with
  | [] => [w]
  | w' :: l' =>
      if (s (fst w) <=? s (fst w'))%nat then w :: l else w' :: insert_write s w l'
  end.

(** The assignments [ws], given in the order of their positions, in the
    order in which [s] carries them out. *)
Definition scheduled {A : Type} (s : schedule) (ws : list A) : list A :=
  map snd (fold_right (insert_write s) [] (combine (seq 0 (length ws)) ws)).

(** The assignments [t[i] = v] one after the other. *)
Fixpoint write_all {A : Type} (t : list A) (ws : list (Z * A)) : res (list A) :=
  match ws with
  | [] => Ok t
  | (i, v) :: ws' => k <- wrap_index (length t) i ;; write_all (set_nth k v t) ws'
  end.

(** [t[idx] = vals], for as many values as indices (the source assigns
    nothing else), carried out as [s] says. *)
Definition setitems {A : Type} (s : schedule) (t : list A) (idx : list Z)
    (vals : list A) : res (list A) :=
  if (length idx =? length vals)%nat then
    write_all t (scheduled s (combine idx vals))
  else Raise RuntimeError.

(** [torch.arange(n)] *)
Definition arange (n : nat) : list Z := map Z.of_nat (seq 0 n).

(** [torch.unique]: the distinct values in ascending order, and on request
    the number of occurrences of each and the position of every input value
    in the result. *)
Fixpoint insert_unique (x : Z) (l : list Z) : list Z :=
  match l with
  | [] => [x]
  | y :: l' =>
      if (x <? y)%Z then x :: l
      else if (x =? y)%Z then l
      else y :: insert_unique x l'
  end.

Definition unique (des : list Z) : list Z := fold_right insert_unique [] des.

Definition count (des : list Z) (u : Z) : nat := count_occ Z.eq_dec des u.

Definition unique_counts (des : list Z) : list nat := map (count des) (unique des).

Fixpoint position (u : list Z) (d : Z) : Z :=
  match u with
  | [] => 0
  | x :: u' => if (x =? d)%Z then 0 else 1 + position u' d
  end%Z.

Definition unique_inverse (des : list Z) : list Z := map (position (unique des)) des.

(** [self[index[i][j]][j] += src[i][j]] for one row [i], columns from [j]. *)
Definition add_at (self : matrix) (k : Z) (j : nat) (v : R) : res matrix :=
  if ((0 <=? k) && (k <? Z.of_nat (length self)))%Z then
    match nth_error self (Z.to_nat k) with
    | Some row =>
        match nth_error row j with
        | Some x => Ok (set_nth (Z.to_nat k) (set_nth j (x + v) row) self)
        | None => Raise RuntimeError
        end
    | None => Raise RuntimeError
    end
  else Raise RuntimeError.

Fixpoint scatter_row (self : matrix) (j : nat) (idx : list Z) (src : vec)
  : res matrix :=
  match idx with
  | [] => Ok self
  | k :: idx' =>
      match src with
      | [] => Raise RuntimeError
      | v :: src' =>
          self' <- add_at self k j v ;; scatter_row self' (S j) idx' src'
      end
  end.

(** [self.scatter_add_(0, index, src)], also [scatter_(0, index, src,
    reduce='add')]: every entry of [index] names the row of [self] that
    receives the entry of [src] at the same place. *)
Fixpoint scatter_add (self : matrix) (index : list (list Z)) (src : matrix)
  : res matrix :=
  match index with
  | [] => Ok self
  | irow :: index' =>
      match src with
      | [] => Raise RuntimeError
      | srow :: src' =>
          self' <- scatter_row self 0 irow srow ;; scatter_add self' index' src'
      end
  end.

(** [m / count.reshape(K, 1)] *)
Definition div_counts (m : matrix) (cnt : list nat) : matrix :=
  map2 (fun row c => map (fun x => x / INR c) row) m cnt.

(** [nn.Linear]: [y = x W^T + b], applied to every row. *)
Record Linear : Type := mkLinear {
  in_features : nat;
  weight : matrix;
  lin_bias : option vec
}.

Definition dot (w x : vec) : R := fold_left Rplus (map2 Rmult x w) 0.

Definition linear_row (L : Linear) (x : vec) : res vec :=
  if (length x =? in_features L)%nat then
    let y := map (fun w => dot w x) (weight L) in
    match lin_bias L with
    | None => Ok y
    | Some b => Ok (map2 Rplus y b)
    end
  else Raise RuntimeError.

Definition linear (L : Linear) (m : matrix) : res matrix := mapM (linear_row L) m.

(** [csr_matrix((data, (rows, zeros)), shape=(num_node, 1))], dense: the
    entry of a row is the sum of the data filed under it. *)
Definition csr_column (data rows : list Z) (num_node : nat) : res (list Z) :=
  if forallb (fun r => (0 <=? r) && (r <? Z.of_nat num_node))%Z rows then
    Ok (map (fun r =>
               fold_right Z.add 0%Z
                 (map fst (filter (fun p => (snd p =? Z.of_nat r)%Z)
                                  (combine data rows))))
            (seq 0 num_node))
  else Raise ValueError.

(** [torch.zeros(n, cols, dtype=int64) + column] *)
Definition broadcast_column (n cols : nat) (col : list Z) : res (list (list Z)) :=
  if (length col =? n)%nat then Ok (map (fun v => repeat (0 + v)%Z cols) col)
  else if (length col =? 1)%nat then Ok (repeat (repeat (0 + hd 0 col)%Z cols) n)
  else if (n =? 1)%nat then Ok (map (fun v => repeat (0 + v)%Z cols) col)
  else Raise RuntimeError.

(** Edge triplets [(source, relation, destination)]. *)
Record edge : Type := mkEdge { e_src : Z; e_rel : Z; e_dst : Z }.

(** ** Activations and the random generator *)

Inductive Activation : Type := RReLU | Sigmoid | Tanh | ReLU.

(** The draws of the generator from [uniform(lower, upper)], next one first. *)
Definition rng := nat -> R.
Definition rng_next (g : rng) : rng := fun n => g (S n).

Definition rrelu_lower : R := 1 / 8.
Definition rrelu_upper : R := 1 / 3.

Definition sigmoid (x : R) : R := 1 / (1 + exp (- x)).
Definition relu (x : R) : R := if Rle_dec x 0 then 0 else x.
Definition rrelu_eval (x : R) : R :=
  if Rle_dec x 0 then x * ((rrelu_lower + rrelu_upper) / 2) else x.

(** [nn.RReLU] in training mode: an element that is not positive is scaled
    by a fresh draw. *)
Fixpoint rrelu_train_vec (v : vec) (g : rng) : vec * rng :=
  match v with
  | [] => ([], g)
  | x :: v' =>
      if Rle_dec x 0 then
        let '(o, g') := rrelu_train_vec v' (rng_next g) in (x * g 0%nat :: o, g')
      else
        let '(o, g') := rrelu_train_vec v' g in (x :: o, g')
  end.

Fixpoint rrelu_train (m : matrix) (g : rng) : matrix * rng :=
  match m with
  | [] => ([], g)
  | r :: m' =>
      let '(o, g1) := rrelu_train_vec r g in
      let '(os, g2) := rrelu_train m' g1 in (o :: os, g2)
  end.

(** The activations as functions of one element; [nn.RReLU] is this
    function in evaluation mode only. *)
Definition act_fun (a : Activation) : R -> R :=
  match a with
  | RReLU => rrelu_eval
  | Sigmoid => sigmoid
  | Tanh => tanh
  | ReLU => relu
  end.

Definition activate (a : Activation) (training : bool) (m : matrix) (g : rng)
  : matrix * rng :=
  match a with
  | RReLU => if training then rrelu_train m g else (map (map rrelu_eval) m, g)
  | _ => (map (map (act_fun a)) m, g)
  end.

(** ** REGCNLayer *)

Module REGCNLayer.

(** [active = None]: the attribute was never assigned. *)
Record t : Type := mk {
  input_dim : nat;
  output_dim : nat;
  fc_self : Linear;
  fc_aggregate : Linear;
  active : option Activation;
  training : bool
}.

(** The constructor [REGCNLayer(input_dim, output_dim, bias, active)]; the
    initial values of the two linear maps, random in the source, are the
    remaining arguments. *)
Definition init (input_dim output_dim : nat) (bias : bool) (active : string)
    (w_self : matrix) (b_self : vec) (w_aggregate : matrix) (b_aggregate : vec)
  : res t :=
  Ok {| input_dim := input_dim;
        output_dim := output_dim;
        fc_self := mkLinear input_dim w_self (if bias then Some b_self else None);
        fc_aggregate :=
          mkLinear input_dim w_aggregate (if bias then Some b_aggregate else None);
        active :=
          if String.eqb active "rrelu" then Some RReLU
          else if String.eqb active "sigmoid" then Some Sigmoid
          else if String.eqb active "tanh" then Some Tanh
          else None;
        training := true |}.

Definition calculate_message (L : t) (src rela : matrix) : res matrix :=
  s <- mbin Rplus src rela ;; linear (fc_aggregate L) s.

Definition aggregate (L : t) (message : matrix) (num_node : nat) (des : list Z)
  : res (list Z * matrix) :=
  let des_unique := unique des in
  let cnt := unique_counts des in
  index_matrix <- csr_column (arange (length des_unique)) des_unique num_node ;;
  col <- index_select index_matrix des ;;
  index <- broadcast_column (length message) (output_dim L) col ;;
  message' <- scatter_add (mzeros (length des_unique) (output_dim L)) index message ;;
  Ok (des_unique, div_counts message' cnt).

(** Everything of [forward] before the activation. *)
Definition pre_activation (L : t) (nodes_embed edges_embed : matrix)
    (edges : list edge) (o : oracle) : res matrix :=
  h <- linear (fc_self L) nodes_embed ;;
  src <- index_select nodes_embed (map e_src edges) ;;
  rela <- index_select edges_embed (map e_rel edges) ;;
  message <- calculate_message L src rela ;;
  '(des_index, message') <- aggregate L message (length nodes_embed) (map e_dst edges) ;;
  rows <- index_select h des_index ;;
  upd <- mbin Rplus rows message' ;;
  setitems (o 0%nat) h des_index upd.

Definition forward (L : t) (nodes_embed edges_embed : matrix) (edges : list edge)
    (o : oracle) (g : rng) : res matrix * rng :=
  match pre_activation L nodes_embed edges_embed edges o with
  | Raise e => (Raise e, g)
  | Ok h =>
      match active L with
      | None => (Raise AttributeError, g)
      | Some a => let '(o, g') := activate a (training L) h g in (Ok o, g')
      end
  end.

End REGCNLayer.

(** ** WGCNLayer *)

(** The values a positional argument of [aggregate] can take. *)
Inductive pyarg : Type :=
| ArgTensor (m : matrix)
| ArgInt (n : Z)
| ArgIndex (idx : list Z).

Module WGCNLayer.

(** [active] is one of [Sigmoid], [Tanh] and [ReLU]. *)
Record t : Type := mk {
  num_relation : nat;
  input_dim : nat;
  output_dim : nat;
  relation_weight : matrix;
  fc : Linear;
  active : Activation
}.

(** The constructor [WGCNLayer(num_relation, input_dim, output_dim, active,
    bias)], with the initial values of the parameters. *)
Definition init (num_relation input_dim output_dim : nat) (active : string)
    (bias : bool) (relation_weight w : matrix) (b : vec) : res t :=
  Ok {| num_relation := num_relation;
        input_dim := input_dim;
        output_dim := output_dim;
        relation_weight := relation_weight;
        fc := mkLinear input_dim w (if bias then Some b else None);
        active :=
          if String.eqb active "sigmoid" then Sigmoid
          else if String.eqb active "tanh" then Tanh
          else ReLU |}.

Definition calculate_message (L : t) (src relation_weight : matrix) : res matrix :=
  s <- mbin Rmult src relation_weight ;; linear (fc L) s.

Definition aggregate (L : t) (message : matrix) (num_node : nat) (des : list Z)
  : res (list Z * matrix) :=
  let des_unique := unique des in
  index_matrix <- csr_column (arange (length des_unique)) des_unique num_node ;;
  col <- index_select index_matrix des ;;
  index <- broadcast_column (length message) (ncols message) col ;;
  message' <- scatter_add (mzeros (length des_unique) (output_dim L)) index message ;;
  Ok (des_unique, message').

(** A call [self.aggregate(args...)]: the method takes [message],
    [num_node] and [des], and any other number of positional arguments is
    a [TypeError]. *)
Definition aggregate_call (L : t) (args : list pyarg) : res (list Z * matrix) :=
  match args with
  | [ArgTensor message; ArgInt num_node; ArgIndex des] =>
      aggregate L message (Z.to_nat num_node) des
  | _ => Raise TypeError
  end.

Definition forward (L : t) (nodes_embed : matrix) (edges : list edge) (o : oracle)
  : res matrix :=
  h <- linear (fc L) nodes_embed ;;
  src <- index_select nodes_embed (map e_src edges) ;;
  rw <- index_select (relation_weight L) (map e_rel edges) ;;
  message <- calculate_message L src rw ;;
  '(des_index, message') <-
    aggregate_call L [ArgTensor message;
                      ArgInt (Z.of_nat (length nodes_embed));
                      ArgInt (Z.of_nat (length edges));
                      ArgIndex (map e_dst edges)] ;;
  rows <- index_select h des_index ;;
  upd <- mbin Rplus rows message' ;;
  h' <- setitems (o 0%nat) h des_index upd ;;
  Ok (map (map (act_fun (active L))) h').

End WGCNLayer.

(** ** GCNLayer *)

Module GCNLayer.

(** The values of a float tensor when the non-finite ones matter. *)
Inductive tval : Type :=
| Finite (x : R)
| PInf
| NInf
| NaN.

Definition tadd (a b : tval) : tval :=
  match a, b with
  | Finite x, Finite y => Finite (x + y)
  | NaN, _ | _, NaN => NaN
  | PInf, NInf | NInf, PInf => NaN
  | PInf, _ | _, PInf => PInf
  | NInf, _ | _, NInf => NInf
  end.

Definition signed_inf (positive : bool) (y : R) : tval :=
  if Req_dec_T y 0 then NaN
  else if Rlt_dec 0 y then (if positive then PInf else NInf)
  else (if positive then NInf else PInf).

Definition tmul (a b : tval) : tval :=
  match a, b with
  | Finite x, Finite y => Finite (x * y)
  | NaN, _ | _, NaN => NaN
  | PInf, Finite y | Finite y, PInf => signed_inf true y
  | NInf, Finite y | Finite y, NInf => signed_inf false y
  | PInf, PInf | NInf, NInf => PInf
  | PInf, NInf | NInf, PInf => NInf
  end.

(** [x.pow(-0.5)] *)
Definition pow_neg_half (a : tval) : tval :=
  match a with
  | Finite x =>
      if Req_dec_T x 0 then PInf
      else if Rlt_dec 0 x then Finite (/ sqrt x)
      else NaN
  | PInf | NInf => Finite 0
  | NaN => NaN
  end.

Definition isinf (a : tval) : bool :=
  match a with
  | PInf | NInf => true
  | _ => false
  end.

Definition is_finite (a : tval) : Prop :=
  match a with
  | Finite _ => True
  | _ => False
  end.

Abbreviation tmatrix := (list (list tval)) (only parsing).

Record t : Type := mk { lin : Linear }.

(** [edges] is the [(2, num_edge)] tensor that [add_self_loops] and
    [propagate] take: the row of sources and the row of destinations. *)
Definition edge_index : Type := (list Z * list Z)%type.

(** [add_self_loops(edges, num_nodes)]: a loop per node, appended. *)
Definition add_self_loops (edges : edge_index) (num_nodes : nat) : edge_index :=
  (fst edges ++ arange num_nodes, snd edges ++ arange num_nodes).

(** [degree(index, num_nodes)]: ones scattered and added at [index]. *)
Definition degree (index : list Z) (num_nodes : nat) : res (list tval) :=
  if forallb (fun i => (0 <=? i) && (i <? Z.of_nat num_nodes))%Z index then
    Ok (map (fun n => Finite (INR (count index (Z.of_nat n)))) (seq 0 num_nodes))
  else Raise RuntimeError.

(** [deg.pow(-0.5)] with its infinite entries set to 0. *)
Definition deg_inv_sqrt (edges : edge_index) (num_nodes : nat) : res (list tval) :=
  deg <- degree (fst edges) num_nodes ;;
  Ok (map (fun d => if isinf d then Finite 0 else d) (map pow_neg_half deg)).

Definition norm (edges : edge_index) (num_nodes : nat) : res (list tval) :=
  dis <- deg_inv_sqrt edges num_nodes ;;
  a <- index_select dis (fst edges) ;;
  b <- index_select dis (snd edges) ;;
  if (length a =? length b)%nat then Ok (map2 tmul a b) else Raise RuntimeError.

Definition message (x_j : tmatrix) (norm : list tval) : tmatrix :=
  map2 (fun n row => map (tmul n) row) norm x_j.

(** The sum of the messages per destination, over [num_nodes] rows. *)
Fixpoint aggregate (out : tmatrix) (index : list Z) (msgs : tmatrix) : res tmatrix :=
  match index, msgs with
  | [], [] => Ok out
  | i :: index', m :: msgs' =>
      if ((0 <=? i) && (i <? Z.of_nat (length out)))%Z then
        match nth_error out (Z.to_nat i) with
        | Some row => aggregate (set_nth (Z.to_nat i) (map2 tadd row m) out) index' msgs'
        | None => Raise RuntimeError
        end
      else Raise RuntimeError
  | _, _ => Raise RuntimeError
  end.

Definition tdot (w : vec) (x : list tval) : tval :=
  fold_left tadd (map2 (fun xi wi => tmul xi (Finite wi)) x w) (Finite 0).

Definition update_row (L : Linear) (x : list tval) : res (list tval) :=
  if (length x =? in_features L)%nat then
    let y := map (fun w => tdot w x) (weight L) in
    match lin_bias L with
    | None => Ok y
    | Some b => Ok (map2 (fun yi bi => tadd yi (Finite bi)) y b)
    end
  else Raise RuntimeError.

Definition update (L : t) (aggr_out : tmatrix) : res tmatrix :=
  mapM (update_row (lin L)) aggr_out.

Definition propagate (L : t) (edges : edge_index) (x : tmatrix) (norm : list tval)
  : res tmatrix :=
  x_j <- index_select x (fst edges) ;;
  out <- aggregate (repeat (repeat (Finite 0) (ncols x)) (length x))
                   (snd edges) (message x_j norm) ;;
  update L out.

Definition forward (L : t) (node_embed : tmatrix) (edges : edge_index) : res tmatrix :=
  let edges' := add_self_loops edges (length node_embed) in
  nm <- norm edges' (length node_embed) ;;
  propagate L edges' node_embed nm.

End GCNLayer.

(** ** CompGCNLayer *)

(** A float tensor of one or two dimensions, for the operations that the
    source applies to both. *)
Inductive tensor : Type :=
| Vec (v : vec)
| Mat (m : matrix).

Definition tbin (op : R -> R -> R) (a b : tensor) : res tensor :=
  match a, b with
  | Vec x, Vec y => v <- vbin op x y ;; Ok (Vec v)
  | Mat x, Vec y => m <- mapM (fun r => vbin op r y) x ;; Ok (Mat m)
  | Vec x, Mat y => m <- mapM (fun r => vbin op x r) y ;; Ok (Mat m)
  | Mat x, Mat y => m <- mbin op x y ;; Ok (Mat m)
  end.

(** A call of an [nn.Linear] on what may be [None]. *)
Definition linear_call (W : Linear) (x : option tensor) : res tensor :=
  match x with
  | None => Raise TypeError
  | Some (Vec v) => y <- linear_row W v ;; Ok (Vec y)
  | Some (Mat m) => y <- linear W m ;; Ok (Mat y)
  end.

(** The rows of a tensor that is indexed by rows; [forward] reaches this
    with a two-dimensional tensor only. *)
Definition rows_of (x : tensor) : res matrix :=
  match x with
  | Mat m => Ok m
  | Vec _ => Raise IndexError
  end.

(** [index.unsqueeze(1).expand_as(message)] *)
Definition expand_as (index : list Z) (message : matrix) : res (list (list Z)) :=
  if (length index =? length message)%nat then
    Ok (map2 (fun i row => repeat i (length row)) index message)
  else if (length index =? 1)%nat then
    Ok (map (fun row => repeat (hd 0%Z index) (length row)) message)
  else Raise RuntimeError.

Module CompGCNLayer.

Record t : Type := mk {
  output_dim : nat;
  num_rela : Z;
  W_o : Linear;
  W_i : Linear;
  W_s : Linear;
  W_r : Linear
}.

(** The result [None] is Python's [None]. *)
Definition composition (node_embed rela_embed : tensor) (mode : string)
  : res (option tensor) :=
  if String.eqb mode "add" then
    r <- tbin Rplus node_embed rela_embed ;; Ok (Some r)
  else if String.eqb mode "sub" then
    r <- tbin Rminus node_embed rela_embed ;; Ok (Some r)
  else if String.eqb mode "mult" then
    r <- tbin Rmult node_embed rela_embed ;; Ok (Some r)
  else Ok None.

Definition aggregate (message : matrix) (des : list Z) : res (list Z * matrix) :=
  let des_unique := unique des in
  let des_index := unique_inverse des in
  index <- expand_as des_index message ;;
  message' <- scatter_add (mzeros (length des_unique) (ncols message)) index message ;;
  Ok (des_unique, message').

(** The edges of the first block of [forward], and those of the second. *)
Definition original_edges (L : t) (edges : list edge) : list edge :=
  filter (fun e => (e_rel e <? num_rela L)%Z) edges.

Definition reversed_edges (L : t) (edges : list edge) : list edge :=
  filter (fun e => (e_rel e >=? num_rela L)%Z) edges.

(** One of the two blocks of [forward]: the messages of the selected
    edges through [W], added into [h_v].  [index_matrix] is the tensor
    that the two blocks share; [s_index] and [s_rows] are the schedules of
    the two indexed assignments of the block. *)
Definition edge_block (W : Linear) (node_embed rela_embed : matrix)
    (sel : list edge) (index_matrix : list Z) (h_v : matrix)
    (s_index s_rows : schedule) : res (matrix * list Z) :=
  let src := map e_src sel in
  let rela := map e_rel sel in
  let des := map e_dst sel in
  index_matrix' <- setitems s_index index_matrix des (arange (length des)) ;;
  x <- index_select node_embed src ;;
  r <- index_select rela_embed rela ;;
  c <- composition (Mat x) (Mat r) "add" ;;
  wc <- linear_call W c ;;
  message <- rows_of wc ;;
  perm <- index_select index_matrix' des ;;
  message' <- index_select message perm ;;
  '(des_index, agg) <- aggregate message' des ;;
  rows <- index_select h_v des_index ;;
  upd <- mbin Rplus rows agg ;;
  h_v' <- setitems s_rows h_v des_index upd ;;
  Ok (h_v', index_matrix').

Definition forward (L : t) (node_embed rela_embed : matrix) (edges : list edge)
    (mode : string) (o : oracle) : res (matrix * matrix) :=
  r_self <- getitem rela_embed (num_rela L * 2)%Z ;;
  c <- composition (Mat node_embed) (Vec r_self) mode ;;
  wc <- linear_call (W_i L) c ;;
  h_v <- rows_of wc ;;
  let index_matrix := repeat 0%Z (length node_embed) in
  '(h_v1, index_matrix1) <-
    edge_block (W_o L) node_embed rela_embed (original_edges L edges) index_matrix h_v
               (o 0%nat) (o 1%nat) ;;
  '(h_v2, _) <-
    edge_block (W_s L) node_embed rela_embed (reversed_edges L edges) index_matrix1 h_v1
               (o 2%nat) (o 3%nat) ;;
  h_r <- linear (W_r L) rela_embed ;;
  Ok (h_v2, h_r).

End CompGCNLayer.

(** ** RGCNLayer *)

Module RGCNLayer.

(** [weight] has a matrix of [input_dim] rows and [output_dim] columns
    per relation. *)
Record t : Type := mk {
  input_dim : nat;
  output_dim : nat;
  num_rels : nat;
  weight : list matrix;
  self_loop_weigt : matrix
}.

(** [x @ w] for a row [x] and a matrix [w] of [cols] columns. *)
Definition vecmat (cols : nat) (x : vec) (w : matrix) : res vec :=
  if (length x =? length w)%nat then
    Ok (fold_left (fun acc p => map2 Rplus acc (map (Rmult (fst p)) (snd p)))
                  (combine x w) (zeros cols))
  else Raise RuntimeError.

(** [torch.bmm(src_h.unsqueeze(1), weight).squeeze(1)] *)
Definition bmm_rows (cols : nat) (src_h : matrix) (w : list matrix) : res matrix :=
  if (length src_h =? length w)%nat then
    mapM (fun p => vecmat cols (fst p) (snd p)) (combine src_h w)
  else Raise RuntimeError.

Definition aggregate (message : matrix) (des : list Z) : res (list Z * matrix) :=
  let des_unique := unique des in
  let des_index := unique_inverse des in
  let cnt := unique_counts des in
  index <- expand_as des_index message ;;
  message' <- scatter_add (mzeros (length des_unique) (ncols message)) index message ;;
  Ok (des_unique, div_counts message' cnt).

Definition forward (L : t) (h : matrix) (edges : list edge) (o : oracle)
  : res matrix :=
  let src := map e_src edges in
  let rel := map e_rel edges in
  let dst := map e_dst edges in
  src_h <- index_select h src ;;
  w <- index_select (weight L) rel ;;
  index_matrix <- setitems (o 0%nat) (repeat 0%Z (length h)) dst (arange (length dst)) ;;
  msg <- bmm_rows (output_dim L) src_h w ;;
  perm <- index_select index_matrix dst ;;
  msg' <- index_select msg perm ;;
  '(dst_index, agg) <- aggregate msg' dst ;;
  out <- mapM (fun x => vecmat (output_dim L) x (self_loop_weigt L)) h ;;
  rows <- index_select out dst_index ;;
  upd <- mbin Rplus rows agg ;;
  setitems (o 1%nat) out dst_index upd.

End RGCNLayer.

(** ** Reference notions of the claims *)

(** The messages of the edges whose destination is [d], in edge order. *)
Definition messages_to (d : Z) (des : list Z) (message : matrix) : matrix :=
  map snd (filter (fun p => (fst p =? d)%Z) (combine des message)).

(** The sum and the arithmetic mean of rows of [cols] columns. *)
Definition vsum (cols : nat) (rows : matrix) : vec :=
  fold_left (map2 Rplus) rows (zeros cols).

Definition vmean (cols : nat) (rows : matrix) : vec :=
  map (fun x => x / INR (length rows)) (vsum cols rows).

Definition in_range (n : nat) (i : Z) : Prop := (0 <= i < Z.of_nat n)%Z.

(** The position in [dst] of the last edge into [d]. *)
Fixpoint last_index (dst : list Z) (d : Z) : nat :=
  match dst with
  | [] => 0
  | _ :: dst' => if existsb (Z.eqb d) dst' then S (last_index dst' d) else 0
  end.

(** The shapes that [nn.Linear(i, o)] gives its parameters. *)
Definition Linear_wf (W : Linear) (i o : nat) : Prop :=
  in_features W = i /\ length (weight W) = o /\
  (forall b, lin_bias W = Some b -> length b = o).

Definition REGCN_wf (L : REGCNLayer.t) : Prop :=
  Linear_wf (REGCNLayer.fc_self L) (REGCNLayer.input_dim L) (REGCNLayer.output_dim L) /\
  Linear_wf (REGCNLayer.fc_aggregate L) (REGCNLayer.input_dim L)
            (REGCNLayer.output_dim L).

(** The shapes that the constructor of [RGCNLayer] gives its parameters. *)
Definition RGCN_wf (L : RGCNLayer.t) : Prop :=
  Forall (fun w => length w = RGCNLayer.input_dim L /\
                   Forall (fun r => length r = RGCNLayer.output_dim L) w)
         (RGCNLayer.weight L) /\
  length (RGCNLayer.self_loop_weigt L) = RGCNLayer.input_dim L /\
  Forall (fun r => length r = RGCNLayer.output_dim L) (RGCNLayer.self_loop_weigt L).

(** The value of [deg_inv_sqrt] at a node that occurs [c] times as a
    source. *)
Definition inv_sqrt_count (c : nat) : GCNLayer.tval :=
  match c with
  | O => GCNLayer.Finite 0
  | S _ => GCNLayer.Finite (/ sqrt (INR c))
  end.

Definition with_W_o (L : CompGCNLayer.t) (W : Linear) : CompGCNLayer.t :=
  CompGCNLayer.mk (CompGCNLayer.output_dim L) (CompGCNLayer.num_rela L) W
                  (CompGCNLayer.W_i L) (CompGCNLayer.W_s L) (CompGCNLayer.W_r L).

Definition with_W_s (L : CompGCNLayer.t) (W : Linear) : CompGCNLayer.t :=
  CompGCNLayer.mk (CompGCNLayer.output_dim L) (CompGCNLayer.num_rela L)
                  (CompGCNLayer.W_o L) (CompGCNLayer.W_i L) W (CompGCNLayer.W_r L).


(** The message of one edge in [REGCNLayer.forward]:
    [fc_aggregate(nodes_embed[source] + edges_embed[relation])]. *)
Definition REGCN_message (L : REGCNLayer.t) (nodes_embed edges_embed : matrix)
    (e : edge) : vec :=
  match linear_row (REGCNLayer.fc_aggregate L)
          (map2 Rplus (nth (Z.to_nat (e_src e)) nodes_embed [])
                      (nth (Z.to_nat (e_rel e)) edges_embed [])) with
  | Ok y => y
  | Raise _ => []
  end.

(** The message of one edge through the transform [W] in
    [CompGCNLayer.forward]: [W(node_embed[source] + rela_embed[relation])]. *)
Definition CompGCN_message (W : Linear) (node_embed rela_embed : matrix) (e : edge)
  : vec :=
  match linear_row W
          (map2 Rplus (nth (Z.to_nat (e_src e)) node_embed [])
                      (nth (Z.to_nat (e_rel e)) rela_embed [])) with
  | Ok y => y
  | Raise _ => []
  end.

(** The shapes that the constructor of [CompGCNLayer] gives its four
    linear maps, for [input_dim = i]. *)
Definition CompGCN_wf (L : CompGCNLayer.t) (i : nat) : Prop :=
  Linear_wf (CompGCNLayer.W_o L) i (CompGCNLayer.output_dim L) /\
  Linear_wf (CompGCNLayer.W_i L) i (CompGCNLayer.output_dim L) /\
  Linear_wf (CompGCNLayer.W_s L) i (CompGCNLayer.output_dim L) /\
  Linear_wf (CompGCNLayer.W_r L) i (CompGCNLayer.output_dim L).

(** The modes that [composition] knows. *)
Definition known_mode (mode : string) : Prop :=
  mode = "add"%string \/ mode = "sub"%string \/ mode = "mult"%string.

(** The degree that [GCNLayer.forward] normalises with: the number of
    edges, the added loop included, of which the node is the source. *)
Definition source_degree (edges : GCNLayer.edge_index) (n : nat) (i : Z) : nat :=
  count (fst (GCNLayer.add_self_loops edges n)) i.

(** The coefficient of the edge [(s, d)] in [GCNLayer.forward]. *)
Definition norm_coefficient (edges : GCNLayer.edge_index) (n : nat) (s d : Z) : R :=
  / sqrt (INR (source_degree edges n s)) * / sqrt (INR (source_degree edges n d)).

(** The rows that [index] files under [d], in order. *)
Definition rows_to {A : Type} (d : Z) (index : list Z) (rows : list A) : list A :=
  map snd (filter (fun p => (fst p =? d)%Z) (combine index rows)).

(** The integers that index a tensor of [n] rows: Python counts the
    negative ones from the end. *)
Definition in_bounds (n : nat) (i : Z) : Prop :=
  (- Z.of_nat n <= i < Z.of_nat n)%Z.

(** ** Concrete layers and inputs *)

Definition regcn_narrow : REGCNLayer.t :=
  REGCNLayer.mk 2 1 (mkLinear 2 [[1; 0]] None) (mkLinear 2 [[1; 0]] None)
                (Some Tanh) true.

Definition regcn_pair : REGCNLayer.t :=
  REGCNLayer.mk 2 2 (mkLinear 2 [[1; 0]; [0; 1]] None)
                (mkLinear 2 [[1; 0]; [0; 1]] None) (Some Tanh) true.


Definition regcn_sigmoid : REGCNLayer.t :=
  REGCNLayer.mk 2 1 (mkLinear 2 [[1; 0]] (Some [1])) (mkLinear 2 [[0; 1]] (Some [0]))
                (Some Sigmoid) true.

Definition regcn_rrelu : REGCNLayer.t :=
  REGCNLayer.mk 1 1 (mkLinear 1 [[1]] None) (mkLinear 1 [[1]] None)
                (Some RReLU) true.

(** The draws 1/5, then 1/4 for ever, all between [rrelu_lower] and
    [rrelu_upper]. *)
Definition draws : rng := fun n => match n with O => 1 / 5 | S _ => 1 / 4 end.

Definition wgcn_unit : WGCNLayer.t :=
  WGCNLayer.mk 1 1 1 [[1]] (mkLinear 1 [[1]] None) ReLU.

Definition gcn_unit : GCNLayer.t := GCNLayer.mk (mkLinear 1 [[1]] (Some [0])).

Definition wgcn_pair : WGCNLayer.t :=
  WGCNLayer.mk 2 2 1 [[2]; [3]] (mkLinear 2 [[1; 1]] None) ReLU.

Definition compgcn_unit : CompGCNLayer.t :=
  CompGCNLayer.mk 1 1 (mkLinear 1 [[1]] None) (mkLinear 1 [[1]] None)
                  (mkLinear 1 [[1]] None) (mkLinear 1 [[1]] None).

(** One relation and its inverse, two input and two output columns. *)
Definition compgcn_pair : CompGCNLayer.t :=
  CompGCNLayer.mk 2 1 (mkLinear 2 [[1; 0]; [0; 1]] None)
                  (mkLinear 2 [[1; 1]; [0; 1]] None)
                  (mkLinear 2 [[2; 0]; [0; 2]] None)
                  (mkLinear 2 [[0; 1]; [1; 0]] None).

Definition rgcn_unit : RGCNLayer.t := RGCNLayer.mk 1 1 1 [[[1]]] [[1]].

(** Two relations, with the weights 1 and 2. *)
Definition rgcn_two : RGCNLayer.t := RGCNLayer.mk 1 1 2 [[[1]]; [[2]]] [[1]].

(** * Results *)

Ltac eval_tensor :=
  vm_compute;
  repeat match goal with
    | |- Ok _ = Ok _ => apply f_equal
    | |- Some _ = Some _ => apply f_equal
    | |- (_, _) = (_, _) => apply f_equal2
    | |- _ :: _ = _ :: _ => apply f_equal2
    | |- [] = [] => reflexivity
    | |- @eq Z _ _ => reflexivity
    | |- @eq R _ _ => lra
    end.

(** ** The result monad and indexing *)

Lemma bind_ok {A B : Type} (m : res A) (k : A -> res B) (b : B) :
  bind m k = Ok b -> exists a, m = Ok a /\ k a = Ok b.
Proof.
  destruct m as [a|e]; simpl; intros H; [eauto | discriminate].
Qed.

Ltac bind_inv H :=
  let a := fresh "v" in
  let E := fresh "E" in
  apply bind_ok in H; destruct H as [a [E H]].

Lemma mapM_ok {A B : Type} (f : A -> res B) (g : A -> B) (l : list A) :
  (forall a, In a l -> f a = Ok (g a)) -> mapM f l = Ok (map g l).
Proof.
  induction l as [|a l IH]; intros H; simpl.
  - reflexivity.
  - rewrite (H a (or_introl eq_refl)). simpl.
    rewrite IH by (intros; apply H; now right). reflexivity.
Qed.

Lemma mapM_length {A B : Type} (f : A -> res B) (l : list A) (r : list B) :
  mapM f l = Ok r -> length r = length l.
Proof.
  revert r. induction l as [|a l IH]; simpl; intros r H.
  - now inversion H.
  - destruct (f a); simpl in H; [|discriminate].
    destruct (mapM f l); simpl in H; [|discriminate].
    inversion H; subst. simpl. f_equal. now apply IH.
Qed.

Lemma wrap_index_in_range (n : nat) (i : Z) :
  in_range n i -> wrap_index n i = Ok (Z.to_nat i).
Proof.
  unfold in_range, wrap_index. intros [H1 H2].
  apply Z.leb_le in H1. apply Z.ltb_lt in H2. now rewrite H1, H2.
Qed.

Lemma getitem_nth {A : Type} (t : list A) (i : Z) (x : A) :
  (0 <= i)%Z -> nth_error t (Z.to_nat i) = Some x -> getitem t i = Ok x.
Proof.
  intros Hi Hn. unfold getitem.
  rewrite wrap_index_in_range.
  - simpl. now rewrite Hn.
  - split; [assumption|].
    assert (Z.to_nat i < length t)%nat by (apply nth_error_Some; congruence). lia.
Qed.

Lemma set_nth_length {A : Type} (n : nat) (v : A) (l : list A) :
  length (set_nth n v l) = length l.
Proof.
  revert n. induction l as [|x l IH]; intros [|n]; simpl; auto.
Qed.

Lemma nth_error_set_nth_eq {A : Type} (n : nat) (v : A) (l : list A) :
  (n < length l)%nat -> nth_error (set_nth n v l) n = Some v.
Proof.
  revert n. induction l as [|x l IH]; intros [|n] H; simpl in *; try lia; auto.
  apply IH. lia.
Qed.

Lemma nth_error_set_nth_neq {A : Type} (n m : nat) (v : A) (l : list A) :
  n <> m -> nth_error (set_nth n v l) m = nth_error l m.
Proof.
  revert n m. induction l as [|x l IH]; intros [|n] [|m] H; simpl; auto.
  congruence.
Qed.

Lemma map2_length {A B C : Type} (f : A -> B -> C) (a : list A) (b : list B) :
  length a = length b -> length (map2 f a b) = length a.
Proof.
  revert b. induction a as [|x a IH]; intros [|y b] H; simpl in *; try lia.
  f_equal. apply IH. lia.
Qed.

Lemma mapM_Forall {A B : Type} (f : A -> res B) (P : B -> Prop) (l : list A) :
  (forall a, In a l -> exists b, f a = Ok b /\ P b) ->
  exists r, mapM f l = Ok r /\ Forall P r /\ length r = length l.
Proof.
  induction l as [|a l IH]; intros H; simpl.
  - exists []. auto.
  - destruct (H a (or_introl eq_refl)) as [b [-> Hb]].
    destruct IH as [r [-> [Hr Hl]]]; [intros; apply H; now right|].
    exists (b :: r). simpl. auto.
Qed.

Lemma mapM_nth {A B : Type} (f : A -> res B) (l : list A) (r : list B)
    (n : nat) (a : A) :
  mapM f l = Ok r -> nth_error l n = Some a ->
  exists b, f a = Ok b /\ nth_error r n = Some b.
Proof.
  revert r n. induction l as [|x l IH]; intros r n H Hn.
  - destruct n; discriminate.
  - simpl in H. bind_inv H. bind_inv H. inversion H; subst.
    destruct n as [|n]; simpl in *.
    + inversion Hn; subst. eauto.
    + eapply IH; eauto.
Qed.

Lemma index_select_in_range {A : Type} (t : list A) (idx : list Z) :
  Forall (in_range (length t)) idx ->
  exists r, index_select t idx = Ok r /\ Forall (fun x => In x t) r /\
            length r = length idx.
Proof.
  intros H. apply mapM_Forall. intros i Hi.
  rewrite Forall_forall in H. specialize (H i Hi).
  destruct (nth_error t (Z.to_nat i)) as [x|] eqn:E.
  - exists x. split; [apply getitem_nth; [apply H | exact E]|].
    eapply nth_error_In; eassumption.
  - apply nth_error_None in E. unfold in_range in H. lia.
Qed.

Lemma index_select_nth {A : Type} (dflt : A) (t : list A) (idx : list Z) :
  Forall (in_range (length t)) idx ->
  index_select t idx = Ok (map (fun d => nth (Z.to_nat d) t dflt) idx).
Proof.
  intros H. apply mapM_ok. intros d Hd.
  rewrite Forall_forall in H. destruct (H d Hd).
  apply getitem_nth; [assumption|]. apply nth_error_nth'. lia.
Qed.

Lemma in_range_forallb (n : nat) (idx : list Z) :
  Forall (in_range n) idx ->
  forallb (fun i => (0 <=? i) && (i <? Z.of_nat n))%Z idx = true.
Proof.
  intros H. apply forallb_forall. intros i Hi.
  rewrite Forall_forall in H. destruct (H i Hi).
  apply andb_true_intro. split; [now apply Z.leb_le | now apply Z.ltb_lt].
Qed.

Lemma arange_in_range (n : nat) : Forall (in_range n) (arange n).
Proof.
  apply Forall_forall. intros i Hi. unfold arange in Hi.
  apply in_map_iff in Hi. destruct Hi as [k [<- Hk]].
  apply in_seq in Hk. unfold in_range. lia.
Qed.

Lemma map2_Forall {A B C : Type} (f : A -> B -> C) (P : A -> Prop) (Q : B -> Prop)
    (S : C -> Prop) (a : list A) (b : list B) :
  (forall x y, P x -> Q y -> S (f x y)) ->
  Forall P a -> Forall Q b -> Forall S (map2 f a b).
Proof.
  intros H Ha. revert b. induction Ha as [|x a Hx Ha IH]; intros b Hb; simpl.
  - constructor.
  - destruct Hb as [|y b Hy Hb]; constructor; auto.
Qed.

(** *** Indexed assignment *)

Lemma write_all_length {A : Type} (ws : list (Z * A)) :
  forall (t t' : list A), write_all t ws = Ok t' -> length t' = length t.
Proof.
  induction ws as [|[i v] ws IH]; intros t t' H.
  - now inversion H.
  - cbn [write_all] in H. bind_inv H. rewrite (IH _ _ H). apply set_nth_length.
Qed.

(** Assignments to in-range indices: every index that is named holds one
    of the values assigned to it, and the other rows are left. *)
Lemma write_all_value {A : Type} (ws : list (Z * A)) :
  forall t : list A,
    Forall (in_range (length t)) (map fst ws) ->
    exists t',
      write_all t ws = Ok t' /\ length t' = length t /\
      (forall d, In d (map fst ws) ->
         exists v, In (d, v) ws /\ nth_error t' (Z.to_nat d) = Some v) /\
      (forall k, ~ In (Z.of_nat k) (map fst ws) -> nth_error t' k = nth_error t k).
Proof.
  induction ws as [|[x v0] ws IH]; intros t Hr.
  - exists t. simpl. repeat split; auto. intros d [].
  - cbn [map fst] in Hr. inversion Hr as [|? ? Hx Hr']; subst.
    cbn [write_all]. rewrite (wrap_index_in_range _ _ Hx). cbn [bind].
    destruct (IH (set_nth (Z.to_nat x) v0 t)) as [t' [E [Hl [Hin Hout]]]].
    { now rewrite set_nth_length. }
    exists t'. rewrite set_nth_length in Hl. destruct Hx as [Hx0 Hx1].
    split; [exact E|]. split; [exact Hl|]. split.
    + intros d Hd. cbn [map fst] in Hd.
      destruct (in_dec Z.eq_dec d (map fst ws)) as [Hd'|Hd'].
      * destruct (Hin d Hd') as [v [Hv Hn]]. exists v. split; [now right | exact Hn].
      * destruct Hd as [<-|Hd]; [|contradiction].
        exists v0. split; [now left|].
        rewrite Hout by (rewrite Z2Nat.id; assumption).
        apply nth_error_set_nth_eq. lia.
    + intros k Hk. cbn [map fst] in Hk.
      rewrite Hout by (intros Hd; apply Hk; now right).
      apply nth_error_set_nth_neq. intros Heq. apply Hk. left. lia.
Qed.

Lemma insert_write_perm {A : Type} (s : schedule) (w : nat * A) (l : list (nat * A)) :
  Permutation (insert_write s w l) (w :: l).
Proof.
  induction l as [|w' l IH]; cbn [insert_write]; [reflexivity|].
  destruct (s (fst w) <=? s (fst w'))%nat; [reflexivity|].
  rewrite IH. apply perm_swap.
Qed.

Lemma sorted_writes_perm {A : Type} (s : schedule) (l : list (nat * A)) :
  Permutation (fold_right (insert_write s) [] l) l.
Proof.
  induction l as [|w l IH]; cbn [fold_right]; [reflexivity|].
  rewrite insert_write_perm. now constructor.
Qed.

Lemma map_snd_combine_seq {A : Type} (ws : list A) (a : nat) :
  map snd (combine (seq a (length ws)) ws) = ws.
Proof.
  revert a. induction ws as [|w ws IH]; intros a; [reflexivity|].
  cbn [length seq combine map snd]. f_equal. apply IH.
Qed.

(** A schedule carries out every assignment, once. *)
Lemma scheduled_perm {A : Type} (s : schedule) (ws : list A) :
  Permutation (scheduled s ws) ws.
Proof.
  unfold scheduled.
  etransitivity; [apply Permutation_map; apply sorted_writes_perm|].
  now rewrite map_snd_combine_seq.
Qed.

Lemma sorted_writes_ties {A : Type} (s : schedule) (l : list (nat * A)) :
  (forall i j, s i = s j) -> fold_right (insert_write s) [] l = l.
Proof.
  intros H. induction l as [|w l IH]; cbn [fold_right]; [reflexivity|].
  rewrite IH. destruct l as [|w' l]; [reflexivity|]. cbn [insert_write].
  now rewrite (H (fst w) (fst w')), Nat.leb_refl.
Qed.

(** Assignments that all have the same time are carried out in the order
    of the index. *)
Lemma scheduled_ties {A : Type} (s : schedule) (ws : list A) :
  (forall i j, s i = s j) -> scheduled s ws = ws.
Proof.
  intros H. unfold scheduled. rewrite (sorted_writes_ties s _ H).
  apply map_snd_combine_seq.
Qed.

Lemma map_fst_combine {A B : Type} (a : list A) (b : list B) :
  length a = length b -> map fst (combine a b) = a.
Proof.
  revert b. induction a as [|x a IH]; intros [|y b] H; try discriminate; [reflexivity|].
  cbn [combine map fst]. f_equal. apply IH. simpl in H. lia.
Qed.

Lemma in_combine_nth {A B : Type} (a : list A) (b : list B) (x : A) (y : B) :
  In (x, y) (combine a b) ->
  exists j, nth_error a j = Some x /\ nth_error b j = Some y.
Proof.
  revert b. induction a as [|x0 a IH]; intros [|y0 b] H; try contradiction.
  destruct H as [H|H].
  - inversion H; subst. now exists 0%nat.
  - destruct (IH b H) as [j [Ha Hb]]. now exists (S j).
Qed.

Lemma setitems_length {A : Type} (s : schedule) (idx : list Z) (t t' vals : list A) :
  setitems s t idx vals = Ok t' -> length t' = length t.
Proof.
  unfold setitems. destruct (length idx =? length vals)%nat; [|discriminate].
  apply write_all_length.
Qed.

(** [t[idx] = vals] for in-range indices, whatever the schedule: a row
    that [idx] names holds the value of one of the positions that name it,
    and the other rows are left. *)
Lemma setitems_value {A : Type} (s : schedule) (t : list A) (idx : list Z)
    (vals : list A) :
  Forall (in_range (length t)) idx ->
  length idx = length vals ->
  exists t',
    setitems s t idx vals = Ok t' /\ length t' = length t /\
    (forall d, In d idx ->
       exists j v, nth_error idx j = Some d /\ nth_error vals j = Some v /\
                   nth_error t' (Z.to_nat d) = Some v) /\
    (forall k, ~ In (Z.of_nat k) idx -> nth_error t' k = nth_error t k).
Proof.
  intros Hr Hlen. unfold setitems. rewrite Hlen, Nat.eqb_refl.
  pose proof (scheduled_perm s (combine idx vals)) as Hp.
  assert (Hfst : Permutation (map fst (scheduled s (combine idx vals))) idx).
  { rewrite <- (map_fst_combine idx vals Hlen) at 2. now apply Permutation_map. }
  destruct (write_all_value (scheduled s (combine idx vals)) t)
    as [t' [E [Hl [Hin Hout]]]].
  { eapply Permutation_Forall; [symmetry; exact Hfst | exact Hr]. }
  exists t'. split; [exact E|]. split; [exact Hl|]. split.
  - intros d Hd.
    destruct (Hin d) as [v [Hv Hn]].
    { eapply Permutation_in; [symmetry; exact Hfst | exact Hd]. }
    apply (Permutation_in _ Hp) in Hv.
    destruct (in_combine_nth _ _ _ _ Hv) as [j [Hj Hvj]]. now exists j, v.
  - intros k Hk. apply Hout. intros Hd. apply Hk.
    eapply Permutation_in; [exact Hfst | exact Hd].
Qed.

(** [t[idx] = vals] leaves the rows that [idx] does not name. *)
Lemma setitems_frame {A : Type} (s : schedule) (idx : list Z) (t t' vals : list A)
    (n : nat) :
  setitems s t idx vals = Ok t' ->
  Forall (in_range (length t)) idx ->
  ~ In (Z.of_nat n) idx ->
  nth_error t' n = nth_error t n.
Proof.
  intros H Hr Hn.
  assert (Hlen : length idx = length vals).
  { unfold setitems in H. destruct (Nat.eqb_spec (length idx) (length vals));
      [assumption | discriminate]. }
  destruct (setitems_value s t idx vals Hr Hlen) as [t'' [E [_ [_ Hout]]]].
  rewrite E in H. inversion H; subst. now apply Hout.
Qed.

(** [t[u] = vals] for distinct in-range indices [u]: the order of the
    assignments does not matter. *)
Lemma setitems_distinct {A : Type} (s : schedule) (f : Z -> A) (u : list Z)
    (t : list A) :
  NoDup u -> Forall (in_range (length t)) u ->
  exists t',
    setitems s t u (map f u) = Ok t' /\ length t' = length t /\
    (forall d, In d u -> nth_error t' (Z.to_nat d) = Some (f d)) /\
    (forall k, ~ In (Z.of_nat k) u -> nth_error t' k = nth_error t k).
Proof.
  intros Hnd Hr.
  destruct (setitems_value s t u (map f u) Hr) as [t' [E [Hl [Hin Hout]]]].
  { now rewrite length_map. }
  exists t'. split; [exact E|]. split; [exact Hl|]. split; [|exact Hout].
  intros d Hd. destruct (Hin d Hd) as [j [v [Hj [Hv Hn]]]].
  rewrite Hn. rewrite nth_error_map, Hj in Hv. exact (eq_sym Hv).
Qed.


(** With all the assignments at the same time, [t[idx] = vals] is carried
    out in the order of [idx]. *)
Lemma setitems_ties {A : Type} (s : schedule) (t : list A) (idx : list Z)
    (vals : list A) :
  (forall i j, s i = s j) -> length idx = length vals ->
  setitems s t idx vals = write_all t (combine idx vals).
Proof.
  intros H Hlen. unfold setitems. rewrite Hlen, Nat.eqb_refl.
  now rewrite (scheduled_ties s _ H).
Qed.

(** ** [torch.unique] *)

Lemma insert_unique_In (x y : Z) (l : list Z) :
  In y (insert_unique x l) <-> y = x \/ In y l.
Proof.
  induction l as [|z l IH]; simpl.
  - intuition.
  - destruct (Z.ltb_spec x z); [simpl; intuition|].
    destruct (Z.eqb_spec x z); [subst; simpl; intuition|].
    simpl. rewrite IH. intuition.
Qed.

Lemma insert_unique_sorted (x : Z) (l : list Z) :
  StronglySorted Z.lt l -> StronglySorted Z.lt (insert_unique x l).
Proof.
  induction 1 as [|z l Hs IH Hall]; simpl.
  - constructor; constructor.
  - destruct (Z.ltb_spec x z).
    + constructor; [now constructor|].
      constructor; [assumption|].
      eapply Forall_impl; [|exact Hall]. simpl. intros; lia.
    + destruct (Z.eqb_spec x z); [now constructor|].
      constructor; [assumption|].
      apply Forall_forall. intros y Hy.
      apply insert_unique_In in Hy. destruct Hy as [->|Hy]; [lia|].
      rewrite Forall_forall in Hall. now apply Hall.
Qed.

Lemma unique_In (des : list Z) (d : Z) : In d (unique des) <-> In d des.
Proof.
  induction des as [|x des IH]; simpl.
  - reflexivity.
  - rewrite insert_unique_In, IH. intuition.
Qed.

Lemma unique_sorted (des : list Z) : StronglySorted Z.lt (unique des).
Proof.
  induction des as [|x des IH]; simpl.
  - constructor.
  - now apply insert_unique_sorted.
Qed.

Lemma sorted_NoDup (l : list Z) : StronglySorted Z.lt l -> NoDup l.
Proof.
  induction 1 as [|z l Hs IH Hall]; constructor; [|assumption].
  intros Hin. rewrite Forall_forall in Hall. specialize (Hall z Hin). lia.
Qed.

Lemma unique_NoDup (des : list Z) : NoDup (unique des).
Proof. apply sorted_NoDup, unique_sorted. Qed.

Lemma position_range (u : list Z) (d : Z) :
  In d u -> (0 <= position u d < Z.of_nat (length u))%Z.
Proof.
  induction u as [|x u IH]; intros H; [contradiction|].
  cbn [position length]. rewrite Nat2Z.inj_succ.
  destruct (Z.eqb_spec x d); [lia|].
  destruct H as [H|H]; [congruence|]. specialize (IH H). lia.
Qed.

Lemma position_nth (u : list Z) (d : Z) :
  In d u -> nth_error u (Z.to_nat (position u d)) = Some d.
Proof.
  induction u as [|x u IH]; intros H; [contradiction|].
  cbn [position].
  destruct (Z.eqb_spec x d); [now subst|].
  destruct H as [H|H]; [congruence|].
  pose proof (position_range u d H).
  replace (Z.to_nat (1 + position u d)) with (S (Z.to_nat (position u d))) by lia.
  simpl. now apply IH.
Qed.

Lemma unique_in_range (n : nat) (des : list Z) :
  Forall (in_range n) des -> Forall (in_range n) (unique des).
Proof.
  intros H. rewrite Forall_forall in *. intros d Hd.
  apply H. now apply unique_In.
Qed.

Lemma unique_absent (n : nat) (des : list Z) :
  ~ In (Z.of_nat n) des -> ~ In (Z.of_nat n) (unique des).
Proof. intros H Hin. apply H. now apply unique_In. Qed.

(** ** The index map of [REGCNLayer.aggregate] and [WGCNLayer.aggregate] *)

Lemma filter_snd_absent (data u : list Z) (d : Z) :
  ~ In d u -> filter (fun p => (snd p =? d)%Z) (combine data u) = [].
Proof.
  revert data. induction u as [|x u IH]; intros [|a data] H; simpl; auto.
  destruct (Z.eqb_spec x d) as [->|_].
  - exfalso. apply H. now left.
  - apply IH. intros Hin. apply H. now right.
Qed.

Lemma csr_entry (u : list Z) (d : Z) (s : nat) :
  NoDup u -> In d u ->
  fold_right Z.add 0%Z
    (map fst (filter (fun p => (snd p =? d)%Z)
                     (combine (map Z.of_nat (seq s (length u))) u)))
  = (Z.of_nat s + position u d)%Z.
Proof.
  revert s. induction u as [|x u IH]; intros s Hnd Hin; [contradiction|].
  inversion Hnd as [|? ? Hx Hnd']; subst.
  cbn [length seq map combine filter snd position].
  destruct (Z.eqb_spec x d) as [->|Hne].
  - rewrite filter_snd_absent by assumption. simpl. lia.
  - destruct Hin as [Hin|Hin]; [congruence|].
    rewrite IH by assumption. lia.
Qed.

Lemma nth_error_map_seq {A : Type} (f : nat -> A) (n k : nat) :
  (k < n)%nat -> nth_error (map f (seq 0 n)) k = Some (f k).
Proof.
  intros H. apply map_nth_error.
  rewrite (nth_error_nth' _ 0%nat) by now rewrite length_seq.
  now rewrite seq_nth.
Qed.

Lemma csr_column_unique (des : list Z) (n : nat) :
  Forall (in_range n) des ->
  exists dense,
    csr_column (arange (length (unique des))) (unique des) n = Ok dense /\
    forall d, In d des ->
      nth_error dense (Z.to_nat d) = Some (position (unique des) d).
Proof.
  intros Hr. rewrite Forall_forall in Hr.
  unfold csr_column.
  replace (forallb _ (unique des)) with true.
  - eexists. split; [reflexivity|].
    intros d Hd. destruct (Hr d Hd) as [H0 Hn].
    rewrite nth_error_map_seq by lia.
    rewrite Z2Nat.id by assumption.
    unfold arange. rewrite csr_entry.
    + f_equal.
    + apply unique_NoDup.
    + now apply unique_In.
  - symmetry. apply forallb_forall. intros d Hd.
    rewrite unique_In in Hd. destruct (Hr d Hd) as [H0 Hn].
    apply andb_true_intro. split; [now apply Z.leb_le | now apply Z.ltb_lt].
Qed.

Lemma broadcast_column_rows (n cols : nat) (col : list Z) :
  length col = n ->
  broadcast_column n cols col = Ok (map (fun v => repeat v cols) col).
Proof.
  intros H. unfold broadcast_column. rewrite H, Nat.eqb_refl. reflexivity.
Qed.

(** ** Scatter-add *)

Lemma set_nth_same {A : Type} (n : nat) (v : A) (l : list A) :
  nth_error l n = Some v -> set_nth n v l = l.
Proof.
  revert n. induction l as [|x l IH]; intros [|n] H; simpl in *; try discriminate.
  - now inversion H.
  - f_equal. now apply IH.
Qed.

Lemma set_nth_twice {A : Type} (n : nat) (v w : A) (l : list A) :
  set_nth n w (set_nth n v l) = set_nth n w l.
Proof.
  revert n. induction l as [|x l IH]; intros [|n]; simpl; auto.
  f_equal. apply IH.
Qed.

Lemma set_nth_app {A : Type} (pre : list A) (x v : A) (l : list A) :
  set_nth (length pre) v (pre ++ x :: l) = pre ++ v :: l.
Proof.
  induction pre as [|y pre IH]; simpl; [reflexivity|]. now f_equal.
Qed.

Lemma nth_error_middle {A : Type} (pre : list A) (x : A) (l : list A) :
  nth_error (pre ++ x :: l) (length pre) = Some x.
Proof.
  induction pre as [|y pre IH]; simpl; auto.
Qed.

Lemma scatter_row_const (src : vec) :
  forall (self : matrix) (k : Z) (pre row : vec),
    (0 <= k)%Z ->
    nth_error self (Z.to_nat k) = Some (pre ++ row) ->
    length row = length src ->
    scatter_row self (length pre) (repeat k (length src)) src
    = Ok (set_nth (Z.to_nat k) (pre ++ map2 Rplus row src) self).
Proof.
  induction src as [|v src IH]; intros self k pre row Hk Hn Hlen.
  - destruct row; [|discriminate]. simpl.
    now rewrite set_nth_same.
  - destruct row as [|x row]; [discriminate|].
    cbn [length repeat scatter_row].
    assert (Hlt : (Z.to_nat k < length self)%nat)
      by (apply nth_error_Some; congruence).
    unfold add_at.
    replace ((0 <=? k)%Z && (k <? Z.of_nat (length self))%Z) with true
      by (symmetry; apply andb_true_intro; split;
          [apply Z.leb_le | apply Z.ltb_lt]; lia).
    rewrite Hn, nth_error_middle. cbn [bind].
    rewrite set_nth_app.
    replace (S (length pre)) with (length (pre ++ [x + v]))
      by (rewrite length_app; simpl; lia).
    rewrite (IH _ k (pre ++ [x + v]) row Hk).
    + rewrite set_nth_twice. rewrite <- app_assoc. reflexivity.
    + rewrite nth_error_set_nth_eq by assumption.
      now rewrite <- app_assoc.
    + simpl in Hlen. lia.
Qed.

Lemma scatter_row_whole (self : matrix) (k : Z) (row src : vec) :
  (0 <= k)%Z ->
  nth_error self (Z.to_nat k) = Some row ->
  length row = length src ->
  scatter_row self 0 (repeat k (length src)) src
  = Ok (set_nth (Z.to_nat k) (map2 Rplus row src) self).
Proof.
  intros. now apply (scatter_row_const src self k [] row).
Qed.

Lemma messages_to_cons (x d : Z) (des : list Z) (m : vec) (msgs : matrix) :
  messages_to x (d :: des) (m :: msgs)
  = if (d =? x)%Z then m :: messages_to x des msgs else messages_to x des msgs.
Proof.
  unfold messages_to. simpl. now destruct (d =? x)%Z.
Qed.

Lemma map2_id_right {A : Type} (u : list A) (acc : matrix) :
  length acc = length u -> map2 (fun _ row => row) u acc = acc.
Proof.
  revert acc. induction u as [|x u IH]; intros [|r acc] H; simpl in *;
    try discriminate; auto.
  f_equal. apply IH. lia.
Qed.

Lemma map2_ext_in (F G : Z -> vec -> vec) (u : list Z) (acc : matrix) :
  (forall x row, In x u -> F x row = G x row) -> map2 F u acc = map2 G u acc.
Proof.
  revert acc. induction u as [|x u IH]; intros [|r acc] H; simpl; auto.
  f_equal; [apply H; now left | apply IH; intros; apply H; now right].
Qed.

(** One scattered row moves from the accumulator into the fold of its
    destination. *)
Lemma map2_absorb (F G : Z -> vec -> vec) (d : Z) (m : vec) (u : list Z) :
  (forall x row, x <> d -> G x row = F x row) ->
  (forall row, G d (map2 Rplus row m) = F d row) ->
  forall acc : matrix,
    NoDup u -> In d u -> length acc = length u ->
    forall row, nth_error acc (Z.to_nat (position u d)) = Some row ->
    map2 G u (set_nth (Z.to_nat (position u d)) (map2 Rplus row m) acc)
    = map2 F u acc.
Proof.
  intros Hne Heq. induction u as [|x u IH]; intros acc Hnd Hin Hlen row Hrow;
    [contradiction|].
  destruct acc as [|r acc]; [discriminate|].
  inversion Hnd as [|? ? Hx Hnd']; subst.
  cbn [position] in *.
  destruct (Z.eqb_spec x d) as [->|Hxd].
  - simpl in Hrow. inversion Hrow; subst. simpl.
    rewrite Heq. f_equal.
    apply map2_ext_in. intros y r Hy. apply Hne. intros ->. contradiction.
  - destruct Hin as [Hin|Hin]; [congruence|].
    pose proof (position_range u d Hin) as Hp.
    replace (Z.to_nat (1 + position u d)) with (S (Z.to_nat (position u d))) in *
      by lia.
    simpl in Hrow. simpl. rewrite Hne by assumption. f_equal.
    apply IH; auto.
Qed.

Lemma scatter_add_grouped (u : list Z) (cols : nat) (des : list Z) :
  NoDup u ->
  forall (msgs acc : matrix),
    (forall d, In d des -> In d u) ->
    length des = length msgs ->
    length acc = length u ->
    Forall (fun r => length r = cols) acc ->
    Forall (fun r => length r = cols) msgs ->
    scatter_add acc (map (fun d => repeat (position u d) cols) des) msgs
    = Ok (map2 (fun x row => fold_left (map2 Rplus) (messages_to x des msgs) row)
               u acc).
Proof.
  intros Hnd. induction des as [|d des IH]; intros msgs acc Hin Hlen Hacc Hrows Hmsgs.
  - destruct msgs; [|discriminate]. simpl.
    now rewrite map2_id_right.
  - destruct msgs as [|m msgs]; [discriminate|].
    inversion Hmsgs as [|? ? Hm Hmsgs']; subst.
    assert (Hd : In d u) by (apply Hin; now left).
    pose proof (position_range u d Hd) as Hp.
    destruct (nth_error acc (Z.to_nat (position u d))) as [row|] eqn:Hrow.
    2:{ apply nth_error_None in Hrow. lia. }
    assert (Hrl : length row = length m).
    { rewrite Forall_forall in Hrows. apply (Hrows row).
      eapply nth_error_In; eassumption. }
    cbn [map scatter_add].
    rewrite <- Hrl at 1. rewrite Hrl.
    rewrite (scatter_row_whole acc _ row m) by (auto; lia).
    cbn [bind].
    rewrite IH.
    + f_equal.
      apply (map2_absorb
               (fun x row => fold_left (map2 Rplus) (messages_to x (d :: des) (m :: msgs)) row)
               (fun x row => fold_left (map2 Rplus) (messages_to x des msgs) row)
               d m u); auto.
      * intros x r Hx. rewrite messages_to_cons.
        destruct (Z.eqb_spec d x); [congruence|reflexivity].
      * intros r. rewrite messages_to_cons, Z.eqb_refl. reflexivity.
    + intros; apply Hin; now right.
    + simpl in Hlen. lia.
    + now rewrite set_nth_length.
    + apply Forall_forall. intros r Hr.
      apply In_nth_error in Hr. destruct Hr as [n Hn].
      destruct (Nat.eq_dec (Z.to_nat (position u d)) n) as [<-|Hneq].
      * rewrite nth_error_set_nth_eq in Hn by lia.
        inversion Hn; subst. rewrite map2_length by assumption.
        rewrite Forall_forall in Hrows. apply Hrows.
        eapply nth_error_In; eassumption.
      * rewrite nth_error_set_nth_neq in Hn by assumption.
        rewrite Forall_forall in Hrows. apply Hrows.
        eapply nth_error_In; eassumption.
    + assumption.
Qed.

Lemma messages_to_length (d : Z) (des : list Z) (msgs : matrix) :
  length des = length msgs -> length (messages_to d des msgs) = count des d.
Proof.
  revert msgs. induction des as [|x des IH]; intros [|m msgs] H;
    try discriminate; [reflexivity|].
  rewrite messages_to_cons. unfold count in *. cbn [count_occ].
  destruct (Z.eqb_spec x d); destruct (Z.eq_dec x d); try congruence;
    simpl; rewrite IH; auto.
Qed.

Lemma map2_repeat_right {A B C : Type} (f : A -> B -> C) (u : list A) (z : B) :
  map2 f u (repeat z (length u)) = map (fun x => f x z) u.
Proof.
  induction u as [|x u IH]; simpl; [reflexivity|]. now f_equal.
Qed.

Lemma map2_map_map {A B C D : Type} (f : B -> C -> D) (g : A -> B) (h : A -> C)
    (u : list A) :
  map2 f (map g u) (map h u) = map (fun x => f (g x) (h x)) u.
Proof.
  induction u as [|x u IH]; simpl; [reflexivity|]. now f_equal.
Qed.

Lemma fold_map2_length (cols : nat) (rows : matrix) (acc : vec) :
  length acc = cols -> Forall (fun r => length r = cols) rows ->
  length (fold_left (map2 Rplus) rows acc) = cols.
Proof.
  revert acc. induction rows as [|r rows IH]; intros acc Ha Hr; simpl; auto.
  inversion Hr; subst. apply IH; auto. rewrite map2_length; congruence.
Qed.

Lemma messages_to_rows (cols : nat) (d : Z) (des : list Z) (msgs : matrix) :
  Forall (fun r => length r = cols) msgs ->
  Forall (fun r => length r = cols) (messages_to d des msgs).
Proof.
  intros H. rewrite Forall_forall in *. intros r Hr.
  unfold messages_to in Hr. apply in_map_iff in Hr.
  destruct Hr as [[a b] [<- Hp]]. apply filter_In in Hp. destruct Hp as [Hp _].
  apply in_combine_r in Hp. now apply H.
Qed.

(** The index tensor that [REGCNLayer.aggregate] scatters with sends every
    message to the slot of its destination. *)
Lemma aggregate_index (des : list Z) (num_node rows cols : nat) :
  Forall (in_range num_node) des -> length des = rows ->
  (index_matrix <- csr_column (arange (length (unique des))) (unique des) num_node ;;
   col <- index_select index_matrix des ;;
   broadcast_column rows cols col)
  = Ok (map (fun d => repeat (position (unique des) d) cols) des).
Proof.
  intros Hr Hlen.
  destruct (csr_column_unique des num_node Hr) as [dense [-> Hd]].
  cbn [bind]. unfold index_select.
  rewrite (mapM_ok _ (position (unique des))).
  - cbn [bind]. rewrite broadcast_column_rows by now rewrite length_map.
    now rewrite map_map.
  - intros d Hin. rewrite Forall_forall in Hr.
    apply getitem_nth; [apply (Hr d Hin) | now apply Hd].
Qed.

(** The sum that the scatter-add of an aggregator leaves in the slot of
    every destination. *)
Lemma scatter_add_sums (des : list Z) (msgs : matrix) (cols : nat) :
  length des = length msgs ->
  Forall (fun r => length r = cols) msgs ->
  scatter_add (mzeros (length (unique des)) cols)
              (map (fun d => repeat (position (unique des) d) cols) des) msgs
  = Ok (map (fun d => vsum cols (messages_to d des msgs)) (unique des)).
Proof.
  intros Hlen Hrows.
  rewrite (scatter_add_grouped (unique des) cols des); auto.
  - unfold mzeros. now rewrite map2_repeat_right.
  - apply unique_NoDup.
  - intros d. apply unique_In.
  - unfold mzeros. apply repeat_length.
  - apply Forall_forall. intros r Hr. apply repeat_spec in Hr. subst.
    apply repeat_length.
Qed.

(** ** REGCNLayer.aggregate *)

Lemma REGCN_aggregate_value (L : REGCNLayer.t) (message : matrix)
    (num_node : nat) (des : list Z) :
  length des = length message ->
  Forall (fun r => length r = REGCNLayer.output_dim L) message ->
  Forall (in_range num_node) des ->
  REGCNLayer.aggregate L message num_node des
  = Ok (unique des,
        map (fun d => vmean (REGCNLayer.output_dim L) (messages_to d des message))
            (unique des)).
Proof.
  intros Hlen Hrows Hr. unfold REGCNLayer.aggregate.
  pose proof (aggregate_index des num_node (length message)
                (REGCNLayer.output_dim L) Hr Hlen) as Hidx.
  destruct (csr_column _ _ _) as [dense|]; [|discriminate].
  cbn [bind] in *.
  destruct (index_select dense des) as [col|]; [|discriminate].
  cbn [bind] in *. rewrite Hidx. cbn [bind].
  rewrite scatter_add_sums by assumption. cbn [bind].
  do 2 f_equal. unfold div_counts, unique_counts.
  rewrite map2_map_map. apply map_ext. intros d.
  unfold vmean. now rewrite messages_to_length.
Qed.

Lemma vmean_length (cols : nat) (rows : matrix) :
  Forall (fun r => length r = cols) rows -> length (vmean cols rows) = cols.
Proof.
  intros H. unfold vmean, vsum. rewrite length_map.
  apply fold_map2_length; [apply repeat_length | assumption].
Qed.

(** C3, as the code has it.  For a layer [L], messages of dimension
    [output_dim L] (non-empty, one per destination ID) and in-range
    destination IDs, [REGCNLayer.aggregate] returns the sorted sequence of
    the distinct destination IDs, and a matrix with one row of
    [output_dim L] columns per distinct destination: the arithmetic mean of
    the messages of that destination. *)
Theorem REGCN_aggregate_mean (L : REGCNLayer.t) (message : matrix)
    (num_node : nat) (des : list Z) :
  message <> [] ->
  length des = length message ->
  Forall (fun r => length r = REGCNLayer.output_dim L) message ->
  Forall (in_range num_node) des ->
  let D := REGCNLayer.output_dim L in
  let means := map (fun d => vmean D (messages_to d des message)) (unique des) in
  REGCNLayer.aggregate L message num_node des = Ok (unique des, means) /\
  StronglySorted Z.lt (unique des) /\
  (forall d, In d (unique des) <-> In d des) /\
  length means = length (unique des) /\
  Forall (fun r => length r = D) means.
Proof.
  intros _ Hlen Hrows Hr D means. subst D means.
  split; [now apply REGCN_aggregate_value|].
  split; [apply unique_sorted|].
  split; [intros; apply unique_In|].
  split; [apply length_map|].
  apply Forall_forall. intros r Hin. apply in_map_iff in Hin.
  destruct Hin as [d [<- _]]. apply vmean_length.
  now apply messages_to_rows.
Qed.

Lemma REGCN_aggregate_mean_witness :
  REGCNLayer.aggregate regcn_pair [[2; 5]; [4; 1]; [7; 7]] 3 [2; 2; 0]%Z
  = Ok (unique [2; 2; 0]%Z,
        map (fun d => vmean 2 (messages_to d [2; 2; 0]%Z [[2; 5]; [4; 1]; [7; 7]]))
            (unique [2; 2; 0]%Z)).
Proof.
  apply (REGCN_aggregate_mean regcn_pair [[2; 5]; [4; 1]; [7; 7]] 3 [2; 2; 0]%Z).
  - discriminate.
  - reflexivity.
  - repeat constructor.
  - repeat constructor; unfold in_range; simpl; lia.
Defined.

(** C3 as stated fails when the dimension [D] of the messages is not the
    layer's [output_dim]: with [output_dim = 1] and one message of
    dimension 2, the matrix returned has one column. *)
Lemma REGCN_aggregate_wide_message :
  let message := [[2; 5]] in
  let des := [0%Z] in
  message <> [] /\
  length des = length message /\
  Forall (fun r => length r = 2%nat) message /\
  Forall (in_range 1) des /\
  (exists x, REGCNLayer.aggregate regcn_narrow message 1 des = Ok ([0%Z], [[x]])) /\
  REGCNLayer.aggregate regcn_narrow message 1 des
  <> Ok (unique des, map (fun d => vmean 2 (messages_to d des message)) (unique des)).
Proof.
  cbv zeta. split; [discriminate|]. split; [reflexivity|].
  split; [repeat constructor|].
  split; [repeat constructor; unfold in_range; simpl; lia|].
  split.
  - eexists. vm_compute. reflexivity.
  - vm_compute. intros H. inversion H.
Qed.

(** ** The aggregators on their own *)

Lemma expand_as_rows (f : Z -> Z) (cols : nat) (des : list Z) (message : matrix) :
  length des = length message ->
  Forall (fun r => length r = cols) message ->
  expand_as (map f des) message = Ok (map (fun d => repeat (f d) cols) des).
Proof.
  intros Hlen Hrows. unfold expand_as.
  rewrite length_map, Hlen, Nat.eqb_refl. f_equal.
  revert message Hlen Hrows. induction des as [|d des IH];
    intros [|m message] Hlen Hrows; try discriminate; [reflexivity|].
  inversion Hrows; subst. simpl. f_equal. apply IH; auto.
Qed.

Lemma mzeros_ncols (cols : nat) (des : list Z) (message : matrix) :
  length des = length message ->
  Forall (fun r => length r = cols) message ->
  mzeros (length (unique des)) (ncols message) = mzeros (length (unique des)) cols.
Proof.
  intros Hlen Hrows. destruct message as [|m message].
  - destruct des; [reflexivity | discriminate].
  - inversion Hrows; subst. reflexivity.
Qed.

(** [CompGCNLayer.aggregate] returns, per distinct destination, the sum of
    the messages it is given for that destination. *)
Lemma CompGCN_aggregate_sum (cols : nat) (message : matrix) (des : list Z) :
  length des = length message ->
  Forall (fun r => length r = cols) message ->
  CompGCNLayer.aggregate message des
  = Ok (unique des, map (fun d => vsum cols (messages_to d des message)) (unique des)).
Proof.
  intros Hlen Hrows. unfold CompGCNLayer.aggregate, unique_inverse.
  rewrite (expand_as_rows _ cols) by assumption. cbn [bind].
  rewrite (mzeros_ncols cols) by assumption.
  rewrite scatter_add_sums by assumption. reflexivity.
Qed.

(** [RGCNLayer.aggregate] returns the means of the messages it is given. *)
Lemma RGCN_aggregate_mean (cols : nat) (message : matrix) (des : list Z) :
  length des = length message ->
  Forall (fun r => length r = cols) message ->
  RGCNLayer.aggregate message des
  = Ok (unique des, map (fun d => vmean cols (messages_to d des message)) (unique des)).
Proof.
  intros Hlen Hrows. unfold RGCNLayer.aggregate, unique_inverse.
  rewrite (expand_as_rows _ cols) by assumption. cbn [bind].
  rewrite (mzeros_ncols cols) by assumption.
  rewrite scatter_add_sums by assumption. cbn [bind].
  do 2 f_equal. unfold div_counts, unique_counts.
  rewrite map2_map_map. apply map_ext. intros d.
  unfold vmean. now rewrite messages_to_length.
Qed.

(** [WGCNLayer.aggregate], called with its three arguments, returns the
    sums. *)
Lemma WGCN_aggregate_sum (L : WGCNLayer.t) (message : matrix) (num_node : nat)
    (des : list Z) :
  length des = length message ->
  Forall (fun r => length r = WGCNLayer.output_dim L) message ->
  Forall (in_range num_node) des ->
  WGCNLayer.aggregate L message num_node des
  = Ok (unique des,
        map (fun d => vsum (WGCNLayer.output_dim L) (messages_to d des message))
            (unique des)).
Proof.
  intros Hlen Hrows Hr. unfold WGCNLayer.aggregate.
  pose proof (aggregate_index des num_node (length message)
                (ncols message) Hr Hlen) as Hidx.
  destruct (csr_column _ _ _) as [dense|]; [|discriminate].
  cbn [bind] in *.
  destruct (index_select dense des) as [col|]; [|discriminate].
  cbn [bind] in *. rewrite Hidx. cbn [bind].
  destruct message as [|m message].
  - destruct des; [reflexivity | discriminate].
  - inversion Hrows; subst. unfold ncols. cbn [hd].
    match goal with H : length m = _ |- _ => rewrite H end.
    rewrite scatter_add_sums by assumption. reflexivity.
Qed.

(** ** The reordering of the messages in RGCNLayer and CompGCNLayer *)

Lemma existsb_eqb_In (d : Z) (l : list Z) :
  existsb (Z.eqb d) l = true <-> In d l.
Proof.
  rewrite existsb_exists. split.
  - intros [x [Hx He]]. apply Z.eqb_eq in He. now subst.
  - intros H. exists d. split; [assumption | apply Z.eqb_refl].
Qed.

Lemma last_index_nth (dst : list Z) (d : Z) :
  In d dst -> nth_error dst (last_index dst d) = Some d.
Proof.
  induction dst as [|x dst IH]; intros H; [contradiction|].
  cbn [last_index]. destruct (existsb (Z.eqb d) dst) eqn:E.
  - apply existsb_eqb_In in E. now apply IH.
  - destruct H as [->|H]; [reflexivity|].
    apply existsb_eqb_In in H. congruence.
Qed.

(** [index_matrix[dst] = arange(len(dst))], started at [s] and carried out
    in the order of [dst]: an entry that some edge names holds the
    position of the last edge that names it. *)
Lemma write_all_arange (dst : list Z) :
  forall (t : list Z) (s : nat),
    Forall (in_range (length t)) dst ->
    exists im,
      write_all t (combine dst (map Z.of_nat (seq s (length dst)))) = Ok im /\
      length im = length t /\
      (forall d, In d dst ->
                 nth_error im (Z.to_nat d) = Some (Z.of_nat (s + last_index dst d))) /\
      (forall k, ~ In (Z.of_nat k) dst -> nth_error im k = nth_error t k).
Proof.
  induction dst as [|x dst IH]; intros t s Hr.
  - exists t. simpl. repeat split; auto. intros d [].
  - inversion Hr as [|? ? Hx Hr']; subst.
    cbn [length seq map combine write_all].
    rewrite (wrap_index_in_range _ _ Hx). cbn [bind].
    destruct (IH (set_nth (Z.to_nat x) (Z.of_nat s) t) (S s)) as [im [E [Hl [Hin Hout]]]].
    { now rewrite set_nth_length. }
    exists im. split; [exact E|]. rewrite set_nth_length in Hl.
    split; [exact Hl|]. split.
    + intros d Hd. cbn [last_index].
      destruct (existsb (Z.eqb d) dst) eqn:Ed.
      * apply existsb_eqb_In in Ed. rewrite (Hin d Ed). do 2 f_equal. lia.
      * assert (Hnd : ~ In d dst).
        { intros Hd'. apply existsb_eqb_In in Hd'. congruence. }
        destruct Hd as [->|Hd]; [|contradiction].
        destruct Hx as [Hx0 Hx1].
        rewrite Hout by (rewrite Z2Nat.id; assumption).
        rewrite nth_error_set_nth_eq by lia. do 2 f_equal. lia.
    + intros k Hk. rewrite Hout by (intros Hd; apply Hk; now right).
      apply nth_error_set_nth_neq. intros Heq. apply Hk. left.
      destruct Hx. lia.
Qed.

Lemma nth_error_arange (n j : nat) (v : Z) :
  nth_error (arange n) j = Some v -> v = Z.of_nat j.
Proof.
  intros H. assert (Hj : (j < n)%nat).
  { assert (Hl : (j < length (arange n))%nat) by (apply nth_error_Some; congruence).
    unfold arange in Hl. now rewrite length_map, length_seq in Hl. }
  unfold arange in H. rewrite nth_error_map_seq in H by assumption. congruence.
Qed.

(** The two lines [index_matrix[dst] = arange] and
    [msg = msg[index_matrix[dst]]]: the message of every edge is replaced
    by the message of one of the edges with the same destination, the same
    one for all the edges into a node.  Which one depends on the schedule
    of the assignment; it is the last of them when the assignments are
    carried out in the order of [dst]. *)
Lemma reorder_takes_one (s : schedule) (index_matrix : list Z) (dst : list Z)
    (msg : matrix) :
  Forall (in_range (length index_matrix)) dst ->
  length msg = length dst ->
  exists im win,
    setitems s index_matrix dst (arange (length dst)) = Ok im /\
    length im = length index_matrix /\
    (forall d, In d dst -> nth_error dst (win d) = Some d) /\
    ((forall i j, s i = s j) -> forall d, In d dst -> win d = last_index dst d) /\
    (perm <- index_select im dst ;; index_select msg perm)
    = Ok (map (fun d => nth (win d) msg []) dst).
Proof.
  intros Hr Hlen.
  assert (La : length dst = length (arange (length dst)))
    by (unfold arange; now rewrite length_map, length_seq).
  destruct (setitems_value s index_matrix dst (arange (length dst)) Hr La)
    as [im [E [Hl [Hin _]]]].
  set (win := fun d => Z.to_nat (nth (Z.to_nat d) im 0%Z)).
  assert (Hwin : forall d, In d dst ->
             nth_error dst (win d) = Some d /\
             nth_error im (Z.to_nat d) = Some (Z.of_nat (win d))).
  { intros d Hd. destruct (Hin d Hd) as [j [v [Hj [Hv Hn]]]].
    apply nth_error_arange in Hv. subst v.
    unfold win. rewrite (nth_error_nth _ _ _ Hn), Nat2Z.id. auto. }
  exists im, win. split; [exact E|]. split; [exact Hl|].
  split; [intros d Hd; now apply Hwin|]. split.
  - intros Hties d Hd.
    rewrite (setitems_ties s _ _ _ Hties La) in E.
    destruct (write_all_arange dst index_matrix 0 Hr) as [im' [E' [_ [Hlast _]]]].
    unfold arange in E. rewrite E' in E. inversion E; subst im'.
    destruct (Hwin d Hd) as [_ Hn]. rewrite (Hlast d Hd) in Hn.
    inversion Hn. lia.
  - unfold index_select at 1.
    rewrite (mapM_ok _ (fun d => Z.of_nat (win d))).
    + cbn [bind]. unfold index_select.
      rewrite (mapM_ok _ (fun i => nth (Z.to_nat i) msg [])).
      * f_equal. rewrite map_map. apply map_ext. intros d.
        now rewrite Nat2Z.id.
      * intros i Hi. apply in_map_iff in Hi. destruct Hi as [d [<- Hd]].
        apply getitem_nth; [lia|]. rewrite Nat2Z.id.
        apply nth_error_nth'. rewrite Hlen. apply nth_error_Some.
        destruct (Hwin d Hd) as [Hw _]. congruence.
    + intros d Hd. rewrite Forall_forall in Hr. destruct (Hr d Hd).
      apply getitem_nth; [assumption|]. now destruct (Hwin d Hd).
Qed.

(** A position of [d] in [dst]. *)
Lemma winner_lt (dst : list Z) (win : Z -> nat) (d : Z) :
  nth_error dst (win d) = Some d -> (win d < length dst)%nat.
Proof. intros H. apply nth_error_Some. congruence. Qed.

Lemma last_index_NoDup (dst : list Z) (msg : matrix) :
  NoDup dst -> length msg = length dst ->
  map (fun d => nth (last_index dst d) msg []) dst = msg.
Proof.
  intros Hnd. revert msg. induction Hnd as [|x dst Hx Hnd IH];
    intros [|m msg] Hlen; try discriminate; [reflexivity|].
  cbn [map last_index].
  replace (existsb (Z.eqb x) dst) with false.
  2:{ symmetry. apply not_true_is_false. intros E.
      apply existsb_eqb_In in E. contradiction. }
  cbn [nth]. f_equal.
  transitivity (map (fun d => nth (last_index dst d) msg []) dst);
    [|apply IH; simpl in Hlen; lia].
  apply map_ext_in. intros d Hd.
  replace (existsb (Z.eqb d) dst) with true
    by (symmetry; now apply existsb_eqb_In).
  reflexivity.
Qed.

Lemma winner_NoDup (dst : list Z) (win : Z -> nat) (msg : matrix) :
  NoDup dst -> length msg = length dst ->
  (forall d, In d dst -> nth_error dst (win d) = Some d) ->
  map (fun d => nth (win d) msg []) dst = msg.
Proof.
  intros Hnd Hlen Hwin.
  transitivity (map (fun d => nth (last_index dst d) msg []) dst);
    [|now apply last_index_NoDup].
  apply map_ext_in. intros d Hd. f_equal.
  apply (proj1 (NoDup_nth_error dst) Hnd).
  - apply winner_lt. now apply Hwin.
  - rewrite (Hwin d Hd). symmetry. now apply last_index_nth.
Qed.

Lemma messages_to_map (f : Z -> vec) (d : Z) (des : list Z) :
  messages_to d des (map f des) = repeat (f d) (count des d).
Proof.
  induction des as [|x des IH]; [reflexivity|].
  cbn [map]. rewrite messages_to_cons. unfold count in *. cbn [count_occ].
  destruct (Z.eqb_spec x d); destruct (Z.eq_dec x d); try congruence.
  subst. simpl. now rewrite IH.
Qed.

Lemma fold_repeat_nil (c : nat) :
  fold_left (map2 Rplus) (repeat [] c) [] = [].
Proof. induction c; simpl; auto. Qed.

Lemma fold_repeat_cons (c : nat) :
  forall (a : R) (acc : vec) (x : R) (v : vec),
    fold_left (map2 Rplus) (repeat (x :: v) c) (a :: acc)
    = (a + INR c * x) :: fold_left (map2 Rplus) (repeat v c) acc.
Proof.
  induction c as [|c IH]; intros a acc x v.
  - simpl. f_equal. lra.
  - cbn [repeat fold_left map2]. rewrite IH. f_equal.
    rewrite S_INR. lra.
Qed.

Lemma vsum_repeat (v : vec) (c : nat) :
  vsum (length v) (repeat v c) = map (fun x => INR c * x) v.
Proof.
  unfold vsum. induction v as [|x v IH].
  - apply fold_repeat_nil.
  - cbn [length zeros repeat]. rewrite fold_repeat_cons.
    cbn [map]. f_equal; [lra | exact IH].
Qed.

Lemma vmean_repeat (v : vec) (c : nat) :
  (1 <= c)%nat -> vmean (length v) (repeat v c) = v.
Proof.
  intros Hc. unfold vmean. rewrite vsum_repeat, repeat_length, map_map.
  rewrite <- (map_id v) at 2. apply map_ext. intros x.
  assert (INR c <> 0) by (apply not_0_INR; lia). now field.
Qed.


(** ** What RGCNLayer.forward computes *)

Lemma vecmat_rows (cols : nat) (x : vec) (w : matrix) :
  length x = length w ->
  Forall (fun r => length r = cols) w ->
  exists y, RGCNLayer.vecmat cols x w = Ok y /\ length y = cols.
Proof.
  intros Hl Hw. unfold RGCNLayer.vecmat. rewrite Hl, Nat.eqb_refl.
  eexists. split; [reflexivity|].
  assert (Hgen : forall (p : list (R * vec)) (acc : vec),
             length acc = cols ->
             Forall (fun q => length (snd q) = cols) p ->
             length (fold_left
                       (fun acc q => map2 Rplus acc (map (Rmult (fst q)) (snd q)))
                       p acc) = cols).
  { induction p as [|q p IH]; intros acc Ha Hp; simpl; auto.
    inversion Hp as [|? ? Hq Hp']. apply IH; [|assumption].
    rewrite map2_length; [assumption|]. rewrite length_map. congruence. }
  apply Hgen; [apply repeat_length|].
  apply Forall_forall. intros [a r] Hin. apply in_combine_r in Hin.
  rewrite Forall_forall in Hw. now apply Hw.
Qed.

Lemma mbin_rows {A : Type} (op : R -> R -> R) (f g : A -> vec) (u : list A) :
  (forall d, In d u -> length (f d) = length (g d)) ->
  mbin op (map f u) (map g u) = Ok (map (fun d => map2 op (f d) (g d)) u).
Proof.
  intros H. unfold mbin. rewrite !length_map, Nat.eqb_refl.
  induction u as [|d u IH]; [reflexivity|].
  cbn [map combine mapM fst snd]. unfold vbin at 1.
  rewrite (H d (or_introl eq_refl)), Nat.eqb_refl. cbn [bind].
  rewrite IH by (intros; apply H; now right). reflexivity.
Qed.

(** For an edge list with in-range IDs, [RGCNLayer.forward] returns the
    self-loop rows, and adds to the row of every destination the message
    of one of the edges into it: the edge [win d] for the destination [d],
    the last one when the assignments to [index_matrix] are carried out in
    the order of the edges. *)
Lemma RGCN_forward_value (L : RGCNLayer.t) (h : matrix) (edges : list edge)
    (o : oracle) :
  let dst := map e_dst edges in
  let cols := RGCNLayer.output_dim L in
  RGCN_wf L ->
  Forall (fun x => length x = RGCNLayer.input_dim L) h ->
  Forall (in_range (length h)) (map e_src edges) ->
  Forall (in_range (length (RGCNLayer.weight L))) (map e_rel edges) ->
  Forall (in_range (length h)) dst ->
  exists win msg out0 out,
    (forall d, In d dst -> nth_error dst (win d) = Some d) /\
    ((forall i j, o 0%nat i = o 0%nat j) ->
     forall d, In d dst -> win d = last_index dst d) /\
    (src_h <- index_select h (map e_src edges) ;;
     w <- index_select (RGCNLayer.weight L) (map e_rel edges) ;;
     RGCNLayer.bmm_rows cols src_h w) = Ok msg /\
    length msg = length dst /\
    Forall (fun r => length r = cols) msg /\
    mapM (fun x => RGCNLayer.vecmat cols x (RGCNLayer.self_loop_weigt L)) h = Ok out0 /\
    RGCNLayer.forward L h edges o = Ok out /\
    length out = length h /\
    (forall d, In d dst ->
       nth_error out (Z.to_nat d)
       = Some (map2 Rplus (nth (Z.to_nat d) out0 []) (nth (win d) msg []))) /\
    (forall k, ~ In (Z.of_nat k) dst -> nth_error out k = nth_error out0 k).
Proof.
  intros dst cols [Hw [Hsl Hsr]] Hh Hsrc Hrel Hdst.
  unfold RGCNLayer.forward. fold dst. fold cols.
  destruct (index_select_in_range h (map e_src edges) Hsrc) as [src_h [-> [Hsh Lsh]]].
  destruct (index_select_in_range (RGCNLayer.weight L) (map e_rel edges) Hrel)
    as [w [-> [Hww Lw]]].
  cbn [bind].
  (* the messages of the edges *)
  assert (Hmsg : exists msg, RGCNLayer.bmm_rows cols src_h w = Ok msg /\
                             Forall (fun r => length r = cols) msg /\
                             length msg = length dst).
  { unfold RGCNLayer.bmm_rows.
    replace (length src_h =? length w)%nat with true
      by (symmetry; apply Nat.eqb_eq; rewrite !length_map in *; lia).
    destruct (mapM_Forall (fun p => RGCNLayer.vecmat cols (fst p) (snd p))
                (fun r => length r = cols) (combine src_h w)) as [msg [E [F Lm]]].
    - intros [x wm] Hin. cbn [fst snd].
      pose proof (in_combine_l _ _ _ _ Hin) as Hx.
      pose proof (in_combine_r _ _ _ _ Hin) as Hwm.
      rewrite Forall_forall in Hsh, Hww, Hh, Hw.
      destruct (Hw wm (Hww wm Hwm)) as [Hwl Hwr].
      apply vecmat_rows; [|assumption].
      rewrite (Hh x (Hsh x Hx)). congruence.
    - exists msg. split; [exact E|]. split; [exact F|].
      rewrite Lm, length_combine. unfold dst. rewrite !length_map in *. lia. }
  destruct Hmsg as [msg [Emsg [Fmsg Lmsg]]].
  (* the self-loop rows *)
  destruct (mapM_Forall (fun x => RGCNLayer.vecmat cols x (RGCNLayer.self_loop_weigt L))
              (fun r => length r = cols) h) as [out0 [Eout0 [Fout0 Lout0]]].
  { intros x Hx. rewrite Forall_forall in Hh. apply vecmat_rows; [|assumption].
    rewrite (Hh x Hx). congruence. }
  (* the reordering *)
  destruct (reorder_takes_one (o 0%nat) (repeat 0%Z (length h)) dst msg)
    as [im [win [Eim [_ [Hwin [Hties Ere]]]]]];
    [now rewrite repeat_length | exact Lmsg |].
  exists win, msg, out0. rewrite Eim, Emsg. cbn [bind].
  destruct (index_select im dst) as [perm|]; [|discriminate].
  cbn [bind] in *. rewrite Ere. cbn [bind].
  set (msg' := map (fun d => nth (win d) msg []) dst).
  assert (Hwl : forall d, In d dst -> length (nth (win d) msg []) = cols).
  { intros d Hd. rewrite Forall_forall in Fmsg. apply Fmsg. apply nth_In.
    rewrite Lmsg. apply winner_lt. now apply Hwin. }
  assert (Fmsg' : Forall (fun r => length r = cols) msg').
  { apply Forall_forall. intros r Hr. unfold msg' in Hr.
    apply in_map_iff in Hr. destruct Hr as [d [<- Hd]]. now apply Hwl. }
  rewrite (RGCN_aggregate_mean cols msg' dst)
    by (unfold msg'; try rewrite length_map; auto).
  cbn [bind]. rewrite Eout0. cbn [bind].
  assert (Hu : Forall (in_range (length out0)) (unique dst))
    by (rewrite Lout0; now apply unique_in_range).
  rewrite (index_select_nth [] out0 (unique dst) Hu). cbn [bind].
  (* the mean of equal messages *)
  assert (Hmean : map (fun d => vmean cols (messages_to d dst msg')) (unique dst)
                  = map (fun d => nth (win d) msg []) (unique dst)).
  { apply map_ext_in. intros d Hd. rewrite unique_In in Hd. unfold msg'.
    rewrite messages_to_map. rewrite <- (Hwl d Hd). apply vmean_repeat.
    assert (count dst d > 0)%nat by (apply count_occ_In; assumption). lia. }
  rewrite Hmean.
  rewrite mbin_rows.
  2:{ intros d Hd. rewrite unique_In in Hd.
      rewrite Forall_forall in Fout0, Hdst. destruct (Hdst d Hd).
      rewrite (Fout0 (nth (Z.to_nat d) out0 [])) by (apply nth_In; lia).
      symmetry. now apply Hwl. }
  cbn [bind].
  destruct (setitems_distinct (o 1%nat)
              (fun d => map2 Rplus (nth (Z.to_nat d) out0 []) (nth (win d) msg []))
              (unique dst) out0 (unique_NoDup dst) Hu) as [out [E [Lo [Hin Hout]]]].
  exists out. split; [exact Hwin|]. split; [exact Hties|].
  split; [reflexivity|]. split; [exact Lmsg|]. split; [exact Fmsg|].
  split; [reflexivity|]. split; [exact E|]. split; [lia|]. split.
  - intros d Hd. apply Hin. now apply unique_In.
  - intros k Hk. apply Hout. now apply unique_absent.
Qed.

(** When no two edges share a destination, the only edge into a node
    carries the mean of the messages into it, and [RGCNLayer.forward] adds
    the mean, whatever the schedules. *)
Lemma RGCN_forward_distinct (L : RGCNLayer.t) (h : matrix) (edges : list edge)
    (o : oracle) :
  let dst := map e_dst edges in
  let cols := RGCNLayer.output_dim L in
  NoDup dst ->
  RGCN_wf L ->
  Forall (fun x => length x = RGCNLayer.input_dim L) h ->
  Forall (in_range (length h)) (map e_src edges) ->
  Forall (in_range (length (RGCNLayer.weight L))) (map e_rel edges) ->
  Forall (in_range (length h)) dst ->
  exists msg out0 out,
    (src_h <- index_select h (map e_src edges) ;;
     w <- index_select (RGCNLayer.weight L) (map e_rel edges) ;;
     RGCNLayer.bmm_rows cols src_h w) = Ok msg /\
    mapM (fun x => RGCNLayer.vecmat cols x (RGCNLayer.self_loop_weigt L)) h = Ok out0 /\
    RGCNLayer.forward L h edges o = Ok out /\
    (forall d, In d dst ->
       nth_error out (Z.to_nat d)
       = Some (map2 Rplus (nth (Z.to_nat d) out0 [])
                          (vmean cols (messages_to d dst msg)))) /\
    (forall k, ~ In (Z.of_nat k) dst -> nth_error out k = nth_error out0 k).
Proof.
  intros dst cols Hnd Hwf Hh Hsrc Hrel Hdst.
  destruct (RGCN_forward_value L h edges o Hwf Hh Hsrc Hrel Hdst)
    as [win [msg [out0 [out [Hwin [_ [Em [Lm [Fm [E0 [E [_ [Hin Hout]]]]]]]]]]]]].
  fold dst in Hwin, Lm, Hin, Hout. fold cols in Em, Fm, E0.
  exists msg, out0, out. repeat split; auto.
  intros d Hd. rewrite (Hin d Hd). do 2 f_equal.
  rewrite <- (winner_NoDup dst win msg Hnd Lm Hwin) at 2.
  rewrite messages_to_map.
  assert (Hl : length (nth (win d) msg []) = cols).
  { rewrite Forall_forall in Fm. apply Fm. apply nth_In.
    rewrite Lm. apply winner_lt. now apply Hwin. }
  rewrite <- Hl. symmetry. apply vmean_repeat.
  assert (count dst d > 0)%nat by (apply count_occ_In; assumption). lia.
Qed.

(** ** What a block of CompGCNLayer.forward computes *)

Lemma linear_row_wf (W : Linear) (i o : nat) (x : vec) :
  Linear_wf W i o -> length x = i ->
  exists y, linear_row W x = Ok y /\ length y = o.
Proof.
  intros [Hi [Ho Hb]] Hx. unfold linear_row. rewrite Hx, Hi, Nat.eqb_refl.
  destruct (lin_bias W) as [b|] eqn:Eb.
  - eexists. split; [reflexivity|].
    rewrite map2_length; rewrite length_map; [assumption|].
    rewrite (Hb b eq_refl). assumption.
  - eexists. split; [reflexivity|]. now rewrite length_map.
Qed.

Lemma tbin_mat_vec (op : R -> R -> R) (m : matrix) (r : vec) :
  Forall (fun x => length x = length r) m ->
  tbin op (Mat m) (Vec r) = Ok (Mat (map (fun x => map2 op x r) m)).
Proof.
  intros H. cbn [tbin].
  rewrite (mapM_ok _ (fun x => map2 op x r)); [reflexivity|].
  intros x Hx. rewrite Forall_forall in H. unfold vbin.
  now rewrite (H x Hx), Nat.eqb_refl.
Qed.

Lemma filter_in_range (f : edge -> bool) (p : edge -> Z) (n : nat) (edges : list edge) :
  Forall (in_range n) (map p edges) -> Forall (in_range n) (map p (filter f edges)).
Proof.
  intros H. rewrite Forall_forall in *. intros d Hd.
  apply in_map_iff in Hd. destruct Hd as [e [<- He]]. apply filter_In in He.
  apply H. apply in_map. tauto.
Qed.

(** For selected edges with in-range IDs, a block of
    [CompGCNLayer.forward] computes one message per selected edge, and adds
    to the row of every destination the message of one of the selected
    edges into it (the edge [win d] for the destination [d], the last one
    when the assignments to [index_matrix] are carried out in the order of
    the edges), once per selected edge into it; it leaves the other rows.
    The edge chosen does not depend on the rows [h_v]. *)
Lemma CompGCN_edge_block_value (W : Linear) (i o : nat)
    (node_embed rela_embed : matrix) (sel : list edge) (index_matrix : list Z)
    (s_index : schedule) :
  let des := map e_dst sel in
  let msg := map (CompGCN_message W node_embed rela_embed) sel in
  Linear_wf W i o ->
  Forall (fun x => length x = i) node_embed ->
  Forall (fun x => length x = i) rela_embed ->
  Forall (in_range (length node_embed)) (map e_src sel) ->
  Forall (in_range (length rela_embed)) (map e_rel sel) ->
  Forall (in_range (length index_matrix)) des ->
  exists win index_matrix',
    (forall d, In d des -> nth_error des (win d) = Some d) /\
    ((forall j k, s_index j = s_index k) ->
     forall d, In d des -> win d = last_index des d) /\
    length index_matrix' = length index_matrix /\
    (x <- index_select node_embed (map e_src sel) ;;
     r <- index_select rela_embed (map e_rel sel) ;;
     c <- CompGCNLayer.composition (Mat x) (Mat r) "add" ;;
     wc <- linear_call W c ;;
     rows_of wc) = Ok msg /\
    Forall (fun x => length x = o) msg /\
    forall (h_v : matrix) (s_rows : schedule),
      Forall (fun x => length x = o) h_v ->
      length index_matrix = length h_v ->
      exists h_v',
        CompGCNLayer.edge_block W node_embed rela_embed sel index_matrix h_v
                                s_index s_rows
        = Ok (h_v', index_matrix') /\
        length h_v' = length h_v /\
        (forall d, In d des ->
           nth_error h_v' (Z.to_nat d)
           = Some (map2 Rplus (nth (Z.to_nat d) h_v [])
                     (map (fun x => INR (count des d) * x) (nth (win d) msg [])))) /\
        (forall k, ~ In (Z.of_nat k) des -> nth_error h_v' k = nth_error h_v k) /\
        Forall (fun x => length x = o) h_v'.
Proof.
  intros des msg HW Hne Hre Hsrc Hrel Hdes.
  assert (Hw : forall e, In e sel ->
             length (nth (Z.to_nat (e_src e)) node_embed []) = i /\
             length (nth (Z.to_nat (e_rel e)) rela_embed []) = i).
  { intros e He. rewrite Forall_forall in Hne, Hre, Hsrc, Hrel.
    destruct (Hsrc (e_src e) (in_map _ _ _ He)).
    destruct (Hrel (e_rel e) (in_map _ _ _ He)).
    split; [apply Hne | apply Hre]; apply nth_In; lia. }
  assert (Hrow : forall e, In e sel ->
             linear_row W (map2 Rplus (nth (Z.to_nat (e_src e)) node_embed [])
                                      (nth (Z.to_nat (e_rel e)) rela_embed []))
             = Ok (CompGCN_message W node_embed rela_embed e) /\
             length (CompGCN_message W node_embed rela_embed e) = o).
  { intros e He. destruct (Hw e He) as [H1 H2]. unfold CompGCN_message.
    destruct (linear_row_wf _ _ _
                (map2 Rplus (nth (Z.to_nat (e_src e)) node_embed [])
                            (nth (Z.to_nat (e_rel e)) rela_embed [])) HW)
      as [y [-> Hy]]; [|auto].
    rewrite map2_length; congruence. }
  assert (Fm : Forall (fun x => length x = o) msg).
  { apply Forall_forall. intros x Hx. unfold msg in Hx.
    apply in_map_iff in Hx. destruct Hx as [e [<- He]]. now apply Hrow. }
  assert (Lmd : length msg = length des)
    by (unfold msg, des; now rewrite !length_map).
  assert (Emsg : (x <- index_select node_embed (map e_src sel) ;;
                  r <- index_select rela_embed (map e_rel sel) ;;
                  c <- CompGCNLayer.composition (Mat x) (Mat r) "add" ;;
                  wc <- linear_call W c ;;
                  rows_of wc) = Ok msg).
  { rewrite (index_select_nth [] node_embed _ Hsrc).
    rewrite (index_select_nth [] rela_embed _ Hrel). cbn [bind].
    unfold CompGCNLayer.composition. cbn [String.eqb Ascii.eqb Bool.eqb].
    cbn [tbin]. rewrite !map_map.
    rewrite mbin_rows by (intros e He; destruct (Hw e He); congruence).
    cbn [bind linear_call]. unfold linear.
    rewrite (mapM_ok _ (fun x => match linear_row W x with
                                 | Ok y => y
                                 | Raise _ => []
                                 end)).
    - cbn [bind rows_of]. unfold msg. now rewrite map_map.
    - intros x Hx. apply in_map_iff in Hx. destruct Hx as [e [<- He]].
      destruct (Hrow e He) as [-> _]. reflexivity. }
  destruct (reorder_takes_one s_index index_matrix des msg Hdes Lmd)
    as [im [win [Eim [Lim [Hwin [Hties Ere]]]]]].
  exists win, im.
  split; [exact Hwin|]. split; [exact Hties|]. split; [exact Lim|].
  split; [exact Emsg|]. split; [exact Fm|].
  intros h_v s_rows Hh Him.
  unfold CompGCNLayer.edge_block. fold des.
  rewrite Eim. cbn [bind].
  destruct (index_select node_embed (map e_src sel)) as [x|]; [|discriminate].
  cbn [bind] in Emsg |- *.
  destruct (index_select rela_embed (map e_rel sel)) as [r|]; [|discriminate].
  cbn [bind] in Emsg |- *.
  destruct (CompGCNLayer.composition (Mat x) (Mat r) "add") as [c|]; [|discriminate].
  cbn [bind] in Emsg |- *.
  destruct (linear_call W c) as [wc|]; [|discriminate].
  cbn [bind] in Emsg |- *. rewrite Emsg. cbn [bind].
  destruct (index_select im des) as [perm|]; [|discriminate].
  cbn [bind] in *. rewrite Ere. cbn [bind].
  rewrite Him in Hdes.
  assert (Hu : Forall (in_range (length h_v)) (unique des))
    by now apply unique_in_range.
  destruct (setitems_distinct s_rows
              (fun d => map2 Rplus (nth (Z.to_nat d) h_v [])
                          (map (fun x => INR (count des d) * x) (nth (win d) msg [])))
              (unique des) h_v (unique_NoDup des) Hu) as [h' [E [Lh [Hin Hout]]]].
  exists h'.
  set (msg' := map (fun d => nth (win d) msg []) des).
  assert (Hwl : forall d, In d des -> length (nth (win d) msg []) = o).
  { intros d Hd. rewrite Forall_forall in Fm. apply Fm. apply nth_In.
    rewrite Lmd. apply winner_lt. now apply Hwin. }
  assert (Fmsg' : Forall (fun r => length r = o) msg').
  { apply Forall_forall. intros r0 Hr0. unfold msg' in Hr0.
    apply in_map_iff in Hr0. destruct Hr0 as [d [<- Hd]]. now apply Hwl. }
  rewrite (CompGCN_aggregate_sum o msg' des)
    by (unfold msg'; try rewrite length_map; auto).
  cbn [bind].
  rewrite (index_select_nth [] h_v (unique des) Hu). cbn [bind].
  assert (Hsum : map (fun d => vsum o (messages_to d des msg')) (unique des)
                 = map (fun d => map (fun x => INR (count des d) * x)
                                     (nth (win d) msg []))
                       (unique des)).
  { apply map_ext_in. intros d Hd. rewrite unique_In in Hd. unfold msg'.
    rewrite messages_to_map. rewrite <- (Hwl d Hd). apply vsum_repeat. }
  rewrite Hsum. rewrite mbin_rows.
  2:{ intros d Hd. rewrite unique_In in Hd. rewrite length_map, (Hwl d Hd).
      rewrite Forall_forall in Hh, Hdes. destruct (Hdes d Hd).
      apply Hh. apply nth_In. lia. }
  cbn [bind]. rewrite E. cbn [bind].
  split; [reflexivity|]. split; [exact Lh|]. split; [|split].
  - intros d Hd. apply Hin. now apply unique_In.
  - intros k Hk. apply Hout. now apply unique_absent.
  - apply Forall_forall. intros y Hy. apply In_nth_error in Hy.
    destruct Hy as [k Hk].
    destruct (in_dec Z.eq_dec (Z.of_nat k) des) as [Hd|Hd].
    + rewrite <- (Nat2Z.id k) in Hk at 1.
      rewrite (Hin _ (proj2 (unique_In des _) Hd)) in Hk.
      inversion Hk; subst y. rewrite Nat2Z.id.
      rewrite Forall_forall in Hh, Hdes. destruct (Hdes _ Hd).
      rewrite map2_length.
      * apply Hh. apply nth_In. lia.
      * rewrite length_map, (Hwl _ Hd). apply Hh. apply nth_In. lia.
    + rewrite (Hout k (unique_absent _ _ Hd)) in Hk.
      rewrite Forall_forall in Hh. apply Hh. eapply nth_error_In; eassumption.
Qed.

(** ** What CompGCNLayer.forward computes *)

(** For well-shaped embeddings and in-range IDs, whatever the schedules:
    the relation rows are [W_r(rela_embed)]; the messages are
    [W_o(node[s] + relation[r])] for the edges with [relation < num_rela]
    and [W_s(node[s] + relation[r])] for the others; the node rows start as
    the self-loop rows of the mode, the first block adds to the row of each
    of its destinations the message of one of its edges into it, once per
    edge into it, and the second block then does the same.  The messages,
    the edges chosen and the relation rows are the same for every mode. *)
Lemma CompGCN_forward_blocks (L : CompGCNLayer.t) (i : nat)
    (node_embed rela_embed : matrix) (edges : list edge) (o : oracle) :
  let od := CompGCNLayer.output_dim L in
  let fwd := CompGCNLayer.original_edges L edges in
  let rev := CompGCNLayer.reversed_edges L edges in
  let msg_o := map (CompGCN_message (CompGCNLayer.W_o L) node_embed rela_embed) fwd in
  let msg_s := map (CompGCN_message (CompGCNLayer.W_s L) node_embed rela_embed) rev in
  let added := fun (sel : list edge) (msg : matrix) (win : Z -> nat) (d : Z) =>
    map (fun x => INR (count (map e_dst sel) d) * x) (nth (win d) msg []) in
  CompGCN_wf L i ->
  Forall (fun x => length x = i) node_embed ->
  Forall (fun x => length x = i) rela_embed ->
  in_range (length rela_embed) (CompGCNLayer.num_rela L * 2)%Z ->
  Forall (in_range (length node_embed)) (map e_src edges) ->
  Forall (in_range (length rela_embed)) (map e_rel edges) ->
  Forall (in_range (length node_embed)) (map e_dst edges) ->
  exists win_o win_s h_r,
    (forall d, In d (map e_dst fwd) -> nth_error (map e_dst fwd) (win_o d) = Some d) /\
    (forall d, In d (map e_dst rev) -> nth_error (map e_dst rev) (win_s d) = Some d) /\
    ((forall j k, o 0%nat j = o 0%nat k) ->
     forall d, In d (map e_dst fwd) -> win_o d = last_index (map e_dst fwd) d) /\
    ((forall j k, o 2%nat j = o 2%nat k) ->
     forall d, In d (map e_dst rev) -> win_s d = last_index (map e_dst rev) d) /\
    linear (CompGCNLayer.W_r L) rela_embed = Ok h_r /\
    length h_r = length rela_embed /\
    Forall (fun x => length x = od) h_r /\
    forall mode, known_mode mode ->
      exists h0 h1 h_v,
        (r_self <- getitem rela_embed (CompGCNLayer.num_rela L * 2)%Z ;;
         c <- CompGCNLayer.composition (Mat node_embed) (Vec r_self) mode ;;
         wc <- linear_call (CompGCNLayer.W_i L) c ;;
         rows_of wc) = Ok h0 /\
        CompGCNLayer.forward L node_embed rela_embed edges mode o = Ok (h_v, h_r) /\
        length h_v = length node_embed /\
        Forall (fun x => length x = od) h_v /\
        (forall d, In d (map e_dst fwd) ->
           nth_error h1 (Z.to_nat d)
           = Some (map2 Rplus (nth (Z.to_nat d) h0 []) (added fwd msg_o win_o d))) /\
        (forall k, ~ In (Z.of_nat k) (map e_dst fwd) ->
           nth_error h1 k = nth_error h0 k) /\
        (forall d, In d (map e_dst rev) ->
           nth_error h_v (Z.to_nat d)
           = Some (map2 Rplus (nth (Z.to_nat d) h1 []) (added rev msg_s win_s d))) /\
        (forall k, ~ In (Z.of_nat k) (map e_dst rev) ->
           nth_error h_v k = nth_error h1 k).
Proof.
  intros od fwd rev msg_o msg_s added [HWo [HWi [HWs HWr]]] Hne Hre Hself Hsrc Hrel Hdst.
  (* the two blocks, before the rows are known *)
  destruct (CompGCN_edge_block_value (CompGCNLayer.W_o L) i od node_embed rela_embed
              fwd (repeat 0%Z (length node_embed)) (o 0%nat))
    as [win_o [im1 [Hwo [Hto [Li1 [_ [_ B1]]]]]]]; auto.
  { now apply filter_in_range. }
  { now apply filter_in_range. }
  { rewrite repeat_length. now apply filter_in_range. }
  destruct (CompGCN_edge_block_value (CompGCNLayer.W_s L) i od node_embed rela_embed
              rev im1 (o 2%nat))
    as [win_s [im2 [Hws [Hts [_ [_ [_ B2]]]]]]]; auto.
  { now apply filter_in_range. }
  { now apply filter_in_range. }
  { rewrite Li1, repeat_length. now apply filter_in_range. }
  (* the relation rows *)
  destruct (mapM_Forall (linear_row (CompGCNLayer.W_r L)) (fun r => length r = od)
              rela_embed) as [h_r [Er [Fr Lr]]].
  { intros x Hx. apply (linear_row_wf _ _ _ _ HWr).
    rewrite Forall_forall in Hre. now apply Hre. }
  exists win_o, win_s, h_r.
  split; [exact Hwo|]. split; [exact Hws|]. split; [exact Hto|]. split; [exact Hts|].
  split; [exact Er|]. split; [exact Lr|]. split; [exact Fr|].
  intros mode Hmode.
  unfold CompGCNLayer.forward. fold fwd. fold rev.
  (* the self-loop rows *)
  rewrite (getitem_nth rela_embed _
             (nth (Z.to_nat (CompGCNLayer.num_rela L * 2)) rela_embed []));
    [|apply Hself | apply nth_error_nth'; destruct Hself; lia].
  cbn [bind].
  set (r_self := nth (Z.to_nat (CompGCNLayer.num_rela L * 2)) rela_embed []).
  assert (Hrs : length r_self = i).
  { rewrite Forall_forall in Hre. apply Hre. apply nth_In. destruct Hself. lia. }
  assert (Hrows : Forall (fun x => length x = length r_self) node_embed)
    by (rewrite Hrs; exact Hne).
  assert (Hc : exists op, CompGCNLayer.composition (Mat node_embed) (Vec r_self) mode
                          = Ok (Some (Mat (map (fun x => map2 op x r_self) node_embed)))).
  { unfold CompGCNLayer.composition.
    destruct Hmode as [-> | [-> | ->]]; cbn [String.eqb Ascii.eqb Bool.eqb];
      rewrite tbin_mat_vec by assumption; cbn [bind]; eauto. }
  destruct Hc as [op ->]. cbn [bind linear_call].
  destruct (mapM_Forall (linear_row (CompGCNLayer.W_i L)) (fun r => length r = od)
              (map (fun x => map2 op x r_self) node_embed)) as [h0 [E0 [F0 L0]]].
  { intros x Hx. apply in_map_iff in Hx. destruct Hx as [y [<- Hy]].
    apply (linear_row_wf _ _ _ _ HWi). rewrite Forall_forall in Hne.
    rewrite map2_length; [now apply Hne | rewrite Hrs; now apply Hne]. }
  rewrite length_map in L0.
  unfold linear at 1 2. rewrite E0. cbn [bind rows_of].
  destruct (B1 h0 (o 1%nat) F0) as [h1 [E1 [L1 [In1 [Out1 F1]]]]].
  { rewrite repeat_length. lia. }
  rewrite E1. cbn [bind].
  destruct (B2 h1 (o 3%nat) F1) as [h2 [E2 [L2 [In2 [Out2 F2]]]]].
  { rewrite Li1, repeat_length. lia. }
  rewrite E2. cbn [bind].
  unfold linear. rewrite Er. cbn [bind].
  exists h0, h1, h2.
  split; [reflexivity|]. split; [reflexivity|]. split; [lia|]. split; [exact F2|].
  split; [exact In1|]. split; [exact Out1|]. split; [exact In2 | exact Out2].
Qed.

(** ** What REGCNLayer.forward computes *)

(** For a well-shaped input with in-range IDs, the tensor that
    [REGCNLayer.forward] hands to its activation has the self-loop rows,
    and in the row of every destination the mean of the messages of the
    edges into it is added. *)
Lemma REGCN_pre_activation_value (L : REGCNLayer.t) (nodes_embed edges_embed : matrix)
    (edges : list edge) (o : oracle) :
  let dst := map e_dst edges in
  let cols := REGCNLayer.output_dim L in
  REGCN_wf L ->
  Forall (fun x => length x = REGCNLayer.input_dim L) nodes_embed ->
  Forall (fun x => length x = REGCNLayer.input_dim L) edges_embed ->
  Forall (in_range (length nodes_embed)) (map e_src edges) ->
  Forall (in_range (length edges_embed)) (map e_rel edges) ->
  Forall (in_range (length nodes_embed)) dst ->
  exists message h0 h,
    (src <- index_select nodes_embed (map e_src edges) ;;
     rela <- index_select edges_embed (map e_rel edges) ;;
     REGCNLayer.calculate_message L src rela) = Ok message /\
    length message = length edges /\
    linear (REGCNLayer.fc_self L) nodes_embed = Ok h0 /\
    REGCNLayer.pre_activation L nodes_embed edges_embed edges o = Ok h /\
    length h = length nodes_embed /\
    (forall d, In d dst ->
       nth_error h (Z.to_nat d)
       = Some (map2 Rplus (nth (Z.to_nat d) h0 [])
                          (vmean cols (messages_to d dst message)))) /\
    (forall k, ~ In (Z.of_nat k) dst -> nth_error h k = nth_error h0 k).
Proof.
  intros dst cols [Hself Hagg] Hne Hee Hsrc Hrel Hdst.
  unfold REGCNLayer.pre_activation. fold dst.
  destruct (mapM_Forall (linear_row (REGCNLayer.fc_self L))
              (fun r => length r = cols) nodes_embed) as [h0 [Eh0 [Fh0 Lh0]]].
  { intros x Hx. rewrite Forall_forall in Hne.
    apply (linear_row_wf _ _ _ _ Hself). now apply Hne. }
  unfold linear at 1 2. rewrite Eh0. cbn [bind].
  rewrite (index_select_nth [] nodes_embed _ Hsrc).
  rewrite (index_select_nth [] edges_embed _ Hrel). cbn [bind].
  unfold REGCNLayer.calculate_message. rewrite !map_map.
  rewrite mbin_rows.
  2:{ intros e He. rewrite Forall_forall in Hne, Hee, Hsrc, Hrel.
      destruct (Hsrc (e_src e) (in_map _ _ _ He)).
      destruct (Hrel (e_rel e) (in_map _ _ _ He)).
      rewrite (Hne (nth (Z.to_nat (e_src e)) nodes_embed [])) by (apply nth_In; lia).
      rewrite (Hee (nth (Z.to_nat (e_rel e)) edges_embed [])) by (apply nth_In; lia).
      reflexivity. }
  cbn [bind].
  destruct (mapM_Forall (linear_row (REGCNLayer.fc_aggregate L))
              (fun r => length r = cols)
              (map (fun e => map2 Rplus (nth (Z.to_nat (e_src e)) nodes_embed [])
                                        (nth (Z.to_nat (e_rel e)) edges_embed []))
                   edges)) as [message [Em [Fm Lm]]].
  { intros x Hx. apply in_map_iff in Hx. destruct Hx as [e [<- He]].
    apply (linear_row_wf _ _ _ _ Hagg).
    rewrite Forall_forall in Hne, Hee, Hsrc, Hrel.
    destruct (Hsrc (e_src e) (in_map _ _ _ He)).
    destruct (Hrel (e_rel e) (in_map _ _ _ He)).
    rewrite map2_length.
    - apply Hne. apply nth_In. lia.
    - rewrite (Hne (nth (Z.to_nat (e_src e)) nodes_embed [])) by (apply nth_In; lia).
      rewrite (Hee (nth (Z.to_nat (e_rel e)) edges_embed [])) by (apply nth_In; lia).
      reflexivity. }
  rewrite length_map in Lm.
  unfold linear. rewrite Em. cbn [bind].
  exists message, h0.
  rewrite (REGCN_aggregate_value L message (length nodes_embed) dst);
    [|unfold dst; rewrite length_map; lia | exact Fm | exact Hdst].
  cbn [bind].
  assert (Hu : Forall (in_range (length h0)) (unique dst))
    by (rewrite Lh0; now apply unique_in_range).
  rewrite (index_select_nth [] h0 (unique dst) Hu). cbn [bind].
  rewrite mbin_rows.
  2:{ intros d Hd. rewrite unique_In in Hd.
      rewrite Forall_forall in Fh0, Hdst. destruct (Hdst d Hd).
      rewrite (Fh0 (nth (Z.to_nat d) h0 [])) by (apply nth_In; lia).
      symmetry. apply vmean_length. now apply messages_to_rows. }
  cbn [bind].
  destruct (setitems_distinct (o 0%nat)
              (fun d => map2 Rplus (nth (Z.to_nat d) h0 [])
                          (vmean (REGCNLayer.output_dim L) (messages_to d dst message)))
              (unique dst) h0 (unique_NoDup dst) Hu) as [h [E [Lh [Hin Hout]]]].
  exists h. split; [reflexivity|]. split; [exact Lm|]. split; [reflexivity|].
  split; [exact E|]. split; [lia|]. split.
  - intros d Hd. apply Hin. now apply unique_In.
  - intros k Hk. apply Hout. now apply unique_absent.
Qed.


(** ** RGCNLayer and CompGCNLayer on edges that share a destination *)

Lemma setitems_pair {A : Type} (s : schedule) (t : list A) (i j : Z) (v w : A) :
  setitems s t [i; j] [v; w]
  = if (s 0 <=? s 1)%nat then write_all t [(i, v); (j, w)]
    else write_all t [(j, w); (i, v)].
Proof.
  unfold setitems, scheduled.
  cbn [length Nat.eqb combine seq fold_right insert_write fst].
  destruct (s 0 <=? s 1)%nat; reflexivity.
Qed.

(** C1 at a failing input.  Three nodes with embeddings 1, 3 and 0, unit
    weights, and two edges of relation 0 into node 2, from node 0 and from
    node 1.  The messages of the two edges are 1 and 3: their mean is 2 and
    their sum 4.  With the assignments to [index_matrix] carried out in the
    order of the edges, [RGCNLayer.forward] adds 3 to row 2 when the edge
    from node 1 comes last and 1 when the edge from node 0 comes last;
    [CompGCNLayer.forward] adds 6 and 2.  Whatever the order of the
    assignments, [RGCNLayer.forward] adds 3 or 1 and
    [CompGCNLayer.forward] 6 or 2: neither the mean nor the sum is
    computed.  On the graph of four nodes with the edges (0,0,1), (1,0,2),
    (2,1,3), (0,1,3), with embeddings 1, 2, 3, 4 and the weights 1 and 2 of
    the two relations, the messages into node 3 are 6 and 2, with mean 4,
    and [RGCNLayer.forward] adds 2 (the assignments in the order of the
    edges). *)
Theorem RGCN_CompGCN_shared_destination :
  let h := [[1]; [3]; [0]] in
  let e02 := mkEdge 0 0 2 in
  let e12 := mkEdge 1 0 2 in
  RGCNLayer.bmm_rows 1 [[1]; [3]] [[[1]]; [[1]]] = Ok [[1]; [3]] /\
  vmean 1 (messages_to 2 [2; 2]%Z [[1]; [3]]) = [2] /\
  vsum 1 (messages_to 2 [2; 2]%Z [[1]; [3]]) = [4] /\
  RGCNLayer.forward rgcn_unit h [e02; e12] all_in_order = Ok [[1]; [3]; [0 + 3]] /\
  RGCNLayer.forward rgcn_unit h [e12; e02] all_in_order = Ok [[1]; [3]; [0 + 1]] /\
  CompGCNLayer.forward compgcn_unit h [[0]; [0]; [0]] [e02; e12] "add" all_in_order
  = Ok ([[1]; [3]; [0 + 6]], [[0]; [0]; [0]]) /\
  CompGCNLayer.forward compgcn_unit h [[0]; [0]; [0]] [e12; e02] "add" all_in_order
  = Ok ([[1]; [3]; [0 + 2]], [[0]; [0]; [0]]) /\
  RGCNLayer.bmm_rows 1 [[1]; [2]; [3]; [1]] [[[1]]; [[1]]; [[2]]; [[2]]]
  = Ok [[1]; [2]; [6]; [2]] /\
  vmean 1 (messages_to 3 [1; 2; 3; 3]%Z [[1]; [2]; [6]; [2]]) = [4] /\
  RGCNLayer.forward rgcn_two [[1]; [2]; [3]; [4]]
                    [mkEdge 0 0 1; mkEdge 1 0 2; mkEdge 2 1 3; mkEdge 0 1 3]
                    all_in_order
  = Ok [[1]; [2 + 1]; [3 + 2]; [4 + 2]] /\
  (forall o,
      RGCNLayer.forward rgcn_unit h [e02; e12] o = Ok [[1]; [3]; [0 + 3]] \/
      RGCNLayer.forward rgcn_unit h [e02; e12] o = Ok [[1]; [3]; [0 + 1]]) /\
  (forall o,
      CompGCNLayer.forward compgcn_unit h [[0]; [0]; [0]] [e02; e12] "add" o
      = Ok ([[1]; [3]; [0 + 6]], [[0]; [0]; [0]]) \/
      CompGCNLayer.forward compgcn_unit h [[0]; [0]; [0]] [e02; e12] "add" o
      = Ok ([[1]; [3]; [0 + 2]], [[0]; [0]; [0]])).
Proof.
  cbv zeta. do 10 (split; [eval_tensor|]). split.
  - intros o. unfold RGCNLayer.forward.
    change (setitems (o 0%nat) _ _ _)
      with (setitems (o 0%nat) [0; 0; 0]%Z [2; 2]%Z [0; 1]%Z).
    rewrite setitems_pair.
    destruct (o 0%nat 0 <=? o 0%nat 1)%nat; [left | right]; eval_tensor.
  - intros o. unfold CompGCNLayer.forward, CompGCNLayer.edge_block.
    change (setitems (o 0%nat) _ _ _)
      with (setitems (o 0%nat) [0; 0; 0]%Z [2; 2]%Z [0; 1]%Z).
    rewrite setitems_pair.
    destruct (o 0%nat 0 <=? o 0%nat 1)%nat; [left | right]; eval_tensor.
Qed.

(** ** WGCNLayer.forward *)

(** C2 at a failing input, and in general.  [forward] passes four
    positional arguments to [aggregate], which takes three: no call of
    [WGCNLayer.forward] returns, and when the steps before that call succeed
    the exception is the [TypeError] of the call. *)
Theorem WGCN_forward_raises :
  (forall L nodes_embed edges o, exists e,
      WGCNLayer.forward L nodes_embed edges o = Raise e) /\
  (forall L nodes_embed edges o h src rw message,
      linear (WGCNLayer.fc L) nodes_embed = Ok h ->
      index_select nodes_embed (map e_src edges) = Ok src ->
      index_select (WGCNLayer.relation_weight L) (map e_rel edges) = Ok rw ->
      WGCNLayer.calculate_message L src rw = Ok message ->
      WGCNLayer.forward L nodes_embed edges o = Raise TypeError) /\
  (forall o, WGCNLayer.forward wgcn_unit [[1]; [2]] [mkEdge 0 0 1] o = Raise TypeError).
Proof.
  split; [|split].
  - intros L nodes_embed edges o. unfold WGCNLayer.forward.
    destruct (linear _ _); cbn [bind]; [|eauto].
    destruct (index_select nodes_embed _); cbn [bind]; [|eauto].
    destruct (index_select (WGCNLayer.relation_weight L) _); cbn [bind]; [|eauto].
    destruct (WGCNLayer.calculate_message _ _ _);
      cbn [bind WGCNLayer.aggregate_call]; eauto.
  - intros L nodes_embed edges o h src rw message Hh Hs Hr Hm.
    unfold WGCNLayer.forward. rewrite Hh. cbn [bind]. rewrite Hs. cbn [bind].
    rewrite Hr. cbn [bind]. rewrite Hm. reflexivity.
  - intros o. vm_compute. reflexivity.
Qed.

(** ** CompGCNLayer.composition *)

(** C5, as the code has it.  For vectors [a] and [b] of one length,
    [composition] with mode 'add' returns the elementwise sum and with mode
    'mult' the elementwise product. *)
Theorem composition_add_mult (a b : vec) :
  length a = length b ->
  CompGCNLayer.composition (Vec a) (Vec b) "add" = Ok (Some (Vec (map2 Rplus a b))) /\
  CompGCNLayer.composition (Vec a) (Vec b) "mult" = Ok (Some (Vec (map2 Rmult a b))).
Proof.
  intros H. unfold CompGCNLayer.composition. cbn [String.eqb Ascii.eqb Bool.eqb].
  unfold tbin, vbin. apply Nat.eqb_eq in H. rewrite H. split; reflexivity.
Qed.

Lemma composition_add_mult_witness :
  CompGCNLayer.composition (Vec [1; 2]) (Vec [3; 4]) "add"
  = Ok (Some (Vec (map2 Rplus [1; 2] [3; 4]))) /\
  CompGCNLayer.composition (Vec [1; 2]) (Vec [3; 4]) "mult"
  = Ok (Some (Vec (map2 Rmult [1; 2] [3; 4]))).
Proof.
  apply (composition_add_mult [1; 2] [3; 4]). reflexivity.
Defined.

(** C5 as stated fails: the mode 'multiply' is none of the three names that
    [composition] compares with, and the result is [None]. *)
Lemma composition_multiply_is_none :
  CompGCNLayer.composition (Vec [1; 2]) (Vec [3; 4]) "multiply" = Ok None /\
  CompGCNLayer.composition (Vec [1; 2]) (Vec [3; 4]) "multiply"
  <> Ok (Some (Vec (map2 Rmult [1; 2] [3; 4]))).
Proof.
  split; [reflexivity | discriminate].
Qed.

(** ** Names that a layer does not know *)

Lemma eqb_other (s t : string) : s <> t -> String.eqb s t = false.
Proof. intros H. now apply String.eqb_neq. Qed.

(** C6, as the code has it.  For a mode other than 'add', 'sub' and 'mult',
    [composition] returns [None] and raises nothing, and
    [CompGCNLayer.forward] stops at the linear map that receives [None]
    (unless the self-loop relation is missing); for an activation name other
    than 'sigmoid' and 'tanh' the constructor of [WGCNLayer] returns a layer
    with ReLU. *)
Theorem unknown_names_silent (mode active : string) :
  mode <> "add"%string -> mode <> "sub"%string -> mode <> "mult"%string ->
  active <> "sigmoid"%string -> active <> "tanh"%string ->
  (forall a b, CompGCNLayer.composition a b mode = Ok None) /\
  (forall L node_embed rela_embed edges o,
      CompGCNLayer.forward L node_embed rela_embed edges mode o
      = match getitem rela_embed (CompGCNLayer.num_rela L * 2)%Z with
        | Ok _ => Raise TypeError
        | Raise e => Raise e
        end) /\
  (forall num_relation input_dim output_dim bias rw w b,
      WGCNLayer.init num_relation input_dim output_dim active bias rw w b
      = Ok (WGCNLayer.mk num_relation input_dim output_dim rw
                         (mkLinear input_dim w (if bias then Some b else None))
                         ReLU)).
Proof.
  intros Ha Hs Hm Hsig Htanh.
  assert (Hc : forall a b, CompGCNLayer.composition a b mode = Ok None).
  { intros a b. unfold CompGCNLayer.composition.
    now rewrite !eqb_other by assumption. }
  split; [exact Hc|split].
  - intros L node_embed rela_embed edges o. unfold CompGCNLayer.forward.
    destruct (getitem _ _); cbn [bind]; [|reflexivity].
    rewrite Hc. reflexivity.
  - intros. unfold WGCNLayer.init. now rewrite !eqb_other by assumption.
Qed.

Lemma unknown_names_silent_witness :
  (forall a b, CompGCNLayer.composition a b "concat" = Ok None) /\
  (forall L node_embed rela_embed edges o,
      CompGCNLayer.forward L node_embed rela_embed edges "concat" o
      = match getitem rela_embed (CompGCNLayer.num_rela L * 2)%Z with
        | Ok _ => Raise TypeError
        | Raise e => Raise e
        end) /\
  (forall num_relation input_dim output_dim bias rw w b,
      WGCNLayer.init num_relation input_dim output_dim "gelu" bias rw w b
      = Ok (WGCNLayer.mk num_relation input_dim output_dim rw
                         (mkLinear input_dim w (if bias then Some b else None))
                         ReLU)).
Proof.
  apply (unknown_names_silent "concat" "gelu"); discriminate.
Defined.

(** C6 as stated fails: an unknown mode gives [None] and an unknown
    activation name gives a layer with the default, and neither is an
    exception. *)
Lemma unknown_names_raise_nothing :
  CompGCNLayer.composition (Vec [1]) (Vec [2]) "concat" = Ok None /\
  WGCNLayer.init 1 1 1 "gelu" false [[1]] [[1]] [] = Ok wgcn_unit /\
  ~ (exists e, CompGCNLayer.composition (Vec [1]) (Vec [2]) "concat" = Raise e) /\
  ~ (exists e, WGCNLayer.init 1 1 1 "gelu" false [[1]] [[1]] [] = Raise e).
Proof.
  split; [reflexivity|]. split; [reflexivity|].
  split; intros [e H]; discriminate H.
Qed.

(** C10.  With an activation name other than 'rrelu', 'sigmoid' and 'tanh'
    the constructor of [REGCNLayer] returns a layer and no error, the layer
    has no [active] attribute, and every call of [forward] on it ends in an
    exception: the [AttributeError] of the missing attribute, when nothing
    before it has raised. *)
Theorem REGCN_unknown_activation (input_dim output_dim : nat) (bias : bool)
    (active : string) (w_self : matrix) (b_self : vec) (w_aggregate : matrix)
    (b_aggregate : vec) :
  active <> "rrelu"%string -> active <> "sigmoid"%string -> active <> "tanh"%string ->
  exists L,
    REGCNLayer.init input_dim output_dim bias active w_self b_self w_aggregate
                    b_aggregate
    = Ok L /\
    REGCNLayer.active L = None /\
    (forall nodes_embed edges_embed edges o g,
        exists e, fst (REGCNLayer.forward L nodes_embed edges_embed edges o g) = Raise e) /\
    (forall nodes_embed edges_embed edges o g h,
        REGCNLayer.pre_activation L nodes_embed edges_embed edges o = Ok h ->
        REGCNLayer.forward L nodes_embed edges_embed edges o g
        = (Raise AttributeError, g)).
Proof.
  intros Hr Hs Ht. unfold REGCNLayer.init.
  rewrite !eqb_other by assumption.
  eexists. split; [reflexivity|]. split; [reflexivity|]. split.
  - intros ne ee edges o g. unfold REGCNLayer.forward.
    destruct (REGCNLayer.pre_activation _ _ _ _ _); cbn; eauto.
  - intros ne ee edges o g h Hh. unfold REGCNLayer.forward. now rewrite Hh.
Qed.

Lemma REGCN_unknown_activation_witness :
  exists L,
    REGCNLayer.init 1 1 false "relu" [[1]] [] [[1]] [] = Ok L /\
    REGCNLayer.active L = None /\
    (forall nodes_embed edges_embed edges o g,
        exists e, fst (REGCNLayer.forward L nodes_embed edges_embed edges o g) = Raise e) /\
    (forall nodes_embed edges_embed edges o g h,
        REGCNLayer.pre_activation L nodes_embed edges_embed edges o = Ok h ->
        REGCNLayer.forward L nodes_embed edges_embed edges o g
        = (Raise AttributeError, g)).
Proof.
  apply (REGCN_unknown_activation 1 1 false "relu" [[1]] [] [[1]] []); discriminate.
Defined.

(** ** The two edge subsets of CompGCNLayer.forward *)

Lemma filter_complement_perm {A : Type} (f g : A -> bool) (l : list A) :
  (forall x, g x = negb (f x)) -> Permutation (filter f l ++ filter g l) l.
Proof.
  intros H. induction l as [|a l IH]; simpl; [constructor|].
  rewrite (H a). destruct (f a); simpl.
  - now constructor.
  - apply Permutation_sym. apply Permutation_cons_app. now apply Permutation_sym.
Qed.

Lemma edge_block_agree (W W' : Linear) (node_embed rela_embed : matrix)
    (sel : list edge) (index_matrix : list Z) (h_v : matrix)
    (s_index s_rows : schedule) :
  (forall x r c,
      index_select node_embed (map e_src sel) = Ok x ->
      index_select rela_embed (map e_rel sel) = Ok r ->
      CompGCNLayer.composition (Mat x) (Mat r) "add" = Ok c ->
      linear_call W' c = linear_call W c) ->
  CompGCNLayer.edge_block W' node_embed rela_embed sel index_matrix h_v s_index s_rows
  = CompGCNLayer.edge_block W node_embed rela_embed sel index_matrix h_v s_index s_rows.
Proof.
  intros H. unfold CompGCNLayer.edge_block.
  destruct (setitems _ _ _ _); cbn [bind]; [|reflexivity].
  destruct (index_select node_embed _) as [x|]; cbn [bind]; [|reflexivity].
  destruct (index_select rela_embed _) as [r|]; cbn [bind]; [|reflexivity].
  destruct (CompGCNLayer.composition _ _ _) as [c|] eqn:Ec; cbn [bind];
    [|reflexivity].
  now rewrite (H x r c eq_refl eq_refl Ec).
Qed.

(** C4.  The first block of [CompGCNLayer.forward], the one through [W_o],
    takes exactly the edges with [relation_id < num_rela] and the second,
    through [W_s], exactly those with [relation_id >= num_rela]; no edge is
    in both and together they are the edge list, every edge once.  The
    result depends on [W_o] through the composed embeddings of the first
    subset only, and on [W_s] through those of the second subset only:
    another transform of the same shape that agrees there gives the same
    result.  And the
    transforms are applied: for well-shaped embeddings and in-range IDs the
    messages are [W_o(node[s] + relation[r])], one per edge of the first
    subset, and [W_s(node[s] + relation[r])], one per edge of the second;
    the row of a destination of the first subset receives a message of the
    first kind, that of an edge of the first subset into it (once per such
    edge), and then the row of a destination of the second subset a message
    of the second kind, in the same way; the other rows are left. *)
Theorem CompGCN_edge_partition (L : CompGCNLayer.t) (edges : list edge) :
  (forall e, In e (CompGCNLayer.original_edges L edges)
             <-> In e edges /\ (e_rel e < CompGCNLayer.num_rela L)%Z) /\
  (forall e, In e (CompGCNLayer.reversed_edges L edges)
             <-> In e edges /\ (e_rel e >= CompGCNLayer.num_rela L)%Z) /\
  (forall e, ~ (In e (CompGCNLayer.original_edges L edges) /\
                In e (CompGCNLayer.reversed_edges L edges))) /\
  Permutation (CompGCNLayer.original_edges L edges
               ++ CompGCNLayer.reversed_edges L edges) edges /\
  (forall W node_embed rela_embed mode o,
      in_features W = in_features (CompGCNLayer.W_o L) ->
      length (weight W) = length (weight (CompGCNLayer.W_o L)) ->
      (forall x r c,
          index_select node_embed
            (map e_src (CompGCNLayer.original_edges L edges)) = Ok x ->
          index_select rela_embed
            (map e_rel (CompGCNLayer.original_edges L edges)) = Ok r ->
          CompGCNLayer.composition (Mat x) (Mat r) "add" = Ok c ->
          linear_call W c = linear_call (CompGCNLayer.W_o L) c) ->
      CompGCNLayer.forward (with_W_o L W) node_embed rela_embed edges mode o
      = CompGCNLayer.forward L node_embed rela_embed edges mode o) /\
  (forall W node_embed rela_embed mode o,
      in_features W = in_features (CompGCNLayer.W_s L) ->
      length (weight W) = length (weight (CompGCNLayer.W_s L)) ->
      (forall x r c,
          index_select node_embed
            (map e_src (CompGCNLayer.reversed_edges L edges)) = Ok x ->
          index_select rela_embed
            (map e_rel (CompGCNLayer.reversed_edges L edges)) = Ok r ->
          CompGCNLayer.composition (Mat x) (Mat r) "add" = Ok c ->
          linear_call W c = linear_call (CompGCNLayer.W_s L) c) ->
      CompGCNLayer.forward (with_W_s L W) node_embed rela_embed edges mode o
      = CompGCNLayer.forward L node_embed rela_embed edges mode o) /\
  (forall i node_embed rela_embed mode o,
      let fwd := CompGCNLayer.original_edges L edges in
      let rev := CompGCNLayer.reversed_edges L edges in
      let msg_o := map (CompGCN_message (CompGCNLayer.W_o L) node_embed rela_embed) fwd in
      let msg_s := map (CompGCN_message (CompGCNLayer.W_s L) node_embed rela_embed) rev in
      CompGCN_wf L i ->
      known_mode mode ->
      Forall (fun x => length x = i) node_embed ->
      Forall (fun x => length x = i) rela_embed ->
      in_range (length rela_embed) (CompGCNLayer.num_rela L * 2)%Z ->
      Forall (in_range (length node_embed)) (map e_src edges) ->
      Forall (in_range (length rela_embed)) (map e_rel edges) ->
      Forall (in_range (length node_embed)) (map e_dst edges) ->
      exists win_o win_s h0 h1 h_v h_r,
        (r_self <- getitem rela_embed (CompGCNLayer.num_rela L * 2)%Z ;;
         c <- CompGCNLayer.composition (Mat node_embed) (Vec r_self) mode ;;
         wc <- linear_call (CompGCNLayer.W_i L) c ;;
         rows_of wc) = Ok h0 /\
        CompGCNLayer.forward L node_embed rela_embed edges mode o = Ok (h_v, h_r) /\
        (forall d, In d (map e_dst fwd) ->
           nth_error (map e_dst fwd) (win_o d) = Some d /\
           nth_error h1 (Z.to_nat d)
           = Some (map2 Rplus (nth (Z.to_nat d) h0 [])
                     (map (fun x => INR (count (map e_dst fwd) d) * x)
                          (nth (win_o d) msg_o [])))) /\
        (forall k, ~ In (Z.of_nat k) (map e_dst fwd) ->
           nth_error h1 k = nth_error h0 k) /\
        (forall d, In d (map e_dst rev) ->
           nth_error (map e_dst rev) (win_s d) = Some d /\
           nth_error h_v (Z.to_nat d)
           = Some (map2 Rplus (nth (Z.to_nat d) h1 [])
                     (map (fun x => INR (count (map e_dst rev) d) * x)
                          (nth (win_s d) msg_s [])))) /\
        (forall k, ~ In (Z.of_nat k) (map e_dst rev) ->
           nth_error h_v k = nth_error h1 k)).
Proof.
  assert (Ho : forall e, In e (CompGCNLayer.original_edges L edges)
                         <-> In e edges /\ (e_rel e < CompGCNLayer.num_rela L)%Z).
  { intros e. unfold CompGCNLayer.original_edges.
    rewrite filter_In, Z.ltb_lt. reflexivity. }
  assert (Hr : forall e, In e (CompGCNLayer.reversed_edges L edges)
                         <-> In e edges /\ (e_rel e >= CompGCNLayer.num_rela L)%Z).
  { intros e. unfold CompGCNLayer.reversed_edges.
    rewrite filter_In, Z.geb_le. intuition lia. }
  split; [exact Ho|]. split; [exact Hr|]. split; [|split; [|split; [|split]]].
  - intros e [H1 H2]. apply Ho in H1. apply Hr in H2. lia.
  - apply filter_complement_perm. intros e.
    rewrite Z.geb_leb, Z.leb_antisym. reflexivity.
  - intros W ne re mode o _ _ Hagree. unfold CompGCNLayer.forward.
    change (CompGCNLayer.original_edges (with_W_o L W) edges)
      with (CompGCNLayer.original_edges L edges).
    change (CompGCNLayer.reversed_edges (with_W_o L W) edges)
      with (CompGCNLayer.reversed_edges L edges).
    unfold with_W_o. cbn [CompGCNLayer.W_o CompGCNLayer.W_i CompGCNLayer.W_s
                          CompGCNLayer.W_r CompGCNLayer.num_rela].
    destruct (getitem _ _); cbn [bind]; [|reflexivity].
    destruct (CompGCNLayer.composition _ _ _); cbn [bind]; [|reflexivity].
    destruct (linear_call _ _); cbn [bind]; [|reflexivity].
    destruct (rows_of _); cbn [bind]; [|reflexivity].
    now rewrite (edge_block_agree (CompGCNLayer.W_o L) W).
  - intros W ne re mode o _ _ Hagree. unfold CompGCNLayer.forward.
    change (CompGCNLayer.original_edges (with_W_s L W) edges)
      with (CompGCNLayer.original_edges L edges).
    change (CompGCNLayer.reversed_edges (with_W_s L W) edges)
      with (CompGCNLayer.reversed_edges L edges).
    unfold with_W_s. cbn [CompGCNLayer.W_o CompGCNLayer.W_i CompGCNLayer.W_s
                          CompGCNLayer.W_r CompGCNLayer.num_rela].
    destruct (getitem _ _); cbn [bind]; [|reflexivity].
    destruct (CompGCNLayer.composition _ _ _); cbn [bind]; [|reflexivity].
    destruct (linear_call _ _); cbn [bind]; [|reflexivity].
    destruct (rows_of _); cbn [bind]; [|reflexivity].
    destruct (CompGCNLayer.edge_block _ _ _ _ _ _ _ _) as [[h1 im1]|]; cbn [bind];
      [|reflexivity].
    now rewrite (edge_block_agree (CompGCNLayer.W_s L) W).
  - intros i ne re mode o fwd rev msg_o msg_s Hwf Hmode Hne Hre Hself Hsrc Hrel Hdst.
    destruct (CompGCN_forward_blocks L i ne re edges o Hwf Hne Hre Hself Hsrc Hrel Hdst)
      as [win_o [win_s [h_r [Hwo [Hws [_ [_ [_ [_ [_ Hm]]]]]]]]]].
    destruct (Hm mode Hmode) as [h0 [h1 [h_v [E0 [E [_ [_ [In1 [Out1 [In2 Out2]]]]]]]]]].
    exists win_o, win_s, h0, h1, h_v, h_r.
    split; [exact E0|]. split; [exact E|].
    split; [intros d Hd; split; [now apply Hwo | now apply In1]|].
    split; [exact Out1|].
    split; [intros d Hd; split; [now apply Hws | now apply In2]|].
    exact Out2.
Qed.

(** A forward pass over two edges of relation 0 into node 2 and one edge
    of relation 1, the inverse relation, into node 0. *)
Lemma CompGCN_edge_partition_witness :
  exists win_o win_s h0 h1 h_v h_r,
    (r_self <- getitem [[1; 0]; [0; 1]; [1; 1]] 2%Z ;;
     c <- CompGCNLayer.composition (Mat [[1; 2]; [3; 4]; [5; 6]]) (Vec r_self) "add" ;;
     wc <- linear_call (CompGCNLayer.W_i compgcn_pair) c ;;
     rows_of wc) = Ok h0 /\
    CompGCNLayer.forward compgcn_pair [[1; 2]; [3; 4]; [5; 6]] [[1; 0]; [0; 1]; [1; 1]]
      [mkEdge 0 0 2; mkEdge 2 1 0; mkEdge 1 0 2] "add" all_in_order
    = Ok (h_v, h_r) /\
    (forall d, In d [2; 2]%Z ->
       nth_error [2; 2]%Z (win_o d) = Some d /\
       nth_error h1 (Z.to_nat d)
       = Some (map2 Rplus (nth (Z.to_nat d) h0 [])
                 (map (fun x => INR (count [2; 2]%Z d) * x)
                      (nth (win_o d)
                           (map (CompGCN_message (CompGCNLayer.W_o compgcn_pair)
                                   [[1; 2]; [3; 4]; [5; 6]] [[1; 0]; [0; 1]; [1; 1]])
                                [mkEdge 0 0 2; mkEdge 1 0 2]) [])))) /\
    (forall k, ~ In (Z.of_nat k) [2; 2]%Z -> nth_error h1 k = nth_error h0 k) /\
    (forall d, In d [0]%Z ->
       nth_error [0]%Z (win_s d) = Some d /\
       nth_error h_v (Z.to_nat d)
       = Some (map2 Rplus (nth (Z.to_nat d) h1 [])
                 (map (fun x => INR (count [0]%Z d) * x)
                      (nth (win_s d)
                           (map (CompGCN_message (CompGCNLayer.W_s compgcn_pair)
                                   [[1; 2]; [3; 4]; [5; 6]] [[1; 0]; [0; 1]; [1; 1]])
                                [mkEdge 2 1 0]) [])))) /\
    (forall k, ~ In (Z.of_nat k) [0]%Z -> nth_error h_v k = nth_error h1 k).
Proof.
  destruct (CompGCN_edge_partition compgcn_pair
              [mkEdge 0 0 2; mkEdge 2 1 0; mkEdge 1 0 2])
    as (_ & _ & _ & _ & _ & _ & H).
  apply (H 2%nat [[1; 2]; [3; 4]; [5; 6]] [[1; 0]; [0; 1]; [1; 1]] "add"%string
           all_in_order).
  - repeat split; try reflexivity; intros b Hb; inversion Hb.
  - left; reflexivity.
  - repeat constructor.
  - repeat constructor.
  - unfold in_range; simpl; lia.
  - repeat constructor; unfold in_range; simpl; lia.
  - repeat constructor; unfold in_range; simpl; lia.
  - repeat constructor; unfold in_range; simpl; lia.
Defined.

(** ** Nodes without an incoming edge *)

(** A node without an incoming edge keeps its self-loop row through
    [REGCNLayer.forward], up to the activation. *)
Lemma REGCN_isolated_node (L : REGCNLayer.t) (nodes_embed edges_embed : matrix)
    (edges : list edge) (o : oracle) (h' : matrix) (n : nat) (x : vec) :
  REGCNLayer.pre_activation L nodes_embed edges_embed edges o = Ok h' ->
  Forall (in_range (length nodes_embed)) (map e_dst edges) ->
  ~ In (Z.of_nat n) (map e_dst edges) ->
  nth_error nodes_embed n = Some x ->
  exists y, linear_row (REGCNLayer.fc_self L) x = Ok y /\ nth_error h' n = Some y.
Proof.
  intros H Hr Hn Hx. unfold REGCNLayer.pre_activation in H.
  bind_inv H. bind_inv H. bind_inv H. bind_inv H. bind_inv H.
  destruct v3 as [des_index agg]. bind_inv H. bind_inv H.
  assert (Hu : des_index = unique (map e_dst edges)).
  { unfold REGCNLayer.aggregate in E3.
    bind_inv E3. bind_inv E3. bind_inv E3. bind_inv E3. now inversion E3. }
  subst des_index.
  destruct (mapM_nth _ _ _ n x E Hx) as [y [Hy Hyn]].
  exists y. split; [assumption|].
  rewrite (setitems_frame _ _ _ _ _ n H); auto.
  - rewrite (mapM_length _ _ _ E). now apply unique_in_range.
  - now apply unique_absent.
Qed.

(** The same for [RGCNLayer.forward], which has no activation. *)
Lemma RGCN_isolated_node (L : RGCNLayer.t) (h : matrix) (edges : list edge)
    (o : oracle) (out : matrix) (n : nat) (x : vec) :
  RGCNLayer.forward L h edges o = Ok out ->
  Forall (in_range (length h)) (map e_dst edges) ->
  ~ In (Z.of_nat n) (map e_dst edges) ->
  nth_error h n = Some x ->
  exists y, RGCNLayer.vecmat (RGCNLayer.output_dim L) x (RGCNLayer.self_loop_weigt L)
            = Ok y /\ nth_error out n = Some y.
Proof.
  intros H Hr Hn Hx. unfold RGCNLayer.forward in H.
  bind_inv H. bind_inv H. bind_inv H. bind_inv H. bind_inv H. bind_inv H.
  bind_inv H. destruct v5 as [dst_index agg]. bind_inv H. bind_inv H. bind_inv H.
  assert (Hu : dst_index = unique (map e_dst edges)).
  { unfold RGCNLayer.aggregate in E5. bind_inv E5. bind_inv E5. now inversion E5. }
  subst dst_index.
  destruct (mapM_nth _ _ _ n x E6 Hx) as [y [Hy Hyn]].
  exists y. split; [assumption|].
  rewrite (setitems_frame _ _ _ _ _ n H); auto.
  - rewrite (mapM_length _ _ _ E6). now apply unique_in_range.
  - now apply unique_absent.
Qed.

Lemma edge_block_frame (W : Linear) (node_embed rela_embed : matrix)
    (sel : list edge) (index_matrix index_matrix' : list Z) (h_v h_v' : matrix)
    (s_index s_rows : schedule) (n : nat) :
  CompGCNLayer.edge_block W node_embed rela_embed sel index_matrix h_v s_index s_rows
  = Ok (h_v', index_matrix') ->
  Forall (in_range (length h_v)) (map e_dst sel) ->
  ~ In (Z.of_nat n) (map e_dst sel) ->
  nth_error h_v' n = nth_error h_v n /\ length h_v' = length h_v.
Proof.
  intros H Hr Hn. unfold CompGCNLayer.edge_block in H.
  bind_inv H. bind_inv H. bind_inv H. bind_inv H. bind_inv H. bind_inv H.
  bind_inv H. bind_inv H. bind_inv H. destruct v7 as [des_index agg].
  bind_inv H. bind_inv H. bind_inv H. inversion H; subst.
  assert (Hu : des_index = unique (map e_dst sel)).
  { unfold CompGCNLayer.aggregate in E7. bind_inv E7. bind_inv E7.
    now inversion E7. }
  subst des_index. split.
  - apply (setitems_frame _ _ _ _ _ n E10).
    + now apply unique_in_range.
    + now apply unique_absent.
  - apply (setitems_length _ _ _ _ _ E10).
Qed.

Lemma tbin_row (op : R -> R -> R) (m : matrix) (r : vec) (c : tensor) (n : nat)
    (x : vec) :
  tbin op (Mat m) (Vec r) = Ok c -> nth_error m n = Some x ->
  exists m' cx, c = Mat m' /\ tbin op (Vec x) (Vec r) = Ok (Vec cx) /\
                nth_error m' n = Some cx.
Proof.
  intros H Hx. cbn [tbin] in *. bind_inv H. inversion H; subst.
  destruct (mapM_nth _ _ _ n x E Hx) as [cx [Hc Hn]].
  exists v, cx. rewrite Hc. auto.
Qed.

Lemma composition_row (mode : string) (m : matrix) (r : vec) (c : tensor)
    (n : nat) (x : vec) :
  CompGCNLayer.composition (Mat m) (Vec r) mode = Ok (Some c) ->
  nth_error m n = Some x ->
  exists m' cx, c = Mat m' /\
                CompGCNLayer.composition (Vec x) (Vec r) mode = Ok (Some (Vec cx)) /\
                nth_error m' n = Some cx.
Proof.
  unfold CompGCNLayer.composition. intros H Hx.
  destruct (String.eqb mode "add");
    [|destruct (String.eqb mode "sub"); [|destruct (String.eqb mode "mult")]];
    try discriminate;
    bind_inv H; inversion H; subst;
    destruct (tbin_row _ _ _ _ n x E Hx) as [m' [cx [-> [Hc Hn]]]];
    exists m', cx; rewrite Hc; auto.
Qed.

(** The same for [CompGCNLayer.forward]: the row of a node without an
    incoming edge is [W_i] of the composition of its embedding with the
    self-loop relation. *)
Lemma CompGCN_isolated_node (L : CompGCNLayer.t) (node_embed rela_embed : matrix)
    (edges : list edge) (mode : string) (o : oracle) (h_v h_r : matrix) (n : nat)
    (x : vec) :
  CompGCNLayer.forward L node_embed rela_embed edges mode o = Ok (h_v, h_r) ->
  Forall (in_range (length node_embed)) (map e_dst edges) ->
  ~ In (Z.of_nat n) (map e_dst edges) ->
  nth_error node_embed n = Some x ->
  exists r_self c y,
    getitem rela_embed (CompGCNLayer.num_rela L * 2)%Z = Ok r_self /\
    CompGCNLayer.composition (Vec x) (Vec r_self) mode = Ok (Some (Vec c)) /\
    linear_row (CompGCNLayer.W_i L) c = Ok y /\
    nth_error h_v n = Some y.
Proof.
  intros H Hr Hn Hx. unfold CompGCNLayer.forward in H.
  bind_inv H. bind_inv H. bind_inv H. bind_inv H. bind_inv H.
  destruct v3 as [h1 im1]. bind_inv H. destruct v3 as [h2 im2].
  bind_inv H. inversion H; subst.
  destruct v0 as [c0|]; [|discriminate].
  destruct (composition_row _ _ _ _ n x E0 Hx) as [m' [cx [-> [Hc Hcn]]]].
  cbn [linear_call] in E1. bind_inv E1. inversion E1; subst.
  cbn [rows_of] in E2. inversion E2; subst.
  destruct (mapM_nth _ _ _ n cx E6 Hcn) as [y [Hy Hyn]].
  assert (Hlen : length v2 = length node_embed).
  { rewrite (mapM_length _ _ _ E6).
    unfold CompGCNLayer.composition in E0.
    destruct (String.eqb mode "add");
      [|destruct (String.eqb mode "sub"); [|destruct (String.eqb mode "mult")]];
      try discriminate;
      bind_inv E0; inversion E0; subst; cbn [tbin] in E7; bind_inv E7;
      inversion E7; subst; now rewrite (mapM_length _ _ _ E8). }
  assert (Hsub : forall f, Forall (in_range (length node_embed))
                                  (map e_dst (filter f edges))).
  { intros f. rewrite Forall_forall in *. intros d Hd. apply Hr.
    apply in_map_iff in Hd. destruct Hd as [e [<- He]].
    apply filter_In in He. apply in_map. tauto. }
  assert (Habs : forall f, ~ In (Z.of_nat n) (map e_dst (filter f edges))).
  { intros f Hd. apply Hn. apply in_map_iff in Hd. destruct Hd as [e [<- He]].
    apply filter_In in He. apply in_map_iff. exists e. tauto. }
  destruct (edge_block_frame _ _ _ _ _ _ _ _ _ _ n E3) as [F1 L1].
  { rewrite Hlen. apply Hsub. }
  { apply Habs. }
  destruct (edge_block_frame _ _ _ _ _ _ _ _ _ _ n E4) as [F2 L2].
  { rewrite L1, Hlen. apply Hsub. }
  { apply Habs. }
  exists v, cx, y. rewrite F2, F1. auto.
Qed.

(** C7 at a failing input.  Node 2 has no incoming edge; the three layers
    above keep its self-loop row, but [WGCNLayer.forward] raises the
    [TypeError] of its call of [aggregate] and returns no row for any
    node, whatever the schedule. *)
Theorem WGCN_isolated_node_no_output :
  let nodes_embed := [[1]; [2]; [3]] in
  let edges := [mkEdge 0 0 1] in
  ~ In 2%Z (map e_dst edges) /\
  linear_row (WGCNLayer.fc wgcn_unit) [3] = Ok [dot [1] [3]] /\
  (forall o, WGCNLayer.forward wgcn_unit nodes_embed edges o = Raise TypeError) /\
  (forall o out, WGCNLayer.forward wgcn_unit nodes_embed edges o <> Ok out).
Proof.
  cbv zeta. split; [|split; [|split]].
  - simpl. intros [H|[]]. discriminate H.
  - reflexivity.
  - intros o. vm_compute. reflexivity.
  - intros o out H. apply (f_equal (fun r => match r with Ok _ => true | Raise _ => false end)) in H.
    vm_compute in H. discriminate H.
Qed.

(** ** Repeated calls *)












(** ** The normalisation of GCNLayer *)

Section GCN_results.

Import GCNLayer.

Lemma tadd_finite (a b : tval) : is_finite a -> is_finite b -> is_finite (tadd a b).
Proof. destruct a, b; simpl; tauto. Qed.

Lemma tmul_finite (a b : tval) : is_finite a -> is_finite b -> is_finite (tmul a b).
Proof. destruct a, b; simpl; tauto. Qed.

Lemma replaced_pow (c : nat) :
  (if isinf (pow_neg_half (Finite (INR c))) then Finite 0
   else pow_neg_half (Finite (INR c))) = inv_sqrt_count c.
Proof.
  destruct c as [|c].
  - simpl. destruct (Req_dec_T 0 0) as [_|H]; [reflexivity | exfalso; lra].
  - unfold pow_neg_half, inv_sqrt_count.
    pose proof (lt_0_INR (S c) ltac:(lia)) as Hpos.
    destruct (Req_dec_T (INR (S c)) 0) as [H|_]; [exfalso; lra|].
    destruct (Rlt_dec 0 (INR (S c))) as [_|H]; [reflexivity | exfalso; lra].
Qed.

Lemma inv_sqrt_count_finite (c : nat) : is_finite (inv_sqrt_count c).
Proof. destruct c; exact I. Qed.

(** Whatever the degrees, zero included, [deg_inv_sqrt] has finite entries
    only: 0 at a node of degree 0 and [1 / sqrt degree] elsewhere. *)
Lemma deg_inv_sqrt_value (edges : edge_index) (n : nat) :
  Forall (in_range n) (fst edges) ->
  deg_inv_sqrt edges n
  = Ok (map (fun i => inv_sqrt_count (count (fst edges) (Z.of_nat i))) (seq 0 n)).
Proof.
  intros H. unfold deg_inv_sqrt, degree.
  rewrite in_range_forallb by assumption. cbn [bind]. f_equal.
  rewrite !map_map. apply map_ext. intros i. apply replaced_pow.
Qed.

Lemma count_self_loop (index : list Z) (n i : nat) :
  (i < n)%nat -> (1 <= count (index ++ arange n) (Z.of_nat i))%nat.
Proof.
  intros H. unfold count. rewrite count_occ_app.
  assert (count_occ Z.eq_dec (arange n) (Z.of_nat i) > 0)%nat; [|lia].
  apply count_occ_In. unfold arange. apply in_map. apply in_seq. lia.
Qed.

Lemma aggregate_finite (cols : nat) (index : list Z) :
  forall (msgs out : tmatrix),
    Forall (in_range (length out)) index ->
    length index = length msgs ->
    Forall (fun r => length r = cols /\ Forall is_finite r) msgs ->
    Forall (fun r => length r = cols /\ Forall is_finite r) out ->
    exists out',
      aggregate out index msgs = Ok out' /\ length out' = length out /\
      Forall (fun r => length r = cols /\ Forall is_finite r) out'.
Proof.
  induction index as [|i index IH]; intros msgs out Hr Hlen Hm Ho.
  - destruct msgs; [|discriminate]. exists out. auto.
  - destruct msgs as [|m msgs]; [discriminate|].
    inversion Hr as [|? ? Hi Hr']; subst.
    inversion Hm as [|? ? [Hml Hmf] Hm']; subst.
    cbn [aggregate]. destruct Hi as [Hi0 Hi1].
    replace ((0 <=? i)%Z && (i <? Z.of_nat (length out))%Z) with true
      by (symmetry; apply andb_true_intro; split;
          [apply Z.leb_le | apply Z.ltb_lt]; lia).
    destruct (nth_error out (Z.to_nat i)) as [row|] eqn:Erow.
    2:{ apply nth_error_None in Erow. lia. }
    assert (Hrow : length row = length m /\ Forall is_finite row).
    { rewrite Forall_forall in Ho.
      destruct (Ho row (nth_error_In _ _ Erow)). split; [congruence|assumption]. }
    destruct Hrow as [Hrl Hrf].
    destruct (IH msgs (set_nth (Z.to_nat i) (map2 tadd row m) out)) as [out' [E [L' F']]].
    + now rewrite set_nth_length.
    + simpl in Hlen. lia.
    + assumption.
    + apply Forall_forall. intros r Hin.
      apply In_nth_error in Hin. destruct Hin as [k Hk].
      destruct (Nat.eq_dec (Z.to_nat i) k) as [<-|Hne].
      * rewrite nth_error_set_nth_eq in Hk by lia. inversion Hk; subst.
        split; [rewrite map2_length; congruence|].
        apply (map2_Forall tadd is_finite is_finite); auto using tadd_finite.
      * rewrite nth_error_set_nth_neq in Hk by assumption.
        rewrite Forall_forall in Ho. apply Ho. eapply nth_error_In; eassumption.
    + exists out'. rewrite set_nth_length in L'. auto.
Qed.

Lemma fold_tadd_finite (l : list tval) (a : tval) :
  is_finite a -> Forall is_finite l -> is_finite (fold_left tadd l a).
Proof.
  revert a. induction l as [|x l IH]; intros a Ha Hl; simpl; auto.
  inversion Hl; subst. apply IH; auto using tadd_finite.
Qed.

Lemma update_row_finite (L : Linear) (x : list tval) :
  length x = in_features L -> Forall is_finite x ->
  exists y, update_row L x = Ok y /\ Forall is_finite y.
Proof.
  intros Hl Hf. unfold update_row. rewrite Hl, Nat.eqb_refl.
  assert (Hy : Forall is_finite (map (fun w => tdot w x) (weight L))).
  { apply Forall_forall. intros y Hy. apply in_map_iff in Hy.
    destruct Hy as [w [<- _]]. unfold tdot.
    apply fold_tadd_finite; [exact I|].
    apply (map2_Forall _ is_finite (fun _ => True)); auto.
    - intros a b Ha _. now apply tmul_finite.
    - apply Forall_forall. auto. }
  destruct (lin_bias L) as [b|].
  - eexists. split; [reflexivity|].
    apply (map2_Forall _ is_finite (fun _ => True)); auto.
    + intros a c Ha _. now apply tadd_finite.
    + apply Forall_forall. auto.
  - eexists. split; [reflexivity|assumption].
Qed.

Lemma message_rows (cols : nat) (nm : list tval) (x_j : tmatrix) :
  Forall is_finite nm ->
  Forall (fun r => length r = cols /\ Forall is_finite r) x_j ->
  Forall (fun r => length r = cols /\ Forall is_finite r) (message x_j nm).
Proof.
  intros Hn Hx. unfold message.
  apply (map2_Forall _ is_finite (fun r => length r = cols /\ Forall is_finite r));
    auto.
  intros a row Ha [Hl Hf]. split; [now rewrite length_map|].
  apply Forall_forall. intros y Hy. apply in_map_iff in Hy.
  destruct Hy as [z [<- Hz]]. apply tmul_finite; auto.
  rewrite Forall_forall in Hf. now apply Hf.
Qed.

(** C8.  For node embeddings with finite entries and an edge index with
    in-range IDs: [deg_inv_sqrt] is 0 at a node of degree 0 and
    [1 / sqrt degree] at the others, so it has no infinite entry; after the
    self-loops are added every degree is at least 1; every normalisation
    coefficient [deg_inv_sqrt[source] * deg_inv_sqrt[destination]] is
    finite; and [forward] returns a matrix with a row per node and finite
    entries only. *)
Theorem GCN_normalisation_finite (L : GCNLayer.t) (node_embed : tmatrix)
    (edges : edge_index) :
  let n := length node_embed in
  let edges' := add_self_loops edges n in
  Forall (in_range n) (fst edges) ->
  Forall (in_range n) (snd edges) ->
  length (fst edges) = length (snd edges) ->
  Forall (fun r => length r = in_features (lin L) /\ Forall is_finite r) node_embed ->
  deg_inv_sqrt edges n
  = Ok (map (fun i => inv_sqrt_count (count (fst edges) (Z.of_nat i))) (seq 0 n)) /\
  (forall i, (i < n)%nat -> (1 <= count (fst edges') (Z.of_nat i))%nat) /\
  (exists dis, deg_inv_sqrt edges' n = Ok dis /\ length dis = n /\
               Forall is_finite dis) /\
  (exists nm, norm edges' n = Ok nm /\ length nm = length (fst edges') /\
              Forall is_finite nm) /\
  (exists out, forward L node_embed edges = Ok out /\ length out = n /\
               Forall (Forall is_finite) out).
Proof.
  intros n edges' H0 H1 Hlen Hx.
  assert (H0' : Forall (in_range n) (fst edges')).
  { unfold edges', add_self_loops. cbn [fst].
    apply Forall_app. split; [assumption | apply arange_in_range]. }
  assert (H1' : Forall (in_range n) (snd edges')).
  { unfold edges', add_self_loops. cbn [snd].
    apply Forall_app. split; [assumption | apply arange_in_range]. }
  assert (Hlen' : length (fst edges') = length (snd edges')).
  { unfold edges', add_self_loops. cbn [fst snd]. rewrite !length_app. lia. }
  set (dis := map (fun i => inv_sqrt_count (count (fst edges') (Z.of_nat i)))
                  (seq 0 n)).
  assert (Hdis : deg_inv_sqrt edges' n = Ok dis)
    by now apply deg_inv_sqrt_value.
  assert (Hdl : length dis = n)
    by (unfold dis; now rewrite length_map, length_seq).
  assert (Hdf : Forall is_finite dis).
  { apply Forall_forall. intros d Hd. unfold dis in Hd. apply in_map_iff in Hd.
    destruct Hd as [i [<- _]]. apply inv_sqrt_count_finite. }
  assert (Hnorm : exists nm, norm edges' n = Ok nm /\
                             length nm = length (fst edges') /\ Forall is_finite nm).
  { unfold norm. rewrite Hdis. cbn [bind].
    destruct (index_select_in_range dis (fst edges')) as [a [-> [Ha La]]];
      [now rewrite Hdl|].
    destruct (index_select_in_range dis (snd edges')) as [b [-> [Hb Lb]]];
      [now rewrite Hdl|].
    cbn [bind]. replace (length a =? length b)%nat with true
      by (symmetry; apply Nat.eqb_eq; lia).
    eexists. split; [reflexivity|]. split.
    - rewrite map2_length; lia.
    - rewrite Forall_forall in Hdf.
      apply (map2_Forall _ is_finite is_finite); auto using tmul_finite.
      + eapply Forall_impl; [|exact Ha]. auto.
      + eapply Forall_impl; [|exact Hb]. auto. }
  split; [now apply deg_inv_sqrt_value|].
  split; [intros i Hi; apply count_self_loop; assumption|].
  split; [exists dis; auto|].
  split; [exact Hnorm|].
  destruct Hnorm as [nm [En [Ln Fn]]].
  unfold forward. fold n. fold edges'. rewrite En. cbn [bind].
  unfold propagate.
  destruct (index_select_in_range node_embed (fst edges') H0') as [x_j [-> [Hxj Lxj]]].
  cbn [bind].
  assert (Hxr : Forall (fun r => length r = in_features (lin L) /\
                                 Forall is_finite r) x_j).
  { eapply Forall_impl; [|exact Hxj]. rewrite Forall_forall in Hx. auto. }
  pose proof (message_rows _ nm x_j Fn Hxr) as Hmsg.
  change (length node_embed) with n.
  destruct (aggregate_finite (in_features (lin L)) (snd edges') (message x_j nm)
              (repeat (repeat (Finite 0) (ncols node_embed)) n))
    as [out [-> [Lo Fo]]].
  - now rewrite repeat_length.
  - unfold message. rewrite map2_length; lia.
  - exact Hmsg.
  - apply Forall_forall. intros r Hr.
    destruct node_embed as [|r0 rest]; [unfold n in Hr; simpl in Hr; contradiction|].
    apply repeat_spec in Hr. subst r.
    inversion Hx as [|? ? [Hl _] _]; subst.
    unfold ncols. cbn [hd]. rewrite repeat_length. split; [assumption|].
    apply Forall_forall. intros y Hy. apply repeat_spec in Hy. subst. exact I.
  - cbn [bind]. unfold update.
    destruct (mapM_Forall (update_row (lin L)) (Forall is_finite) out)
      as [res [-> [Fr Lr]]].
    + intros r Hr. rewrite Forall_forall in Fo. destruct (Fo r Hr).
      now apply update_row_finite.
    + exists res. rewrite repeat_length in Lo. split; [reflexivity|].
      split; [lia | assumption].
Qed.

Lemma GCN_normalisation_finite_witness :
  exists out,
    forward gcn_unit [[Finite 1]; [Finite 2]; [Finite 3]] ([0%Z], [1%Z]) = Ok out /\
    length out = 3%nat /\ Forall (Forall is_finite) out.
Proof.
  apply (GCN_normalisation_finite gcn_unit [[Finite 1]; [Finite 2]; [Finite 3]]
           ([0%Z], [1%Z])).
  - repeat constructor; unfold in_range; simpl; lia.
  - repeat constructor; unfold in_range; simpl; lia.
  - reflexivity.
  - repeat constructor.
Defined.

End GCN_results.

(** * Further properties of the layers *)

(** ** The aggregate methods *)

(** X1.  [RGCNLayer.aggregate], given one destination ID per message and
    messages of one width, returns the distinct destination IDs in
    ascending order and, for each, the mean of the messages given for it.
    The IDs need not be node IDs of any graph: no bound is checked. *)
Theorem RGCN_aggregate_sorted_means (cols : nat) (message : matrix) (des : list Z) :
  length des = length message ->
  Forall (fun r => length r = cols) message ->
  RGCNLayer.aggregate message des
  = Ok (unique des, map (fun d => vmean cols (messages_to d des message)) (unique des)) /\
  StronglySorted Z.lt (unique des) /\
  (forall d, In d (unique des) <-> In d des).
Proof.
  intros Hlen Hrows.
  split; [now apply RGCN_aggregate_mean|].
  split; [apply unique_sorted | intros; apply unique_In].
Qed.

Lemma RGCN_aggregate_sorted_means_witness :
  RGCNLayer.aggregate [[2; 5]; [4; 1]; [7; 7]] [9; -4; 9]%Z
  = Ok (unique [9; -4; 9]%Z,
        map (fun d => vmean 2 (messages_to d [9; -4; 9]%Z [[2; 5]; [4; 1]; [7; 7]]))
            (unique [9; -4; 9]%Z)) /\
  StronglySorted Z.lt (unique [9; -4; 9]%Z) /\
  (forall d, In d (unique [9; -4; 9]%Z) <-> In d [9; -4; 9]%Z).
Proof.
  apply (RGCN_aggregate_sorted_means 2 [[2; 5]; [4; 1]; [7; 7]] [9; -4; 9]%Z).
  - reflexivity.
  - repeat constructor.
Defined.

(** X2.  [CompGCNLayer.aggregate], given one destination ID per message
    and messages of one width, returns the distinct destination IDs in
    ascending order and, for each, the sum of the messages given for it. *)
Theorem CompGCN_aggregate_sorted_sums (cols : nat) (message : matrix) (des : list Z) :
  length des = length message ->
  Forall (fun r => length r = cols) message ->
  CompGCNLayer.aggregate message des
  = Ok (unique des, map (fun d => vsum cols (messages_to d des message)) (unique des)) /\
  StronglySorted Z.lt (unique des) /\
  (forall d, In d (unique des) <-> In d des).
Proof.
  intros Hlen Hrows.
  split; [now apply CompGCN_aggregate_sum|].
  split; [apply unique_sorted | intros; apply unique_In].
Qed.

Lemma CompGCN_aggregate_sorted_sums_witness :
  CompGCNLayer.aggregate [[2; 5]; [4; 1]; [7; 7]] [3; 0; 3]%Z
  = Ok (unique [3; 0; 3]%Z,
        map (fun d => vsum 2 (messages_to d [3; 0; 3]%Z [[2; 5]; [4; 1]; [7; 7]]))
            (unique [3; 0; 3]%Z)) /\
  StronglySorted Z.lt (unique [3; 0; 3]%Z) /\
  (forall d, In d (unique [3; 0; 3]%Z) <-> In d [3; 0; 3]%Z).
Proof.
  apply (CompGCN_aggregate_sorted_sums 2 [[2; 5]; [4; 1]; [7; 7]] [3; 0; 3]%Z).
  - reflexivity.
  - repeat constructor.
Defined.

(** X3.  [WGCNLayer.aggregate], called with its three arguments (messages
    as wide as the layer's [output_dim], the number of nodes, one in-range
    destination ID per message), returns the distinct destination IDs in
    ascending order and, for each, the sum of its messages. *)
Theorem WGCN_aggregate_sorted_sums (L : WGCNLayer.t) (message : matrix)
    (num_node : nat) (des : list Z) :
  length des = length message ->
  Forall (fun r => length r = WGCNLayer.output_dim L) message ->
  Forall (in_range num_node) des ->
  WGCNLayer.aggregate_call L [ArgTensor message; ArgInt (Z.of_nat num_node);
                              ArgIndex des]
  = Ok (unique des,
        map (fun d => vsum (WGCNLayer.output_dim L) (messages_to d des message))
            (unique des)) /\
  StronglySorted Z.lt (unique des) /\
  (forall d, In d (unique des) <-> In d des).
Proof.
  intros Hlen Hrows Hr.
  split; [|split; [apply unique_sorted | intros; apply unique_In]].
  cbn [WGCNLayer.aggregate_call]. rewrite Nat2Z.id.
  now apply WGCN_aggregate_sum.
Qed.

Lemma WGCN_aggregate_sorted_sums_witness :
  WGCNLayer.aggregate_call wgcn_unit
    [ArgTensor [[2]; [4]; [7]]; ArgInt (Z.of_nat 3); ArgIndex [2; 2; 0]%Z]
  = Ok (unique [2; 2; 0]%Z,
        map (fun d => vsum 1 (messages_to d [2; 2; 0]%Z [[2]; [4]; [7]]))
            (unique [2; 2; 0]%Z)) /\
  StronglySorted Z.lt (unique [2; 2; 0]%Z) /\
  (forall d, In d (unique [2; 2; 0]%Z) <-> In d [2; 2; 0]%Z).
Proof.
  apply (WGCN_aggregate_sorted_sums wgcn_unit [[2]; [4]; [7]] 3 [2; 2; 0]%Z).
  - reflexivity.
  - repeat constructor.
  - repeat constructor; unfold in_range; simpl; lia.
Defined.

(** ** RGCNLayer.forward *)

(** X4.  For node embeddings of [input_dim] columns and an edge list with
    in-range IDs, whatever the schedules, [RGCNLayer.forward] returns a
    matrix with a row of [output_dim] columns per node: the self-loop row
    [h[n] @ self_loop_weigt], to which, for a node with incoming edges, the
    message [h[src] @ weight[rel]] of one of the edges into it is added:
    the edge [win d] for the node [d], which is the last edge into it in
    the edge list when the assignments to [index_matrix] are carried out in
    the order of the edges.  The messages of the other edges into that
    node are not in the result. *)
Theorem RGCN_forward_one_message (L : RGCNLayer.t) (h : matrix) (edges : list edge)
    (o : oracle) :
  let dst := map e_dst edges in
  let cols := RGCNLayer.output_dim L in
  RGCN_wf L ->
  Forall (fun x => length x = RGCNLayer.input_dim L) h ->
  Forall (in_range (length h)) (map e_src edges) ->
  Forall (in_range (length (RGCNLayer.weight L))) (map e_rel edges) ->
  Forall (in_range (length h)) dst ->
  exists win msg out0 out,
    (forall d, In d dst -> nth_error dst (win d) = Some d) /\
    ((forall j k, o 0%nat j = o 0%nat k) ->
     forall d, In d dst -> win d = last_index dst d) /\
    (src_h <- index_select h (map e_src edges) ;;
     w <- index_select (RGCNLayer.weight L) (map e_rel edges) ;;
     RGCNLayer.bmm_rows cols src_h w) = Ok msg /\
    length msg = length edges /\
    mapM (fun x => RGCNLayer.vecmat cols x (RGCNLayer.self_loop_weigt L)) h = Ok out0 /\
    RGCNLayer.forward L h edges o = Ok out /\
    length out = length h /\
    Forall (fun r => length r = cols) out /\
    (forall d, In d dst ->
       nth_error out (Z.to_nat d)
       = Some (map2 Rplus (nth (Z.to_nat d) out0 []) (nth (win d) msg []))) /\
    (forall k, ~ In (Z.of_nat k) dst -> nth_error out k = nth_error out0 k).
Proof.
  intros dst cols Hwf Hh Hsrc Hrel Hdst.
  destruct (RGCN_forward_value L h edges o Hwf Hh Hsrc Hrel Hdst)
    as [win [msg [out0 [out [Hwin [Hties [Em [Lm [Fm [E0 [E [Lo [Hin Hout]]]]]]]]]]]]].
  fold dst in Hwin, Hties, Lm, Hin, Hout. fold cols in Em, Fm, E0.
  assert (F0 : Forall (fun r => length r = cols) out0).
  { destruct Hwf as [_ [Hsl Hsr]].
    destruct (mapM_Forall (fun x => RGCNLayer.vecmat cols x (RGCNLayer.self_loop_weigt L))
                (fun r => length r = cols) h) as [o' [Eo' [Fo' _]]].
    - intros x Hx. rewrite Forall_forall in Hh. apply vecmat_rows; [|assumption].
      rewrite (Hh x Hx). congruence.
    - congruence. }
  assert (L0 : length out0 = length h) by (eapply mapM_length; eassumption).
  exists win, msg, out0, out.
  split; [exact Hwin|]. split; [exact Hties|].
  split; [exact Em|]. split; [unfold dst in Lm; now rewrite length_map in Lm|].
  split; [exact E0|]. split; [exact E|]. split; [exact Lo|].
  split; [|split; assumption].
  apply Forall_forall. intros r Hr. apply In_nth_error in Hr. destruct Hr as [k Hk].
  destruct (in_dec Z.eq_dec (Z.of_nat k) dst) as [Hd|Hd].
  - rewrite <- (Nat2Z.id k) in Hk at 1. rewrite (Hin _ Hd) in Hk.
    inversion Hk; subst r. rewrite Nat2Z.id.
    rewrite Forall_forall in F0, Fm, Hdst. destruct (Hdst _ Hd).
    rewrite map2_length.
    + apply F0. apply nth_In. lia.
    + rewrite (F0 (nth k out0 [])) by (apply nth_In; lia).
      symmetry. apply Fm. apply nth_In. rewrite Lm. apply winner_lt. now apply Hwin.
  - rewrite (Hout k Hd) in Hk. rewrite Forall_forall in F0. apply F0.
    eapply nth_error_In; eassumption.
Qed.

Lemma RGCN_forward_one_message_witness :
  exists win msg out0 out,
    (forall d, In d [1; 2; 3; 3]%Z -> nth_error [1; 2; 3; 3]%Z (win d) = Some d) /\
    ((forall j k, all_in_order 0%nat j = all_in_order 0%nat k) ->
     forall d, In d [1; 2; 3; 3]%Z -> win d = last_index [1; 2; 3; 3]%Z d) /\
    (src_h <- index_select [[1]; [2]; [3]; [4]] [0; 1; 2; 0]%Z ;;
     w <- index_select [[[1]]; [[2]]] [0; 0; 1; 1]%Z ;;
     RGCNLayer.bmm_rows 1 src_h w) = Ok msg /\
    length msg = 4%nat /\
    mapM (fun x => RGCNLayer.vecmat 1 x [[1]]) [[1]; [2]; [3]; [4]] = Ok out0 /\
    RGCNLayer.forward rgcn_two [[1]; [2]; [3]; [4]]
      [mkEdge 0 0 1; mkEdge 1 0 2; mkEdge 2 1 3; mkEdge 0 1 3]
      all_in_order = Ok out /\
    length out = 4%nat /\
    Forall (fun r => length r = 1%nat) out /\
    (forall d, In d [1; 2; 3; 3]%Z ->
       nth_error out (Z.to_nat d)
       = Some (map2 Rplus (nth (Z.to_nat d) out0 []) (nth (win d) msg []))) /\
    (forall k, ~ In (Z.of_nat k) [1; 2; 3; 3]%Z -> nth_error out k = nth_error out0 k).
Proof.
  apply (RGCN_forward_one_message rgcn_two [[1]; [2]; [3]; [4]]
           [mkEdge 0 0 1; mkEdge 1 0 2; mkEdge 2 1 3; mkEdge 0 1 3]
           all_in_order).
  - repeat constructor.
  - repeat constructor.
  - repeat constructor; unfold in_range; simpl; lia.
  - repeat constructor; unfold in_range; simpl; lia.
  - repeat constructor; unfold in_range; simpl; lia.
Defined.

(** X5.  When no two edges have the same destination,
    [RGCNLayer.forward] adds to the row of every destination the mean of
    the messages of the edges into it, and returns the self-loop row of
    every other node, whatever the schedules. *)
Theorem RGCN_forward_mean_when_distinct (L : RGCNLayer.t) (h : matrix)
    (edges : list edge) (o : oracle) :
  let dst := map e_dst edges in
  let cols := RGCNLayer.output_dim L in
  NoDup dst ->
  RGCN_wf L ->
  Forall (fun x => length x = RGCNLayer.input_dim L) h ->
  Forall (in_range (length h)) (map e_src edges) ->
  Forall (in_range (length (RGCNLayer.weight L))) (map e_rel edges) ->
  Forall (in_range (length h)) dst ->
  exists msg out0 out,
    (src_h <- index_select h (map e_src edges) ;;
     w <- index_select (RGCNLayer.weight L) (map e_rel edges) ;;
     RGCNLayer.bmm_rows cols src_h w) = Ok msg /\
    mapM (fun x => RGCNLayer.vecmat cols x (RGCNLayer.self_loop_weigt L)) h = Ok out0 /\
    RGCNLayer.forward L h edges o = Ok out /\
    (forall d, In d dst ->
       nth_error out (Z.to_nat d)
       = Some (map2 Rplus (nth (Z.to_nat d) out0 [])
                          (vmean cols (messages_to d dst msg)))) /\
    (forall k, ~ In (Z.of_nat k) dst -> nth_error out k = nth_error out0 k).
Proof.
  intros dst cols. apply RGCN_forward_distinct.
Qed.

Lemma RGCN_forward_mean_when_distinct_witness :
  exists msg out0 out,
    (src_h <- index_select [[1]; [2]; [3]; [4]] [0; 1; 2]%Z ;;
     w <- index_select [[[1]]; [[2]]] [0; 0; 1]%Z ;;
     RGCNLayer.bmm_rows 1 src_h w) = Ok msg /\
    mapM (fun x => RGCNLayer.vecmat 1 x [[1]]) [[1]; [2]; [3]; [4]] = Ok out0 /\
    RGCNLayer.forward rgcn_two [[1]; [2]; [3]; [4]]
      [mkEdge 0 0 1; mkEdge 1 0 2; mkEdge 2 1 3] (fun _ => first_at_last) = Ok out /\
    (forall d, In d [1; 2; 3]%Z ->
       nth_error out (Z.to_nat d)
       = Some (map2 Rplus (nth (Z.to_nat d) out0 [])
                          (vmean 1 (messages_to d [1; 2; 3]%Z msg)))) /\
    (forall k, ~ In (Z.of_nat k) [1; 2; 3]%Z -> nth_error out k = nth_error out0 k).
Proof.
  apply (RGCN_forward_mean_when_distinct rgcn_two [[1]; [2]; [3]; [4]]
           [mkEdge 0 0 1; mkEdge 1 0 2; mkEdge 2 1 3] (fun _ => first_at_last)).
  - repeat constructor; simpl; intuition congruence.
  - repeat constructor.
  - repeat constructor.
  - repeat constructor; unfold in_range; simpl; lia.
  - repeat constructor; unfold in_range; simpl; lia.
  - repeat constructor; unfold in_range; simpl; lia.
Defined.

(** X6.  With an empty edge list [RGCNLayer.forward] is the self-loop
    product [h @ self_loop_weigt] alone, for every [h] and whatever the
    schedules: it returns where that product is defined and raises what
    that product raises. *)
Theorem RGCN_forward_no_edges (L : RGCNLayer.t) (h : matrix) (o : oracle) :
  RGCNLayer.forward L h [] o
  = mapM (fun x => RGCNLayer.vecmat (RGCNLayer.output_dim L) x
                                    (RGCNLayer.self_loop_weigt L)) h.
Proof.
  unfold RGCNLayer.forward. cbn.
  destruct (mapM _ h); reflexivity.
Qed.

(** ** IDs out of bounds *)

Lemma in_bounds_dec (n : nat) (i : Z) : {in_bounds n i} + {~ in_bounds n i}.
Proof.
  unfold in_bounds.
  destruct (Z_le_dec (- Z.of_nat n) i); destruct (Z_lt_dec i (Z.of_nat n));
    (left; lia) || (right; lia).
Qed.

Lemma wrap_index_in_bounds (n : nat) (i : Z) :
  in_bounds n i -> exists k, wrap_index n i = Ok k /\ (k < n)%nat.
Proof.
  unfold in_bounds, wrap_index. intros [H1 H2].
  destruct (Z.leb_spec 0 i); destruct (Z.ltb_spec i (Z.of_nat n));
    cbn [andb]; try lia.
  - exists (Z.to_nat i). split; [reflexivity | lia].
  - destruct (Z.leb_spec (- Z.of_nat n) i); destruct (Z.ltb_spec i 0);
      cbn [andb]; try lia.
    exists (Z.to_nat (Z.of_nat n + i)). split; [reflexivity | lia].
Qed.

Lemma wrap_index_out_of_bounds (n : nat) (i : Z) :
  ~ in_bounds n i -> wrap_index n i = Raise IndexError.
Proof.
  unfold in_bounds, wrap_index. intros H.
  destruct (Z.leb_spec 0 i); destruct (Z.ltb_spec i (Z.of_nat n));
    cbn [andb]; try lia;
    destruct (Z.leb_spec (- Z.of_nat n) i); destruct (Z.ltb_spec i 0);
      cbn [andb]; try lia; reflexivity.
Qed.

Lemma getitem_in_bounds {A : Type} (t : list A) (i : Z) :
  in_bounds (length t) i -> exists x, getitem t i = Ok x.
Proof.
  intros H. unfold getitem.
  destruct (wrap_index_in_bounds _ _ H) as [k [-> Hk]]. cbn [bind].
  destruct (nth_error t k) eqn:E; [eauto|].
  apply nth_error_None in E. lia.
Qed.

Lemma index_select_in_bounds {A : Type} (t : list A) (idx : list Z) :
  Forall (in_bounds (length t)) idx -> exists r, index_select t idx = Ok r.
Proof.
  intros H. destruct (mapM_Forall (getitem t) (fun _ => True) idx) as [r [E _]].
  - intros i Hi. rewrite Forall_forall in H.
    destruct (getitem_in_bounds t i (H i Hi)) as [x Hx]. eauto.
  - eauto.
Qed.

Lemma index_select_out_of_bounds {A : Type} (t : list A) (idx : list Z) :
  Exists (fun i => ~ in_bounds (length t) i) idx ->
  index_select t idx = Raise IndexError.
Proof.
  unfold index_select. induction idx as [|i idx IH]; intros H.
  - inversion H.
  - cbn [mapM]. destruct (in_bounds_dec (length t) i) as [Hi|Hi].
    + destruct (getitem_in_bounds t i Hi) as [x ->]. cbn [bind].
      inversion H as [? ? Hbad|? ? Hbad]; subst; [contradiction|].
      now rewrite (IH Hbad).
    + unfold getitem. now rewrite (wrap_index_out_of_bounds _ _ Hi).
Qed.

Lemma write_all_out_of_bounds {A : Type} (ws : list (Z * A)) :
  forall t : list A,
    Exists (fun i => ~ in_bounds (length t) i) (map fst ws) ->
    write_all t ws = Raise IndexError.
Proof.
  induction ws as [|[i v] ws IH]; intros t H.
  - inversion H.
  - cbn [write_all]. cbn [map fst] in H.
    destruct (in_bounds_dec (length t) i) as [Hi|Hi].
    + destruct (wrap_index_in_bounds _ _ Hi) as [k [-> Hk]]. cbn [bind].
      inversion H as [? ? Hbad|? ? Hbad]; subst; [contradiction|].
      apply IH. now rewrite set_nth_length.
    + now rewrite (wrap_index_out_of_bounds _ _ Hi).
Qed.

Lemma setitems_out_of_bounds {A : Type} (s : schedule) (idx : list Z)
    (t vals : list A) :
  length vals = length idx ->
  Exists (fun i => ~ in_bounds (length t) i) idx ->
  setitems s t idx vals = Raise IndexError.
Proof.
  intros Hlen H. unfold setitems. rewrite Hlen, Nat.eqb_refl.
  apply write_all_out_of_bounds.
  apply Exists_exists in H. destruct H as [i [Hi Hbad]].
  apply Exists_exists. exists i. split; [|exact Hbad].
  assert (Hp : Permutation (map fst (scheduled s (combine idx vals))) idx).
  { rewrite <- (map_fst_combine idx vals (eq_sym Hlen)) at 2.
    apply Permutation_map. apply scheduled_perm. }
  apply (Permutation_in _ (Permutation_sym Hp) Hi).
Qed.

Lemma Forall_or_Exists_bounds (n : nat) (idx : list Z) :
  Forall (in_bounds n) idx \/ Exists (fun i => ~ in_bounds n i) idx.
Proof.
  destruct (Forall_Exists_dec (in_bounds n) (in_bounds_dec n) idx); auto.
Qed.

(** X7.  If some edge has a source or a destination outside [-N, N), for
    [N] nodes, or a relation outside [-R, R), for [R] relation matrices,
    [RGCNLayer.forward] raises [IndexError]: nothing is returned, whatever
    the shapes of the other tensors and the schedules. *)
Theorem RGCN_forward_index_error (L : RGCNLayer.t) (h : matrix) (edges : list edge)
    (o : oracle) :
  (exists e, In e edges /\
             (~ in_bounds (length h) (e_src e) \/
              ~ in_bounds (length (RGCNLayer.weight L)) (e_rel e) \/
              ~ in_bounds (length h) (e_dst e))) ->
  RGCNLayer.forward L h edges o = Raise IndexError.
Proof.
  intros [e [He Hbad]]. unfold RGCNLayer.forward.
  destruct (Forall_or_Exists_bounds (length h) (map e_src edges)) as [Hs|Hs].
  2:{ now rewrite (index_select_out_of_bounds _ _ Hs). }
  destruct (index_select_in_bounds _ _ Hs) as [src_h ->]. cbn [bind].
  destruct (Forall_or_Exists_bounds (length (RGCNLayer.weight L)) (map e_rel edges))
    as [Hr|Hr].
  2:{ now rewrite (index_select_out_of_bounds _ _ Hr). }
  destruct (index_select_in_bounds _ _ Hr) as [w ->]. cbn [bind].
  rewrite setitems_out_of_bounds; [reflexivity| |].
  - unfold arange. now rewrite length_map, length_seq.
  - rewrite repeat_length. apply Exists_exists. exists (e_dst e).
    split; [now apply in_map|].
    rewrite Forall_forall in Hs, Hr.
    destruct Hbad as [Hb|[Hb|Hb]]; [| |exact Hb]; exfalso; apply Hb.
    + apply Hs. now apply in_map.
    + apply Hr. now apply in_map.
Qed.

Lemma RGCN_forward_index_error_witness :
  RGCNLayer.forward rgcn_two [[1]; [2]; [3]; [4]] [mkEdge 0 0 1; mkEdge 1 0 4]
                    all_in_order
  = Raise IndexError.
Proof.
  apply (RGCN_forward_index_error rgcn_two [[1]; [2]; [3]; [4]]
           [mkEdge 0 0 1; mkEdge 1 0 4] all_in_order).
  exists (mkEdge 1 0 4). split; [simpl; auto|].
  right; right. unfold in_bounds. simpl. lia.
Defined.

(** ** REGCNLayer.forward *)

Lemma REGCN_messages (L : REGCNLayer.t) (nodes_embed edges_embed : matrix)
    (edges : list edge) :
  REGCN_wf L ->
  Forall (fun x => length x = REGCNLayer.input_dim L) nodes_embed ->
  Forall (fun x => length x = REGCNLayer.input_dim L) edges_embed ->
  Forall (in_range (length nodes_embed)) (map e_src edges) ->
  Forall (in_range (length edges_embed)) (map e_rel edges) ->
  (src <- index_select nodes_embed (map e_src edges) ;;
   rela <- index_select edges_embed (map e_rel edges) ;;
   REGCNLayer.calculate_message L src rela)
  = Ok (map (REGCN_message L nodes_embed edges_embed) edges).
Proof.
  intros [_ Hagg] Hne Hee Hsrc Hrel.
  assert (Hw : forall e, In e edges ->
             length (nth (Z.to_nat (e_src e)) nodes_embed []) = REGCNLayer.input_dim L /\
             length (nth (Z.to_nat (e_rel e)) edges_embed []) = REGCNLayer.input_dim L).
  { intros e He. rewrite Forall_forall in Hne, Hee, Hsrc, Hrel.
    destruct (Hsrc (e_src e) (in_map _ _ _ He)).
    destruct (Hrel (e_rel e) (in_map _ _ _ He)).
    split; [apply Hne | apply Hee]; apply nth_In; lia. }
  rewrite (index_select_nth [] nodes_embed _ Hsrc).
  rewrite (index_select_nth [] edges_embed _ Hrel). cbn [bind].
  unfold REGCNLayer.calculate_message. rewrite !map_map.
  rewrite mbin_rows by (intros e He; destruct (Hw e He); congruence).
  cbn [bind]. unfold linear.
  rewrite (mapM_ok _ (fun x => match linear_row (REGCNLayer.fc_aggregate L) x with
                               | Ok y => y
                               | Raise _ => []
                               end)).
  - now rewrite map_map.
  - intros x Hx. apply in_map_iff in Hx. destruct Hx as [e [<- He]].
    destruct (Hw e He) as [H1 H2].
    destruct (linear_row_wf _ _ _
                (map2 Rplus (nth (Z.to_nat (e_src e)) nodes_embed [])
                            (nth (Z.to_nat (e_rel e)) edges_embed [])) Hagg)
      as [y [-> _]]; [|reflexivity].
    rewrite map2_length; congruence.
Qed.

(** X8.  For a layer whose activation is sigmoid or tanh, or RReLU outside
    training mode, well-shaped embeddings and an edge list with in-range
    IDs, [REGCNLayer.forward] returns the activation, element by element,
    of a matrix with a row per node: the self-loop row [fc_self] of the
    node, to which, for a node with incoming edges, the mean of the
    messages [fc_aggregate(nodes_embed[s] + edges_embed[r])] of the edges
    [(s, r, d)] into it is added, whatever the schedule.  The random
    generator is left as it was. *)
Theorem REGCN_forward_mean (L : REGCNLayer.t) (a : Activation)
    (nodes_embed edges_embed : matrix) (edges : list edge) (o : oracle) (g : rng) :
  let dst := map e_dst edges in
  let message := map (REGCN_message L nodes_embed edges_embed) edges in
  REGCNLayer.active L = Some a ->
  (a = RReLU -> REGCNLayer.training L = false) ->
  REGCN_wf L ->
  Forall (fun x => length x = REGCNLayer.input_dim L) nodes_embed ->
  Forall (fun x => length x = REGCNLayer.input_dim L) edges_embed ->
  Forall (in_range (length nodes_embed)) (map e_src edges) ->
  Forall (in_range (length edges_embed)) (map e_rel edges) ->
  Forall (in_range (length nodes_embed)) dst ->
  exists h0 h,
    (src <- index_select nodes_embed (map e_src edges) ;;
     rela <- index_select edges_embed (map e_rel edges) ;;
     REGCNLayer.calculate_message L src rela) = Ok message /\
    linear (REGCNLayer.fc_self L) nodes_embed = Ok h0 /\
    REGCNLayer.forward L nodes_embed edges_embed edges o g
    = (Ok (map (map (act_fun a)) h), g) /\
    length h = length nodes_embed /\
    (forall d, In d dst ->
       nth_error h (Z.to_nat d)
       = Some (map2 Rplus (nth (Z.to_nat d) h0 [])
                 (vmean (REGCNLayer.output_dim L) (messages_to d dst message)))) /\
    (forall k, ~ In (Z.of_nat k) dst -> nth_error h k = nth_error h0 k).
Proof.
  intros dst message Ha Htr Hwf Hne Hee Hsrc Hrel Hdst.
  destruct (REGCN_pre_activation_value L nodes_embed edges_embed edges o
              Hwf Hne Hee Hsrc Hrel Hdst)
    as [msg [h0 [h [Em [_ [E0 [E [Lh [Hin Hout]]]]]]]]].
  rewrite (REGCN_messages L nodes_embed edges_embed edges Hwf Hne Hee Hsrc Hrel) in Em.
  inversion Em; subst msg.
  exists h0, h.
  split; [now apply REGCN_messages|].
  split; [exact E0|]. split; [|split; [exact Lh|split; assumption]].
  unfold REGCNLayer.forward. rewrite E, Ha.
  destruct a; cbn [activate]; try reflexivity.
  rewrite Htr by reflexivity. reflexivity.
Qed.

Lemma REGCN_forward_mean_witness :
  exists h0 h,
    (src <- index_select [[1; 2]; [3; 4]; [5; 6]] [0; 1]%Z ;;
     rela <- index_select [[0; 1]] [0; 0]%Z ;;
     REGCNLayer.calculate_message regcn_sigmoid src rela)
    = Ok (map (REGCN_message regcn_sigmoid [[1; 2]; [3; 4]; [5; 6]] [[0; 1]])
              [mkEdge 0 0 2; mkEdge 1 0 2]) /\
    linear (REGCNLayer.fc_self regcn_sigmoid) [[1; 2]; [3; 4]; [5; 6]] = Ok h0 /\
    REGCNLayer.forward regcn_sigmoid [[1; 2]; [3; 4]; [5; 6]] [[0; 1]]
      [mkEdge 0 0 2; mkEdge 1 0 2] all_in_order draws
    = (Ok (map (map (act_fun Sigmoid)) h), draws) /\
    length h = 3%nat /\
    (forall d, In d [2; 2]%Z ->
       nth_error h (Z.to_nat d)
       = Some (map2 Rplus (nth (Z.to_nat d) h0 [])
                 (vmean 1 (messages_to d [2; 2]%Z
                             (map (REGCN_message regcn_sigmoid
                                     [[1; 2]; [3; 4]; [5; 6]] [[0; 1]])
                                  [mkEdge 0 0 2; mkEdge 1 0 2]))))) /\
    (forall k, ~ In (Z.of_nat k) [2; 2]%Z -> nth_error h k = nth_error h0 k).
Proof.
  apply (REGCN_forward_mean regcn_sigmoid Sigmoid [[1; 2]; [3; 4]; [5; 6]] [[0; 1]]
           [mkEdge 0 0 2; mkEdge 1 0 2] all_in_order draws).
  - reflexivity.
  - discriminate.
  - repeat split; try reflexivity; intros b Hb; inversion Hb; reflexivity.
  - repeat constructor.
  - repeat constructor.
  - repeat constructor; unfold in_range; simpl; lia.
  - repeat constructor; unfold in_range; simpl; lia.
  - repeat constructor; unfold in_range; simpl; lia.
Defined.

Lemma rrelu_train_vec_length (v : vec) (g : rng) :
  length (fst (rrelu_train_vec v g)) = length v.
Proof.
  revert g. induction v as [|x v IH]; intros g; [reflexivity|].
  cbn [rrelu_train_vec]. destruct (Rle_dec x 0).
  - specialize (IH (rng_next g)). destruct (rrelu_train_vec v (rng_next g)).
    simpl in *. now f_equal.
  - specialize (IH g). destruct (rrelu_train_vec v g). simpl in *. now f_equal.
Qed.

Lemma rrelu_train_shape (cols : nat) (m : matrix) (g : rng) :
  Forall (fun r => length r = cols) m ->
  length (fst (rrelu_train m g)) = length m /\
  Forall (fun r => length r = cols) (fst (rrelu_train m g)).
Proof.
  revert g. induction m as [|r m IH]; intros g H; [simpl; auto|].
  inversion H as [|? ? Hr Hm]; subst. cbn [rrelu_train].
  pose proof (rrelu_train_vec_length r g) as Hv.
  destruct (rrelu_train_vec r g) as [o g1].
  specialize (IH g1 Hm). destruct (rrelu_train m g1) as [os g2].
  simpl in *. destruct IH as [IH1 IH2]. split; [now f_equal|].
  constructor; assumption.
Qed.

Lemma activate_shape (a : Activation) (training : bool) (cols : nat) (m : matrix)
    (g : rng) :
  Forall (fun r => length r = cols) m ->
  length (fst (activate a training m g)) = length m /\
  Forall (fun r => length r = cols) (fst (activate a training m g)).
Proof.
  intros H.
  assert (Hmap : forall f : R -> R,
             length (map (map f) m) = length m /\
             Forall (fun r => length r = cols) (map (map f) m)).
  { intros f. split; [apply length_map|].
    apply Forall_forall. intros r Hr. apply in_map_iff in Hr.
    destruct Hr as [x [<- Hx]]. rewrite length_map.
    rewrite Forall_forall in H. now apply H. }
  destruct a; cbn [activate fst]; try apply Hmap.
  destruct training; [now apply rrelu_train_shape | apply Hmap].
Qed.

(** X9.  Whatever its activation, the randomised RReLU of training mode
    included, [REGCNLayer.forward] on well-shaped embeddings and an edge
    list with in-range IDs returns, whatever the schedule, a matrix with as
    many rows as there are nodes and [output_dim] columns. *)
Theorem REGCN_forward_shape (L : REGCNLayer.t) (a : Activation)
    (nodes_embed edges_embed : matrix) (edges : list edge) (o : oracle) (g : rng) :
  REGCNLayer.active L = Some a ->
  REGCN_wf L ->
  Forall (fun x => length x = REGCNLayer.input_dim L) nodes_embed ->
  Forall (fun x => length x = REGCNLayer.input_dim L) edges_embed ->
  Forall (in_range (length nodes_embed)) (map e_src edges) ->
  Forall (in_range (length edges_embed)) (map e_rel edges) ->
  Forall (in_range (length nodes_embed)) (map e_dst edges) ->
  exists out,
    fst (REGCNLayer.forward L nodes_embed edges_embed edges o g) = Ok out /\
    length out = length nodes_embed /\
    Forall (fun r => length r = REGCNLayer.output_dim L) out.
Proof.
  intros Ha Hwf Hne Hee Hsrc Hrel Hdst.
  destruct (REGCN_pre_activation_value L nodes_embed edges_embed edges o
              Hwf Hne Hee Hsrc Hrel Hdst)
    as [msg [h0 [h [Em [Lm [E0 [E [Lh [Hin Hout]]]]]]]]].
  assert (F0 : Forall (fun r => length r = REGCNLayer.output_dim L) h0).
  { destruct Hwf as [Hself _].
    destruct (mapM_Forall (linear_row (REGCNLayer.fc_self L))
                (fun r => length r = REGCNLayer.output_dim L) nodes_embed)
      as [h0' [E' [F' _]]].
    - intros x Hx. rewrite Forall_forall in Hne.
      apply (linear_row_wf _ _ _ _ Hself). now apply Hne.
    - unfold linear in E0. congruence. }
  assert (Fmsg : Forall (fun r => length r = REGCNLayer.output_dim L) msg).
  { rewrite (REGCN_messages L nodes_embed edges_embed edges Hwf Hne Hee Hsrc Hrel) in Em.
    inversion Em; subst msg. apply Forall_forall. intros r Hr.
    apply in_map_iff in Hr. destruct Hr as [e [<- He]]. unfold REGCN_message.
    destruct Hwf as [_ Hagg].
    rewrite Forall_forall in Hne, Hee, Hsrc, Hrel.
    destruct (Hsrc (e_src e) (in_map _ _ _ He)).
    destruct (Hrel (e_rel e) (in_map _ _ _ He)).
    destruct (linear_row_wf _ _ _
                (map2 Rplus (nth (Z.to_nat (e_src e)) nodes_embed [])
                            (nth (Z.to_nat (e_rel e)) edges_embed [])) Hagg)
      as [y [-> Hy]]; [|exact Hy].
    rewrite map2_length.
    - apply Hne. apply nth_In. lia.
    - rewrite (Hne (nth (Z.to_nat (e_src e)) nodes_embed [])) by (apply nth_In; lia).
      rewrite (Hee (nth (Z.to_nat (e_rel e)) edges_embed [])) by (apply nth_In; lia).
      reflexivity. }
  assert (L0 : length h0 = length nodes_embed)
    by (unfold linear in E0; eapply mapM_length; eassumption).
  assert (Fh : Forall (fun r => length r = REGCNLayer.output_dim L) h).
  { apply Forall_forall. intros r Hr. apply In_nth_error in Hr. destruct Hr as [k Hk].
    destruct (in_dec Z.eq_dec (Z.of_nat k) (map e_dst edges)) as [Hd|Hd].
    - rewrite <- (Nat2Z.id k) in Hk at 1. rewrite (Hin _ Hd) in Hk.
      inversion Hk; subst r. rewrite Nat2Z.id.
      rewrite Forall_forall in F0, Hdst. destruct (Hdst _ Hd).
      assert (Hv : length (vmean (REGCNLayer.output_dim L)
                             (messages_to (Z.of_nat k) (map e_dst edges) msg))
                   = REGCNLayer.output_dim L)
        by (apply vmean_length; now apply messages_to_rows).
      rewrite map2_length.
      + apply F0. apply nth_In. lia.
      + rewrite Hv. apply F0. apply nth_In. lia.
    - rewrite (Hout k Hd) in Hk. rewrite Forall_forall in F0. apply F0.
      eapply nth_error_In; eassumption. }
  unfold REGCNLayer.forward. rewrite E, Ha.
  destruct (activate_shape a (REGCNLayer.training L) _ h g Fh) as [A1 A2].
  destruct (activate a (REGCNLayer.training L) h g) as [r g'].
  exists r. cbn [fst] in *. split; [reflexivity|]. split; [lia | assumption].
Qed.

Lemma REGCN_forward_shape_witness :
  exists out,
    fst (REGCNLayer.forward regcn_rrelu [[-1]; [-1]] [[0]] [mkEdge 0 0 1]
           all_in_order draws)
    = Ok out /\
    length out = 2%nat /\ Forall (fun r => length r = 1%nat) out.
Proof.
  apply (REGCN_forward_shape regcn_rrelu RReLU [[-1]; [-1]] [[0]] [mkEdge 0 0 1]
           all_in_order draws).
  - reflexivity.
  - repeat split; try reflexivity; intros b Hb; inversion Hb.
  - repeat constructor.
  - repeat constructor.
  - repeat constructor; unfold in_range; simpl; lia.
  - repeat constructor; unfold in_range; simpl; lia.
  - repeat constructor; unfold in_range; simpl; lia.
Defined.

(** *** The order of the edges *)

Lemma messages_to_edges (g : edge -> vec) (d : Z) (edges : list edge) :
  messages_to d (map e_dst edges) (map g edges)
  = map g (filter (fun e => (e_dst e =? d)%Z) edges).
Proof.
  induction edges as [|e edges IH]; [reflexivity|].
  cbn [map filter]. rewrite messages_to_cons, IH.
  now destruct (e_dst e =? d)%Z.
Qed.

Lemma in_edges_into (edges : list edge) (e : edge) :
  In e edges <-> In e (filter (fun x => (e_dst x =? e_dst e)%Z) edges).
Proof.
  rewrite filter_In, Z.eqb_refl. tauto.
Qed.

(** X10.  [REGCNLayer.forward] depends on the order of the edge list only
    through the order of the edges into each node: for well-shaped
    embeddings and in-range IDs, two edge lists that have, for every node,
    the same edges into it in the same order give the same result, and the
    same state of the generator.  The sum of the messages into a node is
    then taken in the same order in both calls. *)
Theorem REGCN_forward_edge_order (L : REGCNLayer.t)
    (nodes_embed edges_embed : matrix) (edges edges' : list edge) (o : oracle)
    (g : rng) :
  (forall d, filter (fun e => (e_dst e =? d)%Z) edges'
             = filter (fun e => (e_dst e =? d)%Z) edges) ->
  REGCN_wf L ->
  Forall (fun x => length x = REGCNLayer.input_dim L) nodes_embed ->
  Forall (fun x => length x = REGCNLayer.input_dim L) edges_embed ->
  Forall (in_range (length nodes_embed)) (map e_src edges) ->
  Forall (in_range (length edges_embed)) (map e_rel edges) ->
  Forall (in_range (length nodes_embed)) (map e_dst edges) ->
  REGCNLayer.forward L nodes_embed edges_embed edges' o g
  = REGCNLayer.forward L nodes_embed edges_embed edges o g.
Proof.
  intros HF Hwf Hne Hee Hsrc Hrel Hdst.
  assert (Hsame : forall e, In e edges' <-> In e edges).
  { intros e. rewrite (in_edges_into edges'), (in_edges_into edges), HF. tauto. }
  assert (Hmap : forall (p : edge -> Z) n,
             Forall (in_range n) (map p edges) -> Forall (in_range n) (map p edges')).
  { intros p n H. rewrite Forall_forall in *. intros x Hx.
    apply in_map_iff in Hx. destruct Hx as [e [<- He]].
    apply H. apply in_map. now apply Hsame. }
  assert (Hsrc' := Hmap e_src _ Hsrc).
  assert (Hrel' := Hmap e_rel _ Hrel).
  assert (Hdst' := Hmap e_dst _ Hdst).
  destruct (REGCN_pre_activation_value L nodes_embed edges_embed edges o
              Hwf Hne Hee Hsrc Hrel Hdst)
    as [msg [h0 [h [Em [_ [E0 [E [Lh [Hin Hout]]]]]]]]].
  destruct (REGCN_pre_activation_value L nodes_embed edges_embed edges' o
              Hwf Hne Hee Hsrc' Hrel' Hdst')
    as [msg' [h0' [h' [Em' [_ [E0' [E' [Lh' [Hin' Hout']]]]]]]]].
  rewrite (REGCN_messages L nodes_embed edges_embed edges Hwf Hne Hee Hsrc Hrel) in Em.
  rewrite (REGCN_messages L nodes_embed edges_embed edges' Hwf Hne Hee Hsrc' Hrel') in Em'.
  inversion Em; subst msg. inversion Em'; subst msg'.
  assert (h0' = h0) by congruence. subst h0'.
  assert (Hdsts : forall d, In d (map e_dst edges') <-> In d (map e_dst edges)).
  { intros d. rewrite !in_map_iff. split; intros [e [He1 He2]]; exists e;
      (split; [assumption | now apply Hsame]). }
  assert (Hh : h' = h).
  { apply nth_error_ext. intros k.
    destruct (in_dec Z.eq_dec (Z.of_nat k) (map e_dst edges)) as [Hd|Hd].
    - assert (Hd' : In (Z.of_nat k) (map e_dst edges')) by now apply Hdsts.
      rewrite <- (Nat2Z.id k).
      rewrite (Hin _ Hd), (Hin' _ Hd'). do 2 f_equal.
      now rewrite !messages_to_edges, HF.
    - assert (Hd' : ~ In (Z.of_nat k) (map e_dst edges'))
        by (intros Hx; apply Hd; now apply Hdsts).
      now rewrite (Hout k Hd), (Hout' k Hd'). }
  unfold REGCNLayer.forward. rewrite E, E', Hh. reflexivity.
Qed.

(** The two edges into node 2 keep their order, and the edge into node 1
    moves from the last place to the first. *)
Lemma REGCN_forward_edge_order_witness :
  REGCNLayer.forward regcn_sigmoid [[1; 2]; [3; 4]; [5; 6]] [[0; 1]]
    [mkEdge 2 0 1; mkEdge 0 0 2; mkEdge 1 0 2] all_in_order draws
  = REGCNLayer.forward regcn_sigmoid [[1; 2]; [3; 4]; [5; 6]] [[0; 1]]
      [mkEdge 0 0 2; mkEdge 1 0 2; mkEdge 2 0 1] all_in_order draws.
Proof.
  apply (REGCN_forward_edge_order regcn_sigmoid [[1; 2]; [3; 4]; [5; 6]] [[0; 1]]
           [mkEdge 0 0 2; mkEdge 1 0 2; mkEdge 2 0 1]
           [mkEdge 2 0 1; mkEdge 0 0 2; mkEdge 1 0 2] all_in_order draws).
  - intros d. cbn [filter e_dst].
    destruct (Z.eqb_spec 1 d) as [H1|H1]; destruct (Z.eqb_spec 2 d) as [H2|H2];
      try reflexivity.
    exfalso. rewrite <- H1 in H2. discriminate H2.
  - repeat split; try reflexivity; intros b Hb; inversion Hb; reflexivity.
  - repeat constructor.
  - repeat constructor.
  - repeat constructor; unfold in_range; simpl; lia.
  - repeat constructor; unfold in_range; simpl; lia.
  - repeat constructor; unfold in_range; simpl; lia.
Defined.

(** X11.  With an empty edge list, at least one node and one relation (so
    that both embeddings have a width), and embeddings of [input_dim]
    columns, what [REGCNLayer.forward] hands to its activation is
    [fc_self(nodes_embed)] alone: the layer returns the activation of the
    self-loop rows, or raises [AttributeError] when it has no activation.
    The sum [src + rela] of the two empty gathers, which torch refuses for
    embeddings of different widths, is then defined. *)
Theorem REGCN_forward_no_edges (L : REGCNLayer.t) (nodes_embed edges_embed : matrix)
    (o : oracle) (g : rng) :
  REGCN_wf L ->
  nodes_embed <> [] ->
  edges_embed <> [] ->
  Forall (fun x => length x = REGCNLayer.input_dim L) nodes_embed ->
  Forall (fun x => length x = REGCNLayer.input_dim L) edges_embed ->
  exists h0,
    linear (REGCNLayer.fc_self L) nodes_embed = Ok h0 /\
    length h0 = length nodes_embed /\
    REGCNLayer.pre_activation L nodes_embed edges_embed [] o = Ok h0 /\
    REGCNLayer.forward L nodes_embed edges_embed [] o g
    = match REGCNLayer.active L with
      | None => (Raise AttributeError, g)
      | Some a =>
          (Ok (fst (activate a (REGCNLayer.training L) h0 g)),
           snd (activate a (REGCNLayer.training L) h0 g))
      end.
Proof.
  intros [Hself _] _ _ Hne _.
  destruct (mapM_Forall (linear_row (REGCNLayer.fc_self L))
              (fun r => length r = REGCNLayer.output_dim L) nodes_embed)
    as [h0 [E0 [_ L0]]].
  { intros x Hx. rewrite Forall_forall in Hne.
    apply (linear_row_wf _ _ _ _ Hself). now apply Hne. }
  assert (H : REGCNLayer.pre_activation L nodes_embed edges_embed [] o = Ok h0).
  { unfold REGCNLayer.pre_activation, linear. rewrite E0. reflexivity. }
  exists h0. split; [exact E0|]. split; [exact L0|]. split; [exact H|].
  unfold REGCNLayer.forward. rewrite H.
  destruct (REGCNLayer.active L) as [a|]; [|reflexivity].
  now destruct (activate a (REGCNLayer.training L) h0 g).
Qed.

Lemma REGCN_forward_no_edges_witness :
  exists h0,
    linear (REGCNLayer.fc_self regcn_sigmoid) [[1; 2]; [3; 4]] = Ok h0 /\
    length h0 = 2%nat /\
    REGCNLayer.pre_activation regcn_sigmoid [[1; 2]; [3; 4]] [[0; 1]] [] all_in_order
    = Ok h0 /\
    REGCNLayer.forward regcn_sigmoid [[1; 2]; [3; 4]] [[0; 1]] [] all_in_order draws
    = match REGCNLayer.active regcn_sigmoid with
      | None => (Raise AttributeError, draws)
      | Some a =>
          (Ok (fst (activate a (REGCNLayer.training regcn_sigmoid) h0 draws)),
           snd (activate a (REGCNLayer.training regcn_sigmoid) h0 draws))
      end.
Proof.
  apply (REGCN_forward_no_edges regcn_sigmoid [[1; 2]; [3; 4]] [[0; 1]]
           all_in_order draws).
  - repeat split; try reflexivity; intros b Hb; inversion Hb; reflexivity.
  - discriminate.
  - discriminate.
  - repeat constructor.
  - repeat constructor.
Defined.

(** ** CompGCNLayer *)

(** X12.  [composition] of a matrix of node embeddings with one relation
    vector of the same width combines every row with that vector: by
    addition for 'add', by subtraction for 'sub', by the elementwise product
    for 'mult'. *)
Theorem composition_broadcast (m : matrix) (r : vec) :
  Forall (fun x => length x = length r) m ->
  CompGCNLayer.composition (Mat m) (Vec r) "add"
  = Ok (Some (Mat (map (fun x => map2 Rplus x r) m))) /\
  CompGCNLayer.composition (Mat m) (Vec r) "sub"
  = Ok (Some (Mat (map (fun x => map2 Rminus x r) m))) /\
  CompGCNLayer.composition (Mat m) (Vec r) "mult"
  = Ok (Some (Mat (map (fun x => map2 Rmult x r) m))).
Proof.
  intros H. unfold CompGCNLayer.composition. cbn [String.eqb Ascii.eqb Bool.eqb].
  now rewrite !tbin_mat_vec by assumption.
Qed.

Lemma composition_broadcast_witness :
  CompGCNLayer.composition (Mat [[1; 2]; [3; 4]]) (Vec [5; 6]) "add"
  = Ok (Some (Mat (map (fun x => map2 Rplus x [5; 6]) [[1; 2]; [3; 4]]))) /\
  CompGCNLayer.composition (Mat [[1; 2]; [3; 4]]) (Vec [5; 6]) "sub"
  = Ok (Some (Mat (map (fun x => map2 Rminus x [5; 6]) [[1; 2]; [3; 4]]))) /\
  CompGCNLayer.composition (Mat [[1; 2]; [3; 4]]) (Vec [5; 6]) "mult"
  = Ok (Some (Mat (map (fun x => map2 Rmult x [5; 6]) [[1; 2]; [3; 4]]))).
Proof.
  apply (composition_broadcast [[1; 2]; [3; 4]] [5; 6]). repeat constructor.
Defined.

(** X13.  For a known mode, well-shaped embeddings and in-range IDs,
    whatever the schedules, [CompGCNLayer.forward] returns a pair: node
    rows of [output_dim] columns, one per node, and the relation rows
    [W_r(rela_embed)], of [output_dim] columns, one per row of
    [rela_embed]. *)
Theorem CompGCN_forward_shape (L : CompGCNLayer.t) (i : nat)
    (node_embed rela_embed : matrix) (edges : list edge) (mode : string)
    (o : oracle) :
  CompGCN_wf L i ->
  known_mode mode ->
  Forall (fun x => length x = i) node_embed ->
  Forall (fun x => length x = i) rela_embed ->
  in_range (length rela_embed) (CompGCNLayer.num_rela L * 2)%Z ->
  Forall (in_range (length node_embed)) (map e_src edges) ->
  Forall (in_range (length rela_embed)) (map e_rel edges) ->
  Forall (in_range (length node_embed)) (map e_dst edges) ->
  exists h_v h_r,
    CompGCNLayer.forward L node_embed rela_embed edges mode o = Ok (h_v, h_r) /\
    length h_v = length node_embed /\
    Forall (fun x => length x = CompGCNLayer.output_dim L) h_v /\
    linear (CompGCNLayer.W_r L) rela_embed = Ok h_r /\
    length h_r = length rela_embed /\
    Forall (fun x => length x = CompGCNLayer.output_dim L) h_r.
Proof.
  intros Hwf Hmode Hne Hre Hself Hsrc Hrel Hdst.
  destruct (CompGCN_forward_blocks L i node_embed rela_embed edges o
              Hwf Hne Hre Hself Hsrc Hrel Hdst)
    as [win_o [win_s [h_r [_ [_ [_ [_ [Er [Lr [Fr Hm]]]]]]]]]].
  destruct (Hm mode Hmode) as [h0 [h1 [h_v [_ [E [Lv [Fv _]]]]]]].
  exists h_v, h_r. repeat split; assumption.
Qed.

Lemma CompGCN_forward_shape_witness :
  exists h_v h_r,
    CompGCNLayer.forward compgcn_pair [[1; 2]; [3; 4]; [5; 6]]
      [[1; 0]; [0; 1]; [1; 1]] [mkEdge 0 0 2; mkEdge 2 1 0; mkEdge 1 0 2] "mult"
      (fun _ => first_at_last)
    = Ok (h_v, h_r) /\
    length h_v = 3%nat /\
    Forall (fun x => length x = 2%nat) h_v /\
    linear (CompGCNLayer.W_r compgcn_pair) [[1; 0]; [0; 1]; [1; 1]] = Ok h_r /\
    length h_r = 3%nat /\
    Forall (fun x => length x = 2%nat) h_r.
Proof.
  apply (CompGCN_forward_shape compgcn_pair 2 [[1; 2]; [3; 4]; [5; 6]]
           [[1; 0]; [0; 1]; [1; 1]] [mkEdge 0 0 2; mkEdge 2 1 0; mkEdge 1 0 2] "mult"
           (fun _ => first_at_last)).
  - repeat split; try reflexivity; intros b Hb; inversion Hb.
  - right; right; reflexivity.
  - repeat constructor.
  - repeat constructor.
  - unfold in_range; simpl; lia.
  - repeat constructor; unfold in_range; simpl; lia.
  - repeat constructor; unfold in_range; simpl; lia.
  - repeat constructor; unfold in_range; simpl; lia.
Defined.

(** X14.  The mode of [CompGCNLayer.forward] reaches the self-loop term
    only.  For well-shaped embeddings, in-range IDs and given schedules,
    the messages along the edges are [W_o(node[s] + relation[r])] and
    [W_s(node[s] + relation[r])], composed by addition, and they, the edge
    whose message each destination receives and the relation rows are the
    same for the three modes 'add', 'sub' and 'mult'; the node rows are
    the self-loop rows of the mode, to which the two blocks add these
    messages. *)
Theorem CompGCN_mode_reaches_self_loop_only (L : CompGCNLayer.t) (i : nat)
    (node_embed rela_embed : matrix) (edges : list edge) (o : oracle) :
  let fwd := CompGCNLayer.original_edges L edges in
  let rev := CompGCNLayer.reversed_edges L edges in
  let msg_o := map (CompGCN_message (CompGCNLayer.W_o L) node_embed rela_embed) fwd in
  let msg_s := map (CompGCN_message (CompGCNLayer.W_s L) node_embed rela_embed) rev in
  let added := fun (sel : list edge) (msg : matrix) (win : Z -> nat) (d : Z) =>
    map (fun x => INR (count (map e_dst sel) d) * x) (nth (win d) msg []) in
  CompGCN_wf L i ->
  Forall (fun x => length x = i) node_embed ->
  Forall (fun x => length x = i) rela_embed ->
  in_range (length rela_embed) (CompGCNLayer.num_rela L * 2)%Z ->
  Forall (in_range (length node_embed)) (map e_src edges) ->
  Forall (in_range (length rela_embed)) (map e_rel edges) ->
  Forall (in_range (length node_embed)) (map e_dst edges) ->
  exists win_o win_s h_r,
    (forall d, In d (map e_dst fwd) -> nth_error (map e_dst fwd) (win_o d) = Some d) /\
    (forall d, In d (map e_dst rev) -> nth_error (map e_dst rev) (win_s d) = Some d) /\
    forall mode, known_mode mode ->
      exists h0 h1 h_v,
        (r_self <- getitem rela_embed (CompGCNLayer.num_rela L * 2)%Z ;;
         c <- CompGCNLayer.composition (Mat node_embed) (Vec r_self) mode ;;
         wc <- linear_call (CompGCNLayer.W_i L) c ;;
         rows_of wc) = Ok h0 /\
        CompGCNLayer.forward L node_embed rela_embed edges mode o = Ok (h_v, h_r) /\
        (forall d, In d (map e_dst fwd) ->
           nth_error h1 (Z.to_nat d)
           = Some (map2 Rplus (nth (Z.to_nat d) h0 []) (added fwd msg_o win_o d))) /\
        (forall k, ~ In (Z.of_nat k) (map e_dst fwd) ->
           nth_error h1 k = nth_error h0 k) /\
        (forall d, In d (map e_dst rev) ->
           nth_error h_v (Z.to_nat d)
           = Some (map2 Rplus (nth (Z.to_nat d) h1 []) (added rev msg_s win_s d))) /\
        (forall k, ~ In (Z.of_nat k) (map e_dst rev) ->
           nth_error h_v k = nth_error h1 k).
Proof.
  intros fwd rev msg_o msg_s added Hwf Hne Hre Hself Hsrc Hrel Hdst.
  destruct (CompGCN_forward_blocks L i node_embed rela_embed edges o
              Hwf Hne Hre Hself Hsrc Hrel Hdst)
    as [win_o [win_s [h_r [Hwo [Hws [_ [_ [_ [_ [_ Hm]]]]]]]]]].
  exists win_o, win_s, h_r. split; [exact Hwo|]. split; [exact Hws|].
  intros mode Hmode.
  destruct (Hm mode Hmode) as [h0 [h1 [h_v [E0 [E [_ [_ [In1 [Out1 [In2 Out2]]]]]]]]]].
  exists h0, h1, h_v. repeat split; assumption.
Qed.

Lemma CompGCN_mode_reaches_self_loop_only_witness :
  exists win_o win_s h_r,
    (forall d, In d [2; 2]%Z -> nth_error [2; 2]%Z (win_o d) = Some d) /\
    (forall d, In d [0]%Z -> nth_error [0]%Z (win_s d) = Some d) /\
    forall mode, known_mode mode ->
      exists h0 h1 h_v,
        (r_self <- getitem [[1; 0]; [0; 1]; [1; 1]] 2%Z ;;
         c <- CompGCNLayer.composition (Mat [[1; 2]; [3; 4]; [5; 6]]) (Vec r_self) mode ;;
         wc <- linear_call (CompGCNLayer.W_i compgcn_pair) c ;;
         rows_of wc) = Ok h0 /\
        CompGCNLayer.forward compgcn_pair [[1; 2]; [3; 4]; [5; 6]] [[1; 0]; [0; 1]; [1; 1]]
          [mkEdge 0 0 2; mkEdge 2 1 0; mkEdge 1 0 2] mode all_in_order
        = Ok (h_v, h_r) /\
        (forall d, In d [2; 2]%Z ->
           nth_error h1 (Z.to_nat d)
           = Some (map2 Rplus (nth (Z.to_nat d) h0 [])
                     (map (fun x => INR (count [2; 2]%Z d) * x)
                          (nth (win_o d)
                               (map (CompGCN_message (CompGCNLayer.W_o compgcn_pair)
                                       [[1; 2]; [3; 4]; [5; 6]] [[1; 0]; [0; 1]; [1; 1]])
                                    [mkEdge 0 0 2; mkEdge 1 0 2]) [])))) /\
        (forall k, ~ In (Z.of_nat k) [2; 2]%Z -> nth_error h1 k = nth_error h0 k) /\
        (forall d, In d [0]%Z ->
           nth_error h_v (Z.to_nat d)
           = Some (map2 Rplus (nth (Z.to_nat d) h1 [])
                     (map (fun x => INR (count [0]%Z d) * x)
                          (nth (win_s d)
                               (map (CompGCN_message (CompGCNLayer.W_s compgcn_pair)
                                       [[1; 2]; [3; 4]; [5; 6]] [[1; 0]; [0; 1]; [1; 1]])
                                    [mkEdge 2 1 0]) [])))) /\
        (forall k, ~ In (Z.of_nat k) [0]%Z -> nth_error h_v k = nth_error h1 k).
Proof.
  apply (CompGCN_mode_reaches_self_loop_only compgcn_pair 2 [[1; 2]; [3; 4]; [5; 6]]
           [[1; 0]; [0; 1]; [1; 1]] [mkEdge 0 0 2; mkEdge 2 1 0; mkEdge 1 0 2] all_in_order).
  - repeat split; try reflexivity; intros b Hb; inversion Hb.
  - repeat constructor.
  - repeat constructor.
  - unfold in_range; simpl; lia.
  - repeat constructor; unfold in_range; simpl; lia.
  - repeat constructor; unfold in_range; simpl; lia.
  - repeat constructor; unfold in_range; simpl; lia.
Defined.

(** ** WGCNLayer.calculate_message *)

Lemma vbin_scalar (x w : vec) :
  length w = 1%nat -> vbin Rmult x w = Ok (map (fun v => v * hd 0 w) x).
Proof.
  intros Hw. unfold vbin. rewrite Hw.
  destruct (length x =? 1)%nat eqn:E.
  - apply Nat.eqb_eq in E.
    destruct x as [|a [|? ?]]; try discriminate.
    destruct w as [|b [|? ?]]; try discriminate. reflexivity.
  - reflexivity.
Qed.

(** X15.  [WGCNLayer.calculate_message], given one source row and one
    relation weight (a row of one scalar) per edge, returns [fc] of the
    source rows, each scaled by the weight of its edge's relation. *)
Theorem WGCN_calculate_message_value (L : WGCNLayer.t) (src rw : matrix) :
  length src = length rw ->
  Forall (fun w => length w = 1%nat) rw ->
  WGCNLayer.calculate_message L src rw
  = linear (WGCNLayer.fc L) (map2 (fun x w => map (fun v => v * hd 0 w) x) src rw).
Proof.
  intros Hlen Hw. unfold WGCNLayer.calculate_message, mbin.
  rewrite Hlen, Nat.eqb_refl.
  replace (mapM (fun p => vbin Rmult (fst p) (snd p)) (combine src rw))
    with (Ok (map2 (fun x w => map (fun v => v * hd 0 w) x) src rw));
    [reflexivity|].
  symmetry. revert rw Hlen Hw.
  induction src as [|x src IH]; intros [|w rw] Hlen Hw; try discriminate;
    [reflexivity|].
  inversion Hw as [|? ? Hw1 Hw']; subst.
  cbn [combine mapM fst snd map2]. rewrite (vbin_scalar x w Hw1). cbn [bind].
  rewrite IH by (auto; simpl in Hlen; lia). reflexivity.
Qed.

Lemma WGCN_calculate_message_value_witness :
  WGCNLayer.calculate_message wgcn_pair [[1; 2]; [3; 4]] [[2]; [3]]
  = linear (WGCNLayer.fc wgcn_pair)
      (map2 (fun x w => map (fun v => v * hd 0 w) x) [[1; 2]; [3; 4]] [[2]; [3]]).
Proof.
  apply (WGCN_calculate_message_value wgcn_pair [[1; 2]; [3; 4]] [[2]; [3]]).
  - reflexivity.
  - repeat constructor.
Defined.

(** ** GCNLayer *)

Section GCN_further.

Import GCNLayer.

Lemma map_nth_seq {A : Type} (d : A) (l : list A) :
  map (fun k => nth k l d) (seq 0 (length l)) = l.
Proof.
  apply nth_error_ext. intros k.
  destruct (Nat.lt_ge_cases k (length l)) as [H|H].
  - rewrite nth_error_map_seq by assumption. symmetry. now apply nth_error_nth'.
  - rewrite (proj2 (nth_error_None l k) H).
    apply nth_error_None. now rewrite length_map, length_seq.
Qed.

Lemma rows_to_cons {A : Type} (d i : Z) (index : list Z) (m : A) (rows : list A) :
  rows_to d (i :: index) (m :: rows)
  = if (i =? d)%Z then m :: rows_to d index rows else rows_to d index rows.
Proof.
  unfold rows_to. simpl. now destruct (i =? d)%Z.
Qed.

(** The scatter of [propagate]: every row of the result is the row of
    [out] to which the messages filed under its index were added in
    order. *)
Lemma aggregate_value (index : list Z) :
  forall (msgs out : tmatrix),
    Forall (in_range (length out)) index ->
    length index = length msgs ->
    aggregate out index msgs
    = Ok (map (fun k => fold_left (map2 tadd) (rows_to (Z.of_nat k) index msgs)
                                  (nth k out []))
              (seq 0 (length out))).
Proof.
  induction index as [|i index IH]; intros msgs out Hr Hlen.
  - destruct msgs; [|discriminate]. cbn [aggregate]. f_equal.
    symmetry. apply (map_nth_seq [] out).
  - destruct msgs as [|m msgs]; [discriminate|].
    inversion Hr as [|? ? [Hi0 Hi1] Hr']; subst.
    cbn [aggregate].
    replace ((0 <=? i)%Z && (i <? Z.of_nat (length out))%Z) with true
      by (symmetry; apply andb_true_intro; split;
          [apply Z.leb_le | apply Z.ltb_lt]; lia).
    assert (Hlt : (Z.to_nat i < length out)%nat) by lia.
    rewrite (nth_error_nth' out [] Hlt).
    rewrite IH; [|now rewrite set_nth_length | simpl in Hlen; lia].
    rewrite set_nth_length. f_equal. apply map_ext_in. intros k Hk.
    apply in_seq in Hk. rewrite rows_to_cons.
    destruct (Z.eqb_spec i (Z.of_nat k)) as [->|Hne].
    + rewrite Nat2Z.id in *. cbn [fold_left]. f_equal.
      apply nth_error_nth. now apply nth_error_set_nth_eq.
    + f_equal. destruct (nth_error out k) as [r|] eqn:Ek.
      * rewrite (nth_error_nth out k [] Ek).
        apply nth_error_nth. rewrite nth_error_set_nth_neq by lia. exact Ek.
      * apply nth_error_None in Ek. lia.
Qed.

Lemma norm_value (edges : edge_index) (n : nat) :
  Forall (in_range n) (fst edges) ->
  Forall (in_range n) (snd edges) ->
  length (fst edges) = length (snd edges) ->
  norm (add_self_loops edges n) n
  = Ok (map2 (fun s d => Finite (norm_coefficient edges n s d))
             (fst (add_self_loops edges n)) (snd (add_self_loops edges n))).
Proof.
  intros H0 H1 Hlen. set (edges' := add_self_loops edges n).
  assert (H0' : Forall (in_range n) (fst edges')).
  { unfold edges', add_self_loops. cbn [fst].
    apply Forall_app. split; [assumption | apply arange_in_range]. }
  assert (H1' : Forall (in_range n) (snd edges')).
  { unfold edges', add_self_loops. cbn [snd].
    apply Forall_app. split; [assumption | apply arange_in_range]. }
  unfold norm. rewrite (deg_inv_sqrt_value edges' n H0'). cbn [bind].
  set (dis := map (fun i => inv_sqrt_count (count (fst edges') (Z.of_nat i))) (seq 0 n)).
  assert (Ld : length dis = n) by (unfold dis; now rewrite length_map, length_seq).
  rewrite (index_select_nth (Finite 0) dis (fst edges')) by now rewrite Ld.
  rewrite (index_select_nth (Finite 0) dis (snd edges')) by now rewrite Ld.
  cbn [bind]. rewrite !length_map.
  replace (length (fst edges') =? length (snd edges'))%nat with true.
  2:{ symmetry. apply Nat.eqb_eq. unfold edges', add_self_loops. cbn [fst snd].
      rewrite !length_app. lia. }
  f_equal.
  assert (Hval : forall d, in_range n d ->
             nth (Z.to_nat d) dis (Finite 0)
             = Finite (/ sqrt (INR (source_degree edges n d)))).
  { intros d [Hd0 Hd1]. apply nth_error_nth. unfold dis.
    rewrite nth_error_map_seq by lia. rewrite Z2Nat.id by assumption.
    f_equal. unfold source_degree. fold edges'.
    pose proof (count_self_loop (fst edges) n (Z.to_nat d) ltac:(lia)) as Hc.
    rewrite Z2Nat.id in Hc by assumption.
    change (fst edges ++ arange n) with (fst edges') in Hc.
    destruct (count (fst edges') d); [lia | reflexivity]. }
  clearbody dis. revert H0' H1'. generalize (fst edges') (snd edges').
  intros a b Ha. revert b. induction Ha as [|s a Hs Ha IH];
    intros b Hb; [reflexivity|].
  destruct Hb as [|d b Hd Hb]; [reflexivity|].
  cbn [map map2]. rewrite (Hval s Hs), (Hval d Hd). cbn [tmul].
  unfold norm_coefficient. f_equal. now apply IH.
Qed.

Lemma message_map2 (f : Z -> list tval) (g : Z -> Z -> tval) (a b : list Z) :
  message (map f a) (map2 g a b)
  = map2 (fun s d => map (tmul (g s d)) (f s)) a b.
Proof.
  unfold message. revert b. induction a as [|s a IH]; intros [|d b]; try reflexivity.
  cbn [map map2]. f_equal. apply IH.
Qed.

Lemma rows_to_map2 {A : Type} (F : Z -> Z -> A) (k : Z) (a b : list Z) :
  length a = length b ->
  rows_to k b (map2 F a b) = map (fun s => F s k) (rows_to k b a).
Proof.
  revert b. induction a as [|s a IH]; intros [|d b] H; try discriminate.
  - reflexivity.
  - cbn [map2]. rewrite !rows_to_cons.
    destruct (Z.eqb_spec d k) as [->|Hne].
    + cbn [map]. f_equal. apply IH. simpl in H. lia.
    + apply IH. simpl in H. lia.
Qed.

Lemma rows_to_app {A : Type} (k : Z) (i1 i2 : list Z) (r1 r2 : list A) :
  length i1 = length r1 ->
  rows_to k (i1 ++ i2) (r1 ++ r2) = rows_to k i1 r1 ++ rows_to k i2 r2.
Proof.
  revert r1. induction i1 as [|i i1 IH]; intros [|r r1] H; try discriminate.
  - reflexivity.
  - cbn [app]. rewrite !rows_to_cons.
    destruct (i =? k)%Z; [cbn [app]; f_equal|]; apply IH; simpl in H; lia.
Qed.

Lemma rows_to_absent {A : Type} (k : Z) (index : list Z) (rows : list A) :
  ~ In k index -> rows_to k index rows = [].
Proof.
  revert rows. induction index as [|i index IH]; intros [|r rows] H; try reflexivity.
  rewrite rows_to_cons. destruct (Z.eqb_spec i k) as [->|Hne].
  - exfalso. apply H. now left.
  - apply IH. intros Hin. apply H. now right.
Qed.

Lemma rows_to_seq (k a n : nat) :
  rows_to (Z.of_nat k) (map Z.of_nat (seq a n)) (map Z.of_nat (seq a n))
  = if ((a <=? k) && (k <? a + n))%nat then [Z.of_nat k] else [].
Proof.
  revert a. induction n as [|n IH]; intros a.
  - cbn [seq map].
    destruct (Nat.leb_spec a k), (Nat.ltb_spec k (a + 0)); try reflexivity; lia.
  - cbn [seq map]. rewrite rows_to_cons, IH.
    destruct (Z.eqb_spec (Z.of_nat a) (Z.of_nat k)) as [E|E].
    + apply Nat2Z.inj in E. subst a.
      replace ((S k <=? k)%nat) with false by (symmetry; apply Nat.leb_gt; lia).
      replace ((k <=? k)%nat) with true by (symmetry; apply Nat.leb_le; lia).
      replace ((k <? k + S n)%nat) with true by (symmetry; apply Nat.ltb_lt; lia).
      reflexivity.
    + assert (a <> k) by congruence.
      destruct (Nat.leb_spec (S a) k), (Nat.leb_spec a k),
        (Nat.ltb_spec k (S a + n)), (Nat.ltb_spec k (a + S n));
        try reflexivity; lia.
Qed.

Lemma tmul_one (a : tval) : tmul (Finite 1) a = a.
Proof.
  destruct a; cbn [tmul]; unfold signed_inf.
  - f_equal. lra.
  - destruct (Req_dec_T 1 0); [lra|]. destruct (Rlt_dec 0 1); [reflexivity | lra].
  - destruct (Req_dec_T 1 0); [lra|]. destruct (Rlt_dec 0 1); [reflexivity | lra].
  - reflexivity.
Qed.

Lemma tadd_zero (a : tval) : tadd (Finite 0) a = a.
Proof.
  destruct a; cbn [tadd]; try reflexivity. f_equal. lra.
Qed.

Lemma map2_tadd_zero (row : list tval) :
  map2 tadd (repeat (Finite 0) (length row)) row = row.
Proof.
  induction row as [|a row IH]; [reflexivity|].
  cbn [length repeat map2]. now rewrite tadd_zero, IH.
Qed.

Lemma count_arange (n k : nat) : (k < n)%nat -> count (arange n) (Z.of_nat k) = 1%nat.
Proof.
  intros H. unfold count, arange. apply NoDup_count_occ'.
  - apply NoDup_map_NoDup_ForallPairs; [intros a b _ _; apply Nat2Z.inj | apply seq_NoDup].
  - apply in_map. apply in_seq. lia.
Qed.

(** The value of the layer: row [k] of the aggregated matrix sums the
    scaled source rows of the edges into [k], self-loop last. *)
Lemma forward_value (L : GCNLayer.t) (node_embed : tmatrix) (edges : edge_index) :
  Forall (in_range (length node_embed)) (fst edges) ->
  Forall (in_range (length node_embed)) (snd edges) ->
  length (fst edges) = length (snd edges) ->
  forward L node_embed edges
  = update L
      (map (fun k =>
              fold_left (map2 tadd)
                (map (fun s => map (tmul (Finite (norm_coefficient edges (length node_embed)
                                                    s (Z.of_nat k))))
                                   (nth (Z.to_nat s) node_embed []))
                     (rows_to (Z.of_nat k)
                              (snd (add_self_loops edges (length node_embed)))
                              (fst (add_self_loops edges (length node_embed)))))
                (repeat (Finite 0) (ncols node_embed)))
           (seq 0 (length node_embed))).
Proof.
  intros H0 H1 Hlen.
  set (n := length node_embed). set (edges' := add_self_loops edges n).
  assert (H0' : Forall (in_range n) (fst edges')).
  { unfold edges', add_self_loops. cbn [fst].
    apply Forall_app. split; [assumption | apply arange_in_range]. }
  assert (Hlen' : length (fst edges') = length (snd edges')).
  { unfold edges', add_self_loops. cbn [fst snd]. rewrite !length_app. lia. }
  unfold forward. change (length node_embed) with n. fold edges'.
  pose proof (norm_value edges n H0 H1 Hlen) as Hn. fold edges' in Hn.
  rewrite Hn. cbn [bind]. unfold propagate.
  rewrite (index_select_nth [] node_embed (fst edges') H0'). cbn [bind].
  change (length node_embed) with n.
  rewrite message_map2.
  rewrite aggregate_value.
  - cbn [bind]. rewrite repeat_length. f_equal. apply map_ext_in. intros k Hk.
    apply in_seq in Hk. rewrite nth_repeat_lt by lia.
    f_equal. now apply rows_to_map2.
  - rewrite repeat_length. unfold edges', add_self_loops. cbn [snd].
    apply Forall_app. split; [assumption | apply arange_in_range].
  - rewrite map2_length; lia.
Qed.

(** X16.  The normalisation coefficient that [GCNLayer.forward] gives the
    edge [(s, d)], an added self-loop included, is
    [1 / sqrt(deg s) * 1 / sqrt(deg d)], where [deg] counts the edges of
    which a node is the source, its self-loop included; it is finite and
    every [deg] is at least 1. *)
Theorem GCN_norm_coefficients (node_embed : tmatrix) (edges : edge_index) :
  let n := length node_embed in
  let edges' := add_self_loops edges n in
  Forall (in_range n) (fst edges) ->
  Forall (in_range n) (snd edges) ->
  length (fst edges) = length (snd edges) ->
  norm edges' n
  = Ok (map2 (fun s d => Finite (/ sqrt (INR (source_degree edges n s))
                                 * / sqrt (INR (source_degree edges n d))))
             (fst edges') (snd edges')) /\
  (forall i, in_range n i -> (1 <= source_degree edges n i)%nat).
Proof.
  intros n edges' H0 H1 Hlen. split; [now apply norm_value|].
  intros i [Hi0 Hi1]. unfold source_degree, add_self_loops. cbn [fst].
  rewrite <- (Z2Nat.id i Hi0). apply count_self_loop. lia.
Qed.

Lemma GCN_norm_coefficients_witness :
  norm (add_self_loops ([0; 0]%Z, [1; 2]%Z) 3) 3
  = Ok (map2 (fun s d => Finite (/ sqrt (INR (source_degree ([0; 0]%Z, [1; 2]%Z) 3 s))
                                 * / sqrt (INR (source_degree ([0; 0]%Z, [1; 2]%Z) 3 d))))
             (fst (add_self_loops ([0; 0]%Z, [1; 2]%Z) 3))
             (snd (add_self_loops ([0; 0]%Z, [1; 2]%Z) 3))) /\
  (forall i, in_range 3 i -> (1 <= source_degree ([0; 0]%Z, [1; 2]%Z) 3 i)%nat).
Proof.
  apply (GCN_norm_coefficients [[Finite 1]; [Finite 2]; [Finite 3]]
           ([0; 0]%Z, [1; 2]%Z)).
  - repeat constructor; unfold in_range; simpl; lia.
  - repeat constructor; unfold in_range; simpl; lia.
  - reflexivity.
Defined.

(** X17.  For an edge index with in-range IDs, [GCNLayer.forward] is the
    linear map [lin] of the aggregated matrix whose row [k] is the sum,
    started at zero and taken in edge order with the self-loop last, of
    the rows [x[s]] of the sources [s] of the edges [(s, k)], each scaled
    by the coefficient of its edge. *)
Theorem GCN_forward_value (L : GCNLayer.t) (node_embed : tmatrix)
    (edges : edge_index) :
  let n := length node_embed in
  let edges' := add_self_loops edges n in
  Forall (in_range n) (fst edges) ->
  Forall (in_range n) (snd edges) ->
  length (fst edges) = length (snd edges) ->
  forward L node_embed edges
  = update L
      (map (fun k =>
              fold_left (map2 tadd)
                (map (fun s => map (tmul (Finite (norm_coefficient edges n s (Z.of_nat k))))
                                   (nth (Z.to_nat s) node_embed []))
                     (rows_to (Z.of_nat k) (snd edges') (fst edges')))
                (repeat (Finite 0) (ncols node_embed)))
           (seq 0 n)).
Proof.
  intros n edges' H0 H1 Hlen. now apply forward_value.
Qed.

Lemma GCN_forward_value_witness :
  forward gcn_unit [[Finite 1]; [Finite 2]; [Finite 3]] ([0; 0]%Z, [1; 2]%Z)
  = update gcn_unit
      (map (fun k =>
              fold_left (map2 tadd)
                (map (fun s =>
                        map (tmul (Finite (norm_coefficient ([0; 0]%Z, [1; 2]%Z) 3
                                             s (Z.of_nat k))))
                            (nth (Z.to_nat s) [[Finite 1]; [Finite 2]; [Finite 3]] []))
                     (rows_to (Z.of_nat k)
                              (snd (add_self_loops ([0; 0]%Z, [1; 2]%Z) 3))
                              (fst (add_self_loops ([0; 0]%Z, [1; 2]%Z) 3))))
                (repeat (Finite 0) (ncols [[Finite 1]; [Finite 2]; [Finite 3]])))
           (seq 0 3)).
Proof.
  apply (GCN_forward_value gcn_unit [[Finite 1]; [Finite 2]; [Finite 3]]
           ([0; 0]%Z, [1; 2]%Z)).
  - repeat constructor; unfold in_range; simpl; lia.
  - repeat constructor; unfold in_range; simpl; lia.
  - reflexivity.
Defined.

(** X18.  A node that is neither source nor destination of an edge keeps
    its own features through the aggregation of [GCNLayer.forward]: its
    only message is its self-loop, with coefficient 1, so its output row is
    [lin] of its input row. *)
Theorem GCN_isolated_node (L : GCNLayer.t) (node_embed : tmatrix)
    (edges : edge_index) (k : nat) (xk : list tval) :
  let n := length node_embed in
  Forall (in_range n) (fst edges) ->
  Forall (in_range n) (snd edges) ->
  length (fst edges) = length (snd edges) ->
  nth_error node_embed k = Some xk ->
  length xk = ncols node_embed ->
  ~ In (Z.of_nat k) (fst edges) ->
  ~ In (Z.of_nat k) (snd edges) ->
  (exists aggr_out,
      forward L node_embed edges = update L aggr_out /\
      nth_error aggr_out k = Some xk) /\
  (forall out, forward L node_embed edges = Ok out ->
     exists y, update_row (lin L) xk = Ok y /\ nth_error out k = Some y).
Proof.
  intros n H0 H1 Hlen Hk Hc Hs Hd.
  assert (Hkn : (k < n)%nat) by (apply nth_error_Some; unfold n; congruence).
  assert (Hagg : exists aggr_out,
             forward L node_embed edges = update L aggr_out /\
             nth_error aggr_out k = Some xk).
  { eexists. split; [now apply forward_value|].
    fold n. rewrite nth_error_map_seq by assumption. f_equal.
    unfold add_self_loops. cbn [fst snd].
    rewrite rows_to_app by (symmetry; assumption).
    rewrite (rows_to_absent _ _ _ Hd). cbn [app].
    unfold arange. rewrite rows_to_seq.
    replace ((0 <=? k)%nat && (k <? 0 + n)%nat) with true.
    2:{ symmetry. apply andb_true_intro. split;
        [apply Nat.leb_le | apply Nat.ltb_lt]; lia. }
    cbn [map fold_left]. rewrite Nat2Z.id.
    rewrite (nth_error_nth _ _ [] Hk).
    assert (H1c : norm_coefficient edges n (Z.of_nat k) (Z.of_nat k) = 1).
    { unfold norm_coefficient, source_degree, add_self_loops. cbn [fst].
      unfold count at 1 2. rewrite count_occ_app.
      rewrite (proj1 (count_occ_not_In Z.eq_dec (fst edges) (Z.of_nat k)) Hs).
      change (count_occ Z.eq_dec (arange n) (Z.of_nat k))
        with (count (arange n) (Z.of_nat k)).
      rewrite (count_arange n k Hkn). cbn [Nat.add INR].
      rewrite sqrt_1, Rinv_1. lra. }
    rewrite H1c. rewrite (map_ext _ (fun a => a) tmul_one), map_id.
    rewrite <- Hc. apply map2_tadd_zero. }
  split; [exact Hagg|].
  intros out Hout. destruct Hagg as (aggr_out & Hf & Hrow).
  rewrite Hf in Hout. unfold update in Hout.
  exact (mapM_nth _ _ _ _ _ Hout Hrow).
Qed.

Lemma GCN_isolated_node_witness :
  (exists aggr_out,
      forward gcn_unit [[Finite 1]; [Finite 2]; [Finite 3]] ([0]%Z, [1]%Z)
      = update gcn_unit aggr_out /\
      nth_error aggr_out 2 = Some [Finite 3]) /\
  (forall out,
     forward gcn_unit [[Finite 1]; [Finite 2]; [Finite 3]] ([0]%Z, [1]%Z) = Ok out ->
     exists y, update_row (lin gcn_unit) [Finite 3] = Ok y /\ nth_error out 2 = Some y).
Proof.
  apply (GCN_isolated_node gcn_unit [[Finite 1]; [Finite 2]; [Finite 3]]
           ([0]%Z, [1]%Z) 2 [Finite 3]).
  - repeat constructor; unfold in_range; simpl; lia.
  - repeat constructor; unfold in_range; simpl; lia.
  - reflexivity.
  - reflexivity.
  - reflexivity.
  - simpl. intros [H|[]]. discriminate.
  - simpl. intros [H|[]]. discriminate.
Defined.

End GCN_further.
